(** * FrogLLM tooling and serving core: a shallow embedding

    The repository ships two scripts ([build.py], [release.py]) and three
    HTTP client scripts that exercise the serving gateway.  The scripts are
    embedded function by function; the gateway components, whose code is not
    part of the tree, are modelled from the design text. *)

From Stdlib Require Import ZArith List String Ascii Lia Bool Arith.
From Stdlib Require Import Strings.Byte.
From Stdlib Require Import DecimalString.
From stdpp Require Import gmap strings list fin_maps sorting.
From Equations Require Import Equations.
Import ListNotations.

(** ** Python strings

    A Python [str] is kept as a Rocq [string]; the few built-ins the scripts
    call are written out. *)
Module Py.

Local Open Scope string_scope.

(** [s.startswith(p)] *)
Definition startswith (s p : string) : bool := String.prefix p s.

(** [s[n:]] for a non-negative [n]. *)
Fixpoint slice_from (n : nat) (s : string) : string :=
  match n, s with
  | O, _ => s
  | S _, EmptyString => EmptyString
  | S n', String _ s' => slice_from n' s'
  end.

(** [s[:n]] for a non-negative [n]. *)
Fixpoint slice_to (n : nat) (s : string) : string :=
  match n, s with
  | O, _ => EmptyString
  | S _, EmptyString => EmptyString
  | S n', String c s' => String c (slice_to n' s')
  end.

(** [s.split(sep)] for a one-character separator: the result is never
    empty, and has one more part than [s] has separators. *)
Fixpoint split (sep : ascii) (s : string) : list string :=
  match s with
  | EmptyString => [EmptyString]
  | String c s' =>
      if Ascii.eqb c sep then EmptyString :: split sep s'
      else match split sep s' with
           | [] => [String c EmptyString]
           | p :: ps => String c p :: ps
           end
  end.

(** Number of occurrences of a character. *)
Fixpoint count (sep : ascii) (s : string) : nat :=
  match s with
  | EmptyString => 0
  | String c s' => (if Ascii.eqb c sep then 1 else 0) + count sep s'
  end.

(** [c.isspace()] on the ASCII range. *)
Definition isspace (c : ascii) : bool :=
  let n := nat_of_ascii c in
  (Nat.leb 9 n && Nat.leb n 13) || (Nat.leb 28 n && Nat.leb n 32).

Fixpoint lstrip (s : string) : string :=
  match s with
  | EmptyString => EmptyString
  | String c s' => if isspace c then lstrip s' else s
  end.

Fixpoint rstrip (s : string) : string :=
  match s with
  | EmptyString => EmptyString
  | String c s' =>
      match rstrip s' with
      | EmptyString => if isspace c then EmptyString else String c EmptyString
      | r => String c r
      end
  end.

(** [s.strip()] *)
Definition strip (s : string) : string := rstrip (lstrip s).

(** [s * n] *)
Fixpoint repeat (s : string) (n : nat) : string :=
  match n with
  | O => EmptyString
  | S n' => s +:+ repeat s n'
  end.

End Py.

(** ** Script effects

    The scripts print to standard output, spawn subprocesses and probe the
    file system.  A script is a function of the host it runs on that threads
    the log of what it did. *)
Module Script.

(** What [subprocess.run] can do: raise, or complete with an exit code and
    the captured standard output. *)
Inductive run_outcome : Type :=
| Raised
| Completed (returncode : Z) (stdout : string).

Record host : Type := {
  subprocess_run : list string -> run_outcome;
  path_exists : string -> bool
}.

Inductive event : Type :=
| Printed (line : string)
| Spawned (argv : list string).

Definition script (A : Type) : Type := host -> list event -> A * list event.

#[global] Instance script_ret : MRet script :=
  fun A (a : A) _ log => (a, log).

#[global] Instance script_bind : MBind script :=
  fun A B (k : A -> script B) (m : script A) h log =>
    let '(a, log') := m h log in k a h log'.

Definition print (line : string) : script unit :=
  fun _ log => (tt, log ++ [Printed line]).

Definition run (argv : list string) : script run_outcome :=
  fun h log => (subprocess_run h argv, log ++ [Spawned argv]).

Definition exists_path (p : string) : script bool :=
  fun h log => (path_exists h p, log).

(** Result and log of a script started with an empty log. *)
Definition exec {A} (m : script A) (h : host) : A * list event := m h [].
Definition result {A} (m : script A) (h : host) : A := fst (exec m h).
Definition output {A} (m : script A) (h : host) : list event := snd (exec m h).

End Script.

(** ** hashlib.sha256

    [release.py] hashes through [hashlib.sha256()]: an object that is fed
    byte blocks with [update] and read with [hexdigest].  The object is
    written out here as the standard streaming construction over the SHA-256
    compression function, with 32-bit words kept as [Z] and every wrap-around
    explicit. *)
Module Sha256.

Local Open Scope Z_scope.

Definition wrap32 (x : Z) : Z := x mod 2 ^ 32.
Definition add32 (x y : Z) : Z := wrap32 (x + y).
Definition rotr (n x : Z) : Z :=
  wrap32 (Z.lor (Z.shiftr x n) (Z.shiftl x (32 - n))).
Definition shr (n x : Z) : Z := Z.shiftr x n.
Definition not32 (x : Z) : Z := Z.lxor x 0xffffffff.

Definition Ch (x y z : Z) : Z := Z.lxor (Z.land x y) (Z.land (not32 x) z).
Definition Maj (x y z : Z) : Z :=
  Z.lxor (Z.lxor (Z.land x y) (Z.land x z)) (Z.land y z).
Definition Sigma0 (x : Z) : Z := Z.lxor (Z.lxor (rotr 2 x) (rotr 13 x)) (rotr 22 x).
Definition Sigma1 (x : Z) : Z := Z.lxor (Z.lxor (rotr 6 x) (rotr 11 x)) (rotr 25 x).
Definition sigma0 (x : Z) : Z := Z.lxor (Z.lxor (rotr 7 x) (rotr 18 x)) (shr 3 x).
Definition sigma1 (x : Z) : Z := Z.lxor (Z.lxor (rotr 17 x) (rotr 19 x)) (shr 10 x).

(** Integer part of the [k]-th root of [n], found bit by bit from bit
    [bits - 1] down. *)
Fixpoint root_bits (k n : Z) (bits : nat) (acc : Z) : Z :=
  match bits with
  | O => acc
  | S b =>
      let c := acc + 2 ^ Z.of_nat b in
      if c ^ k <=? n then root_bits k n b c else root_bits k n b acc
  end.

(** The first 32 bits of the fractional part of the [k]-th root of [p]. *)
Definition frac_root (k p : Z) : Z :=
  wrap32 (root_bits k (p * 2 ^ (32 * k)) 40 0).

(** The first sixty-four primes. *)
Definition primes : list Z :=
  [ 2; 3; 5; 7; 11; 13; 17; 19; 23; 29; 31; 37; 41; 43; 47; 53;
    59; 61; 67; 71; 73; 79; 83; 89; 97; 101; 103; 107; 109; 113; 127; 131;
    137; 139; 149; 151; 157; 163; 167; 173; 179; 181; 191; 193; 197; 199;
    211; 223; 227; 229; 233; 239; 241; 251; 257; 263; 269; 271; 277; 281;
    283; 293; 307; 311 ].

(** Round constants: fractional cube roots of the first 64 primes. *)
Definition K : list Z := Eval vm_compute in List.map (frac_root 3) primes.

(** The eight chaining words. *)
Record chain : Type := Chain {
  ha : Z; hb : Z; hc : Z; hd : Z; he : Z; hf : Z; hg : Z; hh : Z
}.

(** Initial chaining value: fractional square roots of the first 8 primes. *)
Definition IV : chain :=
  Eval vm_compute in
    Chain (frac_root 2 2) (frac_root 2 3) (frac_root 2 5) (frac_root 2 7)
          (frac_root 2 11) (frac_root 2 13) (frac_root 2 17) (frac_root 2 19).

Definition byte_val (b : byte) : Z := Z.of_N (Byte.to_N b).

Definition byte_of (x : Z) : byte :=
  match Byte.of_N (Z.to_N (x mod 256)) with
  | Some b => b
  | None => Byte.x00
  end.

(** Big-endian 32-bit words of a byte block; a trailing group of fewer
    than four bytes is dropped (blocks are 64 bytes long). *)
Fixpoint words_of (bs : list byte) : list Z :=
  match bs with
  | b0 :: b1 :: b2 :: b3 :: rest =>
      (Z.shiftl (byte_val b0) 24 + Z.shiftl (byte_val b1) 16
       + Z.shiftl (byte_val b2) 8 + byte_val b3) :: words_of rest
  | _ => []
  end.

(** Message schedule: sixteen block words extended to sixty-four. *)
Fixpoint extend (n : nat) (w : list Z) : list Z :=
  match n with
  | O => w
  | S n' =>
      let t := List.length w in
      let at_ (k : nat) := nth (t - k) w 0 in
      extend n'
        (w ++ [add32 (add32 (add32 (sigma1 (at_ 2%nat)) (at_ 7%nat))
                        (sigma0 (at_ 15%nat))) (at_ 16%nat)])
  end.

Definition schedule (block : list byte) : list Z := extend 48 (words_of block).

Definition round (s : chain) (kw : Z * Z) : chain :=
  let t1 := add32 (add32 (add32 (add32 (hh s) (Sigma1 (he s)))
                            (Ch (he s) (hf s) (hg s))) (fst kw)) (snd kw) in
  let t2 := add32 (Sigma0 (ha s)) (Maj (ha s) (hb s) (hc s)) in
  Chain (add32 t1 t2) (ha s) (hb s) (hc s) (add32 (hd s) t1) (he s) (hf s) (hg s).

(** One compression: sixty-four rounds, then the feed-forward sum. *)
Definition compress (s : chain) (block : list byte) : chain :=
  let r := fold_left round (combine K (schedule block)) s in
  Chain (add32 (ha s) (ha r)) (add32 (hb s) (hb r))
        (add32 (hc s) (hc r)) (add32 (hd s) (hd r))
        (add32 (he s) (he r)) (add32 (hf s) (hf r))
        (add32 (hg s) (hg r)) (add32 (hh s) (hh r)).

(** Bytes per block. *)
Definition block_bytes : nat := 64.

Lemma skipn_block_lt {A} (data : list A) :
  (block_bytes <= List.length data)%nat ->
  (List.length (skipn block_bytes data) < List.length data)%nat.
Proof. unfold block_bytes. rewrite length_skipn. lia. Qed.

#[global] Opaque block_bytes.

(** Consume every whole 64-byte block of [data]; return the chaining
    value and the bytes left over. *)
Equations absorb (s : chain) (data : list byte) : chain * list byte
  by wf (List.length data) lt :=
  absorb s data with le_lt_dec block_bytes (List.length data) => {
    | left _ =>
        absorb (compress s (firstn block_bytes data)) (skipn block_bytes data);
    | right _ => (s, data) }.
Next Obligation. now apply skipn_block_lt. Qed.

(** Big-endian bytes of the low [8 * n] bits of [x]. *)
Fixpoint be_bytes (n : nat) (x : Z) : list byte :=
  match n with
  | O => []
  | S n' => byte_of (Z.shiftr x (8 * Z.of_nat n')) :: be_bytes n' x
  end.

(** Padding for a message of [len] bytes: the byte 0x80, zero bytes up to
    56 modulo 64, and the bit length on eight bytes. *)
Definition padding (len : nat) : list byte :=
  Byte.x80
    :: List.repeat Byte.x00 (Z.to_nat ((55 - Z.of_nat len) mod 64))
    ++ be_bytes 8 (8 * Z.of_nat len).

(** The hash object: chaining value, buffered tail, bytes fed so far. *)
Record hasher : Type := Hasher {
  chaining : chain;
  pending : list byte;
  fed : nat
}.

(** [hashlib.sha256()] *)
Definition new : hasher := Hasher IV [] 0.

(** [h.update(data)] *)
Definition update (h : hasher) (data : list byte) : hasher :=
  let '(s, rest) := absorb (chaining h) (pending h ++ data) in
  Hasher s rest (fed h + List.length data).

(** The final chaining value: pad the buffered tail and absorb it. *)
Definition finish (h : hasher) : chain :=
  fst (absorb (chaining h) (pending h ++ padding (fed h))).

Definition hex_digit (x : Z) : ascii :=
  if x <? 10 then ascii_of_nat (48 + Z.to_nat x)
  else ascii_of_nat (87 + Z.to_nat x).

(** Eight hexadecimal digits of a word, most significant first. *)
Fixpoint hex_word (n : nat) (x : Z) : string :=
  match n with
  | O => EmptyString
  | S n' =>
      String (hex_digit (Z.land (Z.shiftr x (4 * Z.of_nat n')) 15)) (hex_word n' x)
  end.

Definition hex_chain (s : chain) : string :=
  (hex_word 8 (ha s) +:+ hex_word 8 (hb s) +:+ hex_word 8 (hc s)
   +:+ hex_word 8 (hd s) +:+ hex_word 8 (he s) +:+ hex_word 8 (hf s)
   +:+ hex_word 8 (hg s) +:+ hex_word 8 (hh s))%string.

(** [h.hexdigest()] *)
Definition hexdigest (h : hasher) : string := hex_chain (finish h).

(** The digest as the standard words it: pad the whole message, cut it
    into 64-byte blocks, fold the compression function over them. *)
Equations blocks (data : list byte) : list (list byte)
  by wf (List.length data) lt :=
  blocks data with le_lt_dec block_bytes (List.length data) => {
    | left _ => firstn block_bytes data :: blocks (skipn block_bytes data);
    | right _ => [] }.
Next Obligation. now apply skipn_block_lt. Qed.

#[global] Transparent block_bytes.

Definition sha256 (msg : list byte) : chain :=
  fold_left compress (blocks (msg ++ padding (List.length msg))) IV.

Definition sha256_hex (msg : list byte) : string := hex_chain (sha256 msg).

(** The buffered tail of a hash object never holds a whole block. *)
Definition well_formed (h : hasher) : Prop :=
  (List.length (pending h) < block_bytes)%nat.

(** Digits and the lowercase letters a to f. *)
Definition is_lower_hex (c : ascii) : bool :=
  let n := nat_of_ascii c in
  (Nat.leb 48 n && Nat.leb n 57) || (Nat.leb 97 n && Nat.leb n 102).

Fixpoint lower_hex (s : string) : bool :=
  match s with
  | EmptyString => true
  | String c s' => is_lower_hex c && lower_hex s'
  end.

End Sha256.

(** ** release.py *)
Module Release.

Import Script.
Local Open Scope string_scope.

Definition esc : string := String (ascii_of_nat 27) EmptyString.

(** [class Colors] *)
Definition RED : string := esc +:+ "[0;31m".
Definition NC : string := esc +:+ "[0m".

(** [print_colored(message, color)] *)
Definition print_colored (message color : string) : script unit :=
  print (color +:+ message +:+ NC).

Definition msg_prefix : string := "Version must start with 'v' (e.g., v0.1.0)".
Definition msg_semver : string :=
  "Version must follow semantic versioning (e.g., v1.0.0)".

(** [validate_version(version)] *)
Definition validate_version (version : string) : script bool :=
  if negb (Py.startswith version "v") then
    print_colored msg_prefix RED ;; mret false
  else
    let ver := Py.slice_from 1 version in
    let parts := Py.split "." ver in
    if Nat.ltb (List.length parts) 2 then
      print_colored msg_semver RED ;; mret false
    else mret true.

(** A file opened for binary reading: the bytes that have not been read
    yet.  [f.read(n)] hands out at most [n] of them and advances. *)
Definition reader : Type := list byte.

Definition read (n : nat) (f : reader) : list byte * reader :=
  (firstn n f, skipn n f).

(** The block size of the hashing loop. *)
Definition chunk : nat := 4096.

Lemma read_advances (n : nat) (f : reader) (b : byte) (bs : list byte) :
  fst (read n f) = b :: bs ->
  List.length (snd (read n f)) < List.length f.
Proof.
  unfold read; simpl. rewrite length_skipn.
  destruct n, f; simpl; try discriminate; lia.
Qed.

#[global] Opaque chunk.

(** [for byte_block in iter(lambda: f.read(4096), b""):
       sha256_hash.update(byte_block)]
    The loop ends at the first empty read. *)
Equations feed (f : reader) (h : Sha256.hasher) : Sha256.hasher
  by wf (List.length f) lt :=
  feed f h with Logic.inspect (fst (read chunk f)) => {
    | exist _ [] _ => h;
    | exist _ (b :: bs) _ =>
        feed (snd (read chunk f)) (Sha256.update h (b :: bs)) }.
Next Obligation. eapply read_advances; eauto. Qed.

#[global] Transparent chunk.

(** The files a host holds: [open] raises on a path that names none. *)
Definition filesystem : Type := string -> option (list byte).

(** [calculate_sha256(filepath)]; [None] stands for the exception that
    [open] raises. *)
Definition calculate_sha256 (fs : filesystem) (filepath : string) : option string :=
  match fs filepath with
  | None => None
  | Some content =>
      let sha256_hash := Sha256.new in
      let sha256_hash := feed content sha256_hash in
      Some (Sha256.hexdigest sha256_hash)
  end.

(** A host whose only file holds the three bytes of the text abc. *)
Definition abc : list byte := list_byte_of_string "abc".

Definition abc_fs : filesystem :=
  fun p => if String.eqb p "abc.bin" then Some abc else None.

End Release.

(** ** build.py *)
Module Build.

Import Script.
Local Open Scope string_scope.

(** [print_step(step_name)] *)
Definition print_step (step_name : string) : script unit :=
  print (String (ascii_of_nat 10) "📦 " +:+ step_name) ;;
  print (Py.repeat "-" 40).

Definition npm_missing : string := "❌ npm not found! Please install Node.js".
Definition go_missing : string := "❌ Go not found! Please install Go".
Definition go_install : string := "/home/matei/go-install/go/bin/go".

(** The second half of [check_dependencies]: the Go check. *)
Definition check_go : script bool :=
  found ← exists_path go_install;
  let go_cmd := if (found : bool) then go_install else "go" in
  r ← run [go_cmd; "version"];
  match r with
  | Completed rc out =>
      if Z.eqb rc 0 then
        print ("✅ " +:+ Py.strip out) ;; mret true
      else
        print go_missing ;; mret false
  | Raised => print go_missing ;; mret false
  end.

(** [check_dependencies()] *)
Definition check_dependencies : script bool :=
  print_step "Checking Dependencies" ;;
  r ← run ["npm"; "--version"];
  match r with
  | Completed rc out =>
      if Z.eqb rc 0 then
        print ("✅ npm v" +:+ Py.strip out +:+ " found") ;; check_go
      else
        print npm_missing ;; mret true
  | Raised => print npm_missing ;; mret false
  end.

(** The command line of the Go probe on a given host. *)
Definition go_argv (h : host) : list string :=
  [if path_exists h go_install then go_install else "go"; "version"].

Definition npm_argv : list string := ["npm"; "--version"].

(** A probe fails when the spawn raises or the exit code is not zero. *)
Definition probe_failed (o : run_outcome) : Prop :=
  match o with
  | Raised => True
  | Completed rc _ => rc <> 0%Z
  end.

(** A host on which every spawn completes with exit code 127 (the shell's
    command-not-found code) and the private Go toolchain is absent. *)
Definition bare_host : host :=
  {| subprocess_run := fun _ => Completed 127 "";
     path_exists := fun _ => false |}.

End Build.

(** ** GPU Resource Tracker *)
Module Gpu.

(** Modelled from the spec: the GPUDevice record of the data model (total
    memory and currently allocated memory; the index is the position in the
    inventory).  The tracker's code is not part of the tree. *)
Record device : Type := Device { total : nat; allocated : nat }.

(** Modelled from the spec: free memory of a device. *)
Definition free (d : device) : nat := total d - allocated d.

(** Modelled from the spec: an Allocation, as the amount reserved on each
    device of the inventory, by index. *)
Definition allocation : Type := list nat.

(** Modelled from the spec: the amount an allocation holds on device [i]. *)
Definition amount (a : allocation) (i : nat) : nat := nth i a 0.

(** Modelled from the spec: a device can fit the instance whole. *)
Definition fits (footprint : nat) (d : device) : bool :=
  Nat.leb footprint (free d).

(** Modelled from the spec: placement policy, the device with the most free
    memory among those that fit the instance whole (index and free memory;
    the lowest index on equal free memory). *)
Fixpoint most_free (footprint i : nat) (ds : list device) : option (nat * nat) :=
  match ds with
  | [] => None
  | d :: ds' =>
      let rest := most_free footprint (S i) ds' in
      if fits footprint d then
        match rest with
        | Some (j, f) => if Nat.ltb (free d) f then Some (j, f) else Some (i, free d)
        | None => Some (i, free d)
        end
      else rest
  end.

(** Modelled from the spec: the optional preferred device of [reserve] is
    taken when it can fit the instance whole. *)
Definition preferred_fit (ds : list device) (footprint : nat)
    (preferred : option nat) : option nat :=
  match preferred with
  | Some k =>
      match ds !! k with
      | Some d => if fits footprint d then Some k else None
      | None => None
      end
  | None => None
  end.

(** Modelled from the spec: the single device chosen for a whole placement. *)
Definition place (ds : list device) (footprint : nat)
    (preferred : option nat) : option nat :=
  match preferred_fit ds footprint preferred with
  | Some k => Some k
  | None => fst <$> most_free footprint 0 ds
  end.

(** Modelled from the spec: the allocation that puts the whole footprint on
    device [k]. *)
Definition whole (n k footprint : nat) : allocation :=
  <[k := footprint]> (replicate n 0).

(** Modelled from the spec: the rounding remainder of a proportional split
    is handed out in device order, each device taking what it still has
    free. *)
Fixpoint top_up (left : nat) (frees base : list nat) : allocation :=
  match frees, base with
  | f :: frees', s :: base' =>
      let extra := Nat.min left (f - s) in
      (s + extra) :: top_up (left - extra) frees' base'
  | _, _ => []
  end.

(** Modelled from the spec: a sharded allocation, split across the devices
    proportionally to their free memory. *)
Definition split (footprint : nat) (ds : list device) : allocation :=
  let frees := free <$> ds in
  let all_free := sum_list frees in
  let base := (fun f => footprint * f / all_free) <$> frees in
  top_up (footprint - sum_list base) frees base.

(** Modelled from the spec: [reserve(footprint, preferred_device?)];
    [None] is InsufficientMemoryError. *)
Definition reserve (ds : list device) (footprint : nat)
    (preferred : option nat) (shardable : bool) : option allocation :=
  match place ds footprint preferred with
  | Some k => Some (whole (List.length ds) k footprint)
  | None =>
      if shardable && Nat.leb footprint (sum_list (free <$> ds))
      then Some (split footprint ds)
      else None
  end.

(** Modelled from the spec: the per-device allocated counters after an
    allocation is granted. *)
Definition grant (ds : list device) (a : allocation) : list device :=
  imap (fun i d => Device (total d) (allocated d + amount a i)) ds.

(** Modelled from the spec: [release(Allocation)]. *)
Definition release (ds : list device) (a : allocation) : list device :=
  imap (fun i d => Device (total d) (allocated d - amount a i)) ds.

End Gpu.

(** ** Model Instance Cache / Lifecycle Manager *)
Module Lifecycle.

(** Modelled from the spec: the states of a ModelInstance.  The manager's
    code is not part of the tree. *)
Inductive inst_state : Type :=
| Resolving | Downloading | Loading | Ready | Busy | Unloading | Failed.

(** Modelled from the spec: the error taxonomy of the error handling design. *)
Inductive error : Type :=
| InvalidIdentifier | NotFoundError | IntegrityError | DownloadFailed
| InsufficientMemoryError | ResourceExhaustedError | PlacementError
| InstanceStartError | InstanceBusyError | RequestTimeout.

(** Modelled from the spec: the CatalogEntry record. *)
Record catalog_entry : Type := Entry {
  repo : string;
  file : string;
  quantization : string;
  size_bytes : nat;
  url : string;
  local_path : option string
}.

(** Modelled from the spec: the ModelInstance record.  [attached] counts the
    callers waiting on a load in flight and [created] is the creation order
    that breaks eviction ties. *)
Record instance : Type := Instance {
  ident : string;
  entry : option catalog_entry;
  gpus : Gpu.allocation;
  footprint : nat;
  state : inst_state;
  last_access : nat;
  pinned : bool;
  refcount : nat;
  auto_unload : bool;
  attached : nat;
  created : nat
}.

(** Modelled from the spec: what the manager leaves to its collaborators,
    the footprint estimate of an artifact and whether its engine shards. *)
Record policy : Type := Policy {
  estimate : catalog_entry -> nat;
  shardable : catalog_entry -> bool
}.

(** Modelled from the spec: what the manager does, in the order it does it:
    how an [ensure_ready] call was answered, which state an instance
    entered, and how an instance left the cache. *)
Inductive event : Type :=
| Began (i : string)
| Joined (i : string)
| Hit (i : string)
| Phase (i : string) (s : inst_state)
| Evicted (i : string)
| Unloaded (i : string)
| Dropped (i : string) (e : error)
| Refused (i : string) (e : error).

(** Modelled from the spec: the instance table owned by the manager, the
    device counters it reserves from, the creation counter and the record of
    what happened. *)
Record manager : Type := Manager {
  table : gmap string instance;
  devices : list Gpu.device;
  seq : nat;
  history : list event
}.

(** Modelled from the spec: a manager with no instance over an inventory. *)
Definition init (ds : list Gpu.device) : manager := Manager ∅ ds 0 [].

(** Modelled from the spec: field updates of an instance. *)
Definition set_state (s : inst_state) (x : instance) : instance :=
  Instance (ident x) (entry x) (gpus x) (footprint x) s (last_access x)
           (pinned x) (refcount x) (auto_unload x) (attached x) (created x).

(** Modelled from the spec: an instance with its resolved catalog entry. *)
Definition set_entry (e : catalog_entry) (x : instance) : instance :=
  Instance (ident x) (Some e) (gpus x) (footprint x) (state x) (last_access x)
           (pinned x) (refcount x) (auto_unload x) (attached x) (created x).

(** Modelled from the spec: an instance with its reserved memory. *)
Definition set_gpus (a : Gpu.allocation) (need : nat) (x : instance) : instance :=
  Instance (ident x) (entry x) a need (state x) (last_access x)
           (pinned x) (refcount x) (auto_unload x) (attached x) (created x).

(** Modelled from the spec: an instance touched by a request at time [now]. *)
Definition touch (now : nat) (x : instance) : instance :=
  Instance (ident x) (entry x) (gpus x) (footprint x) (state x) now
           (pinned x) (S (refcount x)) (auto_unload x) (attached x) (created x).

(** Modelled from the spec: one more caller attached to a load in flight. *)
Definition attach (x : instance) : instance :=
  Instance (ident x) (entry x) (gpus x) (footprint x) (state x) (last_access x)
           (pinned x) (refcount x) (auto_unload x) (S (attached x)) (created x).

(** Modelled from the spec: on readiness every attached caller holds a
    reference. *)
Definition become_ready (x : instance) : instance :=
  Instance (ident x) (entry x) (gpus x) (footprint x) Ready (last_access x)
           (pinned x) (attached x) (auto_unload x) 0 (created x).

(** Modelled from the spec: [release(instance)] drops one reference; the
    instance is Ready again when none is left. *)
Definition unref (x : instance) : instance :=
  Instance (ident x) (entry x) (gpus x) (footprint x)
           (if Nat.eqb (refcount x) 1 then Ready else state x) (last_access x)
           (pinned x) (refcount x - 1) (auto_unload x) (attached x) (created x).

(** Modelled from the spec: the LRU index ranges over Ready and Busy
    instances. *)
Definition in_lru (x : instance) : bool :=
  match state x with
  | Ready | Busy => true
  | _ => false
  end.

(** Modelled from the spec: a load in flight. *)
Definition in_flight (x : instance) : bool :=
  match state x with
  | Resolving | Downloading | Loading => true
  | _ => false
  end.

(** Modelled from the spec: an instance holds its reservation from Loading
    until it leaves the cache. *)
Definition holds_memory (x : instance) : bool :=
  match state x with
  | Loading | Ready | Busy => true
  | _ => false
  end.

(** Modelled from the spec: an instance may only be evicted when its
    reference count is zero and it is not pinned. *)
Definition evictable (x : instance) : bool :=
  in_lru x && Nat.eqb (refcount x) 0 && negb (pinned x).

(** Modelled from the spec: eviction order, strict last-access order with
    ties broken by creation order, older first. *)
Definition lru_le (x y : instance) : Prop :=
  last_access x < last_access y \/
  (last_access x = last_access y /\ created x <= created y).

#[global] Instance lru_le_dec : RelDecision lru_le.
Proof. intros x y. unfold lru_le. apply _. Defined.

(** Modelled from the spec: the eviction candidates of a table, least
    recently used first. *)
Definition candidates (tbl : gmap string instance) : list instance :=
  merge_sort lru_le (filter (fun x => evictable x = true) (map_to_list tbl).*2).

(** Modelled from the spec: eviction of one instance, unload and release of
    its memory. *)
Definition evict (v : instance) (m : manager) : manager :=
  Manager (delete (ident v) (table m))
          (Gpu.release (devices m) (gpus v))
          (seq m)
          (history m ++ [Evicted (ident v)]).

(** Modelled from the spec: step 4 of [ensure_ready].  Reservation is tried
    and, while it fails, the next candidate is evicted, until enough memory
    is free or no candidate remains. *)
Fixpoint evict_loop (cands : list instance) (m : manager) (need : nat)
    (sh : bool) : option Gpu.allocation * manager :=
  match Gpu.reserve (devices m) need None sh with
  | Some a => (Some a, m)
  | None =>
      match cands with
      | [] => (None, m)
      | v :: rest => evict_loop rest (evict v m) need sh
      end
  end.

(** Modelled from the spec: reservation with eviction over the candidates
    of the current table. *)
Definition reserve_with_eviction (m : manager) (need : nat) (sh : bool)
    : option Gpu.allocation * manager :=
  evict_loop (candidates (table m)) m need sh.

(** Modelled from the spec: what drives the manager, the operations of its
    contract and the answers of its collaborators (resolver, download
    manager, inference engine). *)
Inductive label : Type :=
| Call (i : string) (auto_unload pinned : bool) (now : nat)
| Resolved (i : string) (e : catalog_entry)
| ResolveFailed (i : string) (err : error)
| Downloaded (i : string)
| DownloadAborted (i : string) (err : error)
| EngineReady (i : string)
| EngineFailed (i : string)
| Serve (i : string)
| Release (i : string)
| Unload (i : string).

(** Modelled from the spec: replace the table, or add to the history. *)
Definition with_table (tbl : gmap string instance) (m : manager) : manager :=
  Manager tbl (devices m) (seq m) (history m).

(** Modelled from the spec: the history extended by some events. *)
Definition log (es : list event) (m : manager) : manager :=
  Manager (table m) (devices m) (seq m) (history m ++ es).

(** Modelled from the spec: step 3 of [ensure_ready], a new instance in
    Resolving state with its first caller attached. *)
Definition create (i : string) (au pin : bool) (now : nat) (m : manager) : manager :=
  Manager (<[i := Instance i None [] 0 Resolving now pin 0 au 1 (seq m)]> (table m))
          (devices m)
          (S (seq m))
          (history m ++ [Began i; Phase i Resolving]).

(** Modelled from the spec: the instance for [i] when it is in state [s]. *)
Definition lookup_in (s : inst_state -> bool) (i : string) (m : manager)
    : option instance :=
  match table m !! i with
  | Some x => if s (state x) then Some x else None
  | None => None
  end.

(** Modelled from the spec: the instance leaves the cache and gives its
    memory back. *)
Definition teardown (x : instance) (m : manager) : manager :=
  Manager (delete (ident x) (table m))
          (if holds_memory x then Gpu.release (devices m) (gpus x) else devices m)
          (seq m)
          (history m).

(** Modelled from the spec: one atomic step of the manager; [None] when the
    step is not possible in the current state. *)
Definition step (p : policy) (m : manager) (l : label) : option manager :=
  match l with
  | Call i au pin now =>
      match table m !! i with
      | Some x =>
          if in_lru x then
            Some (log [Hit i] (with_table (<[i := touch now x]> (table m)) m))
          else if in_flight x then
            Some (log [Joined i] (with_table (<[i := attach x]> (table m)) m))
          else Some (create i au pin now m)
      | None => Some (create i au pin now m)
      end
  | Resolved i e =>
      x ← lookup_in (fun s => if s is Resolving then true else false) i m;
      Some (log [Phase i Downloading]
              (with_table (<[i := set_state Downloading (set_entry e x)]> (table m)) m))
  | ResolveFailed i err =>
      x ← lookup_in (fun s => if s is Resolving then true else false) i m;
      Some (log [Dropped i err] (teardown x m))
  | Downloaded i =>
      x ← lookup_in (fun s => if s is Downloading then true else false) i m;
      e ← entry x;
      let need := estimate p e in
      let m1 := log [Phase i Loading]
                  (with_table (<[i := set_gpus [] need (set_state Loading x)]> (table m)) m) in
      match reserve_with_eviction m1 need (shardable p e) with
      | (Some a, m2) =>
          Some (Manager (<[i := set_gpus a need (set_state Loading x)]> (table m2))
                        (Gpu.grant (devices m2) a) (seq m2) (history m2))
      | (None, m2) =>
          Some (log [Dropped i ResourceExhaustedError]
                  (with_table (delete i (table m2)) m2))
      end
  | DownloadAborted i err =>
      x ← lookup_in (fun s => if s is Downloading then true else false) i m;
      Some (log [Dropped i err] (teardown x m))
  | EngineReady i =>
      x ← lookup_in (fun s => if s is Loading then true else false) i m;
      Some (log [Phase i Ready] (with_table (<[i := become_ready x]> (table m)) m))
  | EngineFailed i =>
      x ← lookup_in (fun s => if s is Loading then true else false) i m;
      Some (log [Dropped i InstanceStartError] (teardown x m))
  | Serve i =>
      x ← lookup_in (fun s => if s is Ready then true else false) i m;
      if Nat.ltb 0 (refcount x) then
        Some (log [Phase i Busy] (with_table (<[i := set_state Busy x]> (table m)) m))
      else None
  | Release i =>
      x ← lookup_in (fun s => match s with Ready | Busy => true | _ => false end) i m;
      if Nat.ltb 0 (refcount x) then
        Some (with_table (<[i := unref x]> (table m)) m)
      else None
  | Unload i =>
      x ← lookup_in (fun s => match s with Ready | Busy => true | _ => false end) i m;
      if Nat.eqb (refcount x) 0 then
        Some (log [Phase i Unloading; Unloaded i] (teardown x m))
      else Some (log [Refused i InstanceBusyError] m)
  end.

(** Modelled from the spec: a run of the manager over a schedule of steps,
    in any interleaving the callers and collaborators produce. *)
Fixpoint run (p : policy) (m : manager) (ls : list label) : option manager :=
  match ls with
  | [] => Some m
  | l :: ls' =>
      match step p m l with
      | Some m' => run p m' ls'
      | None => None
      end
  end.

(** Modelled from the spec: memory of device [d] taken by the instances of
    a table that satisfy [sel]. *)
Definition usage (sel : instance -> bool) (tbl : gmap string instance)
    (d : nat) : nat :=
  sum_list_with (fun kv : string * instance =>
                   if sel kv.2 then Gpu.amount (gpus kv.2) d else 0)
                (map_to_list tbl).


(** Modelled from the spec: the manager's bookkeeping is consistent when
    every instance is filed under its identifier and the allocated counter
    of every device is the memory held on it by the instances of the table,
    within the device's capacity. *)
Definition consistent (m : manager) : Prop :=
  (forall i x, table m !! i = Some x -> ident x = i) /\
  (forall d dev, devices m !! d = Some dev ->
     Gpu.allocated dev = usage holds_memory (table m) d /\
     Gpu.allocated dev <= Gpu.total dev).

(** Modelled from the spec: an inventory of devices of the given capacities
    with nothing allocated. *)
Definition inventory (totals : list nat) : list Gpu.device :=
  (fun t => Gpu.Device t 0) <$> totals.

(** Modelled from the spec: the manager after the instances [vs] were
    evicted, in that order. *)
Definition evict_all (vs : list instance) (m : manager) : manager :=
  foldl (fun m v => evict v m) m vs.

(** Modelled from the spec: the identifiers evicted in a stretch of
    history, in order. *)
Definition evictions (h : list event) : list string :=
  omap (fun e => match e with Evicted i => Some i | _ => None end) h.

(** Modelled from the spec: a policy that takes the declared size of the
    artifact as its footprint and never shards, for the scenarios below. *)
Definition by_size : policy := Policy size_bytes (fun _ => false).

(** Modelled from the spec: a catalog entry of a given declared size. *)
Definition artifact (name : string) (size : nat) : catalog_entry :=
  Entry "org/repo"%string name "Q4_K_M"%string size "hub"%string None.

(** Modelled from the spec: one caller loading an instance, serving a
    request on it and releasing it. *)
Definition load_and_release (i : string) (size now : nat) (pin : bool)
    : list label :=
  [Call i true pin now; Resolved i (artifact i size); Downloaded i;
   EngineReady i; Serve i; Release i].

(** Modelled from the spec: the eviction scenario of the testable
    properties.  Three instances fill a device, the middle one pinned; a
    fourth load then needs the room of two. *)
Definition pinned_middle : list label :=
  (load_and_release "A" 10 1 false ++ load_and_release "B" 10 2 true
   ++ load_and_release "C" 10 3 false
   ++ [Call "D"%string true false 4; Resolved "D"%string (artifact "D" 20)])%list.

(** Modelled from the spec: three callers asking for the same identifier
    while its load is in flight. *)
Definition three_callers : list label :=
  [Call "A"%string true false 1; Call "A"%string true false 2;
   Resolved "A"%string (artifact "A" 10); Call "A"%string false false 3;
   Downloaded "A"%string; EngineReady "A"%string].

(** Modelled from the spec: the manager just before the fourth load of the
    scenario reserves its memory, and just after. *)
Definition before_fourth : manager :=
  Eval vm_compute in
    default (init []) (run by_size (init (inventory [30])) pinned_middle).

(** Modelled from the spec: the manager once the fourth load has its
    memory. *)
Definition after_fourth : manager :=
  Eval vm_compute in
    default (init []) (step by_size before_fourth (Downloaded "D"%string)).











(** Modelled from the spec: the manager reached by the three callers. *)
Definition after_three_callers : manager :=
  Eval vm_compute in
    default (init []) (run by_size (init (inventory [30])) three_callers).



End Lifecycle.

(** ** HTTP bodies *)
Module Json.

(** Modelled from the spec: the JSON values the HTTP boundary exchanges.
    The server's code is not part of the tree; the client scripts read its
    responses with [response.json()] and [data.get(key)]. *)
#[local] Unset Elimination Schemes.
Inductive value : Type :=
| Null
| Bool (b : bool)
| Num (n : nat)
| Str (s : string)
| Arr (items : list value)
| Obj (fields : list (string * value)).
#[local] Set Elimination Schemes.

(** [data.get(key)] on a JSON object; [None] stands for Python's [None]. *)
Fixpoint assoc (key : string) (fields : list (string * value)) : option value :=
  match fields with
  | [] => None
  | (k, v) :: rest => if String.eqb key k then Some v else assoc key rest
  end.

(** [key in data] *)
Definition has (key : string) (v : value) : bool :=
  match v with
  | Obj fields => if assoc key fields is Some _ then true else false
  | _ => false
  end.

(** [data.get(key)] *)
Definition get (key : string) (v : value) : option value :=
  match v with
  | Obj fields => assoc key fields
  | _ => None
  end.

(** Modelled from the spec: a response of the HTTP boundary, status code
    and JSON body. *)
Record response : Type := Response { status_code : nat; body : value }.

End Json.

(** ** Download Manager *)
Module Download.

(** Modelled from the spec: the status of a DownloadJob.  The manager's
    code is not part of the tree. *)
Inductive status : Type :=
| Queued | InProgress | Verifying | Complete | Failed | Canceled.

(** Modelled from the spec: the DownloadJob record; [interested] counts the
    callers attached to the job. *)
Record job : Type := Job {
  repo : string;
  filename : string;
  dest : string;
  transferred : nat;
  total_bytes : nat;
  stat : status;
  failure : option Lifecycle.error;
  interested : nat
}.

(** Modelled from the spec: the jobs by download id, the active job of
    each destination path, the id counter and the configured maximum of
    simultaneous transfers. *)
Record pool : Type := Pool {
  jobs : gmap nat job;
  active_at : gmap string nat;
  next_id : nat;
  max_transfers : nat
}.

(** Modelled from the spec: an empty pool. *)
Definition empty (max : nat) : pool := Pool ∅ ∅ 0 max.

(** Modelled from the spec: a job is active until it is Complete, Failed
    or Canceled. *)
Definition active (s : status) : bool :=
  match s with
  | Queued | InProgress | Verifying => true
  | _ => false
  end.

(** Modelled from the spec: a job that holds one of the transfer slots. *)
Definition transferring (s : status) : bool :=
  match s with
  | InProgress | Verifying => true
  | _ => false
  end.

(** Modelled from the spec: the number of transfers in progress. *)
Definition running (p : pool) : nat :=
  List.length (List.filter (fun kv : nat * job => transferring (stat kv.2))
                 (map_to_list (jobs p))).

(** Modelled from the spec: the destination path of an artifact. *)
Definition path_of (destination filename : string) : string :=
  (destination +:+ "/" +:+ filename)%string.

(** Modelled from the spec: field updates of a job. *)
Definition set_stat (s : status) (j : job) : job :=
  Job (repo j) (filename j) (dest j) (transferred j) (total_bytes j) s
      (failure j) (interested j).

(** Modelled from the spec: a failed job keeps its error detail. *)
Definition fail_with (e : Lifecycle.error) (j : job) : job :=
  Job (repo j) (filename j) (dest j) (transferred j) (total_bytes j) Failed
      (Some e) (interested j).

(** Modelled from the spec: bytes received on a transfer. *)
Definition receive (n : nat) (j : job) : job :=
  Job (repo j) (filename j) (dest j)
      (Nat.min (total_bytes j) (transferred j + n)) (total_bytes j) (stat j)
      (failure j) (interested j).

(** Modelled from the spec: one more or one fewer interested caller. *)
Definition set_interested (n : nat) (j : job) : job :=
  Job (repo j) (filename j) (dest j) (transferred j) (total_bytes j) (stat j)
      (failure j) n.

(** Modelled from the spec: create or join a job for a destination path.
    A caller for a path that has an active job attaches to it; otherwise a
    job is created, in progress when a transfer slot is free and queued
    when none is. *)
Definition submit (r f destination : string) (size : nat) (p : pool) : nat * pool :=
  let path := path_of destination f in
  match active_at p !! path with
  | Some id =>
      (id, Pool (alter (fun j => set_interested (S (interested j)) j) id (jobs p))
                (active_at p) (next_id p) (max_transfers p))
  | None =>
      let id := next_id p in
      let s := if Nat.ltb (running p) (max_transfers p) then InProgress else Queued in
      (id, Pool (<[id := Job r f path 0 size s None 1]> (jobs p))
                (<[path := id]> (active_at p))
                (S id) (max_transfers p))
  end.

(** Modelled from the spec: the queued job submitted first, if any. *)
Definition first_queued (p : pool) : option nat :=
  List.find (fun id => if jobs p !! id is Some j
                       then (if stat j is Queued then true else false)
                       else false)
            (List.seq 0 (next_id p)).

(** Modelled from the spec: a freed transfer slot goes to the queued job
    submitted first. *)
Definition promote (p : pool) : pool :=
  if Nat.ltb (running p) (max_transfers p) then
    match first_queued p with
    | Some id =>
        Pool (alter (set_stat InProgress) id (jobs p)) (active_at p)
             (next_id p) (max_transfers p)
    | None => p
    end
  else p.

(** Modelled from the spec: a job leaves the active jobs of its path. *)
Definition retire (id : nat) (j : job) (p : pool) : pool :=
  promote (Pool (<[id := j]> (jobs p)) (delete (dest j) (active_at p))
                (next_id p) (max_transfers p)).

(** Modelled from the spec: what happens to the jobs of a pool: requests of
    callers and events of the transfers. *)
Inductive label : Type :=
| Submit (r f destination : string) (size : nat)
| Bytes (id n : nat)
| Transferred (id : nat)
| Verified (id : nat) (intact : bool)
| Broken (id : nat)
| Cancel (id : nat).

(** Modelled from the spec: one step of the download manager.  A step that
    does not apply to the job's status leaves the pool as it is. *)
Definition step (p : pool) (l : label) : pool :=
  match l with
  | Submit r f destination size => snd (submit r f destination size p)
  | Bytes id n =>
      match jobs p !! id with
      | Some j =>
          if stat j is InProgress
          then Pool (<[id := receive n j]> (jobs p)) (active_at p)
                    (next_id p) (max_transfers p)
          else p
      | None => p
      end
  | Transferred id =>
      match jobs p !! id with
      | Some j =>
          if stat j is InProgress
          then Pool (<[id := set_stat Verifying j]> (jobs p)) (active_at p)
                    (next_id p) (max_transfers p)
          else p
      | None => p
      end
  | Verified id intact =>
      match jobs p !! id with
      | Some j =>
          if stat j is Verifying
          then retire id (if intact then set_stat Complete j
                          else fail_with Lifecycle.IntegrityError j) p
          else p
      | None => p
      end
  | Broken id =>
      match jobs p !! id with
      | Some j =>
          if active (stat j)
          then retire id (fail_with Lifecycle.DownloadFailed j) p
          else p
      | None => p
      end
  | Cancel id =>
      match jobs p !! id with
      | Some j =>
          if active (stat j) then
            if Nat.leb (interested j) 1
            then retire id (set_interested 0 (set_stat Canceled j)) p
            else Pool (<[id := set_interested (interested j - 1) j]> (jobs p))
                      (active_at p) (next_id p) (max_transfers p)
          else p
      | None => p
      end
  end.

(** Modelled from the spec: a run of the download manager. *)
Definition run (p : pool) (ls : list label) : pool := foldl step p ls.

(** Modelled from the spec: the status as the boundary reports it. *)
Definition status_name (s : status) : string :=
  match s with
  | Queued => "queued"
  | InProgress => "downloading"
  | Verifying => "verifying"
  | Complete => "completed"
  | Failed => "failed"
  | Canceled => "cancelled"
  end%string.

(** Modelled from the spec: progress of a job, in percent. *)
Definition percent (j : job) : nat :=
  if Nat.eqb (total_bytes j) 0 then 0 else transferred j * 100 / total_bytes j.

(** Modelled from the spec: the body of [POST /models/download]. *)
Definition request_fields (b : Json.value) : option (string * string * string) :=
  match Json.get "repo" b, Json.get "filename" b, Json.get "destination" b with
  | Some (Json.Str r), Some (Json.Str f), Some (Json.Str d) => Some (r, f, d)
  | _, _, _ => None
  end.

(** Modelled from the spec: [POST /models/download] with
    [{repo, filename, destination}] answers [{downloadId}].  The size of the
    artifact is what the registry declares for it. *)
Definition post_download (size_of : string -> string -> nat) (b : Json.value)
    (p : pool) : Json.response * pool :=
  match request_fields b with
  | Some (r, f, d) =>
      let '(id, p') := submit r f d (size_of r f) p in
      (Json.Response 200 (Json.Obj [("downloadId"%string, Json.Num id)]), p')
  | None =>
      (Json.Response 400
         (Json.Obj [("error"%string, Json.Str "InvalidRequest")]), p)
  end.

(** Modelled from the spec: [GET /models/downloads/{id}] answers
    [{status, progress}]. *)
Definition get_download (id : nat) (p : pool) : Json.response :=
  match jobs p !! id with
  | Some j =>
      Json.Response 200
        (Json.Obj [("status"%string, Json.Str (status_name (stat j)));
                   ("progress"%string, Json.Num (percent j))])
  | None =>
      Json.Response 404 (Json.Obj [("error"%string, Json.Str "NotFoundError")])
  end.

(** Modelled from the spec: the request of [test_model_download]. *)
Definition qwen_request : Json.value :=
  Json.Obj [("repo", Json.Str "Qwen/Qwen2.5-0.5B-Instruct-GGUF");
            ("filename", Json.Str "qwen2.5-0.5b-instruct-q4_k_m.gguf");
            ("destination", Json.Str "/downloads")]%string.

(** Modelled from the spec: job [id] of a table of jobs is the job for the
    destination [path]. *)
Definition filed_in (js : gmap nat job) (id : nat) (path : string) : Prop :=
  exists j, js !! id = Some j /\ dest j = path.

(** Modelled from the spec: the active job of every path is a job of the
    pool for that path. *)
Definition indexed (p : pool) : Prop :=
  forall path id, active_at p !! path = Some id -> filed_in (jobs p) id path.

(** Modelled from the spec: download ids are handed out in order, so the
    next one is unused. *)
Definition in_order (p : pool) : Prop :=
  forall id j, jobs p !! id = Some j -> id < next_id p.

End Download.

(** ** Model Catalog & Resolver *)
Module Resolver.

(** Modelled from the spec: what is configured for identifiers, the length
    bound and the allowed characters, and the lifetime of a cached
    resolution.  The resolver's code is not part of the tree. *)
Record config : Type := Config {
  max_length : nat;
  allowed : ascii -> bool;
  ttl : nat
}.

(** Modelled from the spec: every character of the identifier is allowed. *)
Fixpoint all_allowed (ok : ascii -> bool) (s : string) : bool :=
  match s with
  | EmptyString => true
  | String c s' => ok c && all_allowed ok s'
  end.

(** Modelled from the spec: the canonical form [repo[:file]], cut at the
    first colon. *)
Fixpoint parse (s : string) : string * option string :=
  match s with
  | EmptyString => (EmptyString, None)
  | String c s' =>
      if Ascii.eqb c ":" then (EmptyString, Some s')
      else let '(r, f) := parse s' in (String c r, f)
  end.

(** Modelled from the spec: both parts of [repo[:file]] are there. *)
Definition shaped (s : string) : bool :=
  match parse s with
  | (EmptyString, _) => false
  | (_, Some EmptyString) => false
  | _ => true
  end.

(** Modelled from the spec: an identifier is malformed when it is empty,
    over the configured length, contains a disallowed character, or is not
    of the form [repo[:file]]. *)
Definition well_formed (c : config) (s : string) : bool :=
  negb (String.eqb s "") && Nat.leb (String.length s) (max_length c)
  && all_allowed (allowed c) s && shaped s.

(** Modelled from the spec: the three ways an identifier is malformed that
    the resolver's contract names. *)
Definition malformed (c : config) (s : string) : Prop :=
  s = EmptyString \/ max_length c < String.length s \/
  exists ch, In ch (list_ascii_of_string s) /\ allowed c ch = false.

(** Modelled from the spec: what a resolution can touch outside the
    process: the remote registry, the local file system, the network. *)
Inductive io : Type :=
| RegistryLookup (repo : string) (file : option string)
| RegistrySearch (query : string) (limit : nat)
| FileProbe (path : string)
| Transfer (url : string).

(** Modelled from the spec: the remote registry, as what it answers for a
    repository, an optional file and the quantization to prefer when the
    file is left out. *)
Definition registry : Type :=
  string -> option string -> string -> option Lifecycle.catalog_entry.

(** Modelled from the spec: the local state of the resolver, the cached
    resolutions with their expiry and the quantization last used for each
    repository. *)
Record memo : Type := Memo {
  cached : gmap string (Lifecycle.catalog_entry * nat);
  used : gmap string string
}.

(** Modelled from the spec: the documented default quantization. *)
Definition default_quantization : string := "Q4_K_M".

(** Modelled from the spec: [resolve(identifier)].  Validation comes first;
    a cached resolution that has not expired is answered without leaving
    the process; otherwise the registry is asked, once. *)
Definition resolve (c : config) (reg : registry) (k : memo) (now : nat)
    (id : string)
    : (Lifecycle.catalog_entry + Lifecycle.error) * memo * list io :=
  if negb (well_formed c id) then (inr Lifecycle.InvalidIdentifier, k, [])
  else
    match cached k !! id with
    | Some (e, expiry) =>
        if Nat.ltb now expiry then (inl e, k, [])
        else
          let '(r, f) := parse id in
          let q := default default_quantization (used k !! r) in
          match reg r f q with
          | Some e' =>
              (inl e',
               Memo (<[id := (e', now + ttl c)]> (cached k))
                    (<[r := Lifecycle.quantization e']> (used k)),
               [RegistryLookup r f])
          | None => (inr Lifecycle.NotFoundError, k, [RegistryLookup r f])
          end
    | None =>
        let '(r, f) := parse id in
        let q := default default_quantization (used k !! r) in
        match reg r f q with
        | Some e' =>
            (inl e',
             Memo (<[id := (e', now + ttl c)]> (cached k))
                  (<[r := Lifecycle.quantization e']> (used k)),
             [RegistryLookup r f])
        | None => (inr Lifecycle.NotFoundError, k, [RegistryLookup r f])
        end
    end.

End Resolver.

(** ** HTTP boundary *)
Module Api.

(** Modelled from the spec: the stable kind string of an error. *)
Definition kind_name (e : Lifecycle.error) : string :=
  match e with
  | Lifecycle.InvalidIdentifier => "InvalidIdentifier"
  | Lifecycle.NotFoundError => "NotFoundError"
  | Lifecycle.IntegrityError => "IntegrityError"
  | Lifecycle.DownloadFailed => "DownloadFailed"
  | Lifecycle.InsufficientMemoryError => "InsufficientMemoryError"
  | Lifecycle.ResourceExhaustedError => "ResourceExhaustedError"
  | Lifecycle.PlacementError => "PlacementError"
  | Lifecycle.InstanceStartError => "InstanceStartError"
  | Lifecycle.InstanceBusyError => "InstanceBusyError"
  | Lifecycle.RequestTimeout => "RequestTimeout"
  end%string.

(** Modelled from the spec: exit status of an error: the caller's mistakes
    are 4xx, exhausted resources and failed loads are 5xx or 409. *)
Definition status_of (e : Lifecycle.error) : nat :=
  match e with
  | Lifecycle.InvalidIdentifier => 400
  | Lifecycle.NotFoundError => 404
  | Lifecycle.InstanceBusyError => 409
  | Lifecycle.RequestTimeout => 504
  | Lifecycle.ResourceExhaustedError | Lifecycle.InsufficientMemoryError => 503
  | _ => 500
  end.

(** Modelled from the spec: an error response carries a machine-readable
    kind and a human-readable message. *)
Definition failure (e : Lifecycle.error) (message : string) : Json.response :=
  Json.Response (status_of e)
    (Json.Obj [("error"%string,
                Json.Obj [("kind"%string, Json.Str (kind_name e));
                          ("message"%string, Json.Str message)])]).

(** Modelled from the spec: the state behind the boundary. *)
Record server : Type := Server {
  settings : Resolver.config;
  policy : Lifecycle.policy;
  manager : Lifecycle.manager;
  memo : Resolver.memo
}.

(** Modelled from the spec: what a handler gives back: the response, the
    state it leaves and what it touched outside the process on the way. *)
Definition outcome : Type := Json.response * server * list Resolver.io.

(** Modelled from the spec: the manager of a server after a step, left as
    it is when the step does not apply. *)
Definition advance (l : Lifecycle.label) (s : server) : server :=
  match Lifecycle.step (policy s) (manager s) l with
  | Some m => Server (settings s) (policy s) m (memo s)
  | None => s
  end.

(** Modelled from the spec: the front of [ensure_ready] as a request
    drives it: the identifier is validated at the boundary; the call
    reaches the manager; when it began a new instance the resolver runs and
    its answer is handed to the manager. *)
Definition begin_load (reg : Resolver.registry) (now : nat) (id : string)
    (au pin : bool) (s : server) : outcome :=
  if negb (Resolver.well_formed (settings s) id) then
    (failure Lifecycle.InvalidIdentifier "malformed model identifier", s, [])
  else
    let fresh :=
      match Lifecycle.table (manager s) !! id with
      | Some x => negb (Lifecycle.in_lru x || Lifecycle.in_flight x)
      | None => true
      end in
    let s1 := advance (Lifecycle.Call id au pin now) s in
    if fresh then
      match Resolver.resolve (settings s) reg (memo s1) now id with
      | (inl e, k, trace) =>
          let s2 := advance (Lifecycle.Resolved id e)
                      (Server (settings s1) (policy s1) (manager s1) k) in
          (Json.Response 200
             (Json.Obj [("model"%string, Json.Str id);
                        ("state"%string, Json.Str "downloading")]),
           s2, trace ++ [Resolver.FileProbe (Lifecycle.file e)])
      | (inr err, k, trace) =>
          let s2 := advance (Lifecycle.ResolveFailed id err)
                      (Server (settings s1) (policy s1) (manager s1) k) in
          (failure err "model could not be resolved", s2, trace)
      end
    else
      (Json.Response 200
         (Json.Obj [("model"%string, Json.Str id);
                    ("state"%string, Json.Str "attached")]),
       s1, []).

(** Modelled from the spec: a string field of a request body. *)
Definition text (key : string) (b : Json.value) : option string :=
  match Json.get key b with
  | Some (Json.Str s) => Some s
  | _ => None
  end.

(** Modelled from the spec: a boolean field of a request body, false when
    absent. *)
Definition flag (key : string) (b : Json.value) : bool :=
  match Json.get key b with
  | Some (Json.Bool v) => v
  | _ => false
  end.

(** Modelled from the spec: [POST /models/load] with
    [{model_id, auto_unload}]. *)
Definition post_load (reg : Resolver.registry) (now : nat) (b : Json.value)
    (s : server) : outcome :=
  match text "model_id" b with
  | Some id => begin_load reg now id (flag "auto_unload" b) false s
  | None =>
      (failure Lifecycle.InvalidIdentifier "model_id is missing", s, [])
  end.

(** Modelled from the spec: [POST /chat/completions], up to the point
    where the instance is being made ready. *)
Definition post_chat (reg : Resolver.registry) (now : nat) (b : Json.value)
    (s : server) : outcome :=
  match text "model" b with
  | Some id => begin_load reg now id true false s
  | None => (failure Lifecycle.InvalidIdentifier "model is missing", s, [])
  end.

(** Modelled from the spec: [GET /models/search?q=&limit=], delegated to
    the external search; an empty query is rejected at the boundary. *)
Definition get_search (find : string -> nat -> Json.value) (q : string)
    (limit : nat) (s : server) : outcome :=
  if String.eqb q "" then
    (failure Lifecycle.InvalidIdentifier "empty search query", s, [])
  else
    (Json.Response 200 (Json.Obj [("models"%string, find q limit)]), s,
     [Resolver.RegistrySearch q limit]).

(** Modelled from the spec: a request turned away at the boundary: a 4xx
    status, an error body of kind [InvalidIdentifier] with a message, the
    server as it was and nothing touched outside the process. *)
Definition rejected (s : server) (o : outcome) : Prop :=
  let '(r, s', trace) := o in
  400 <= Json.status_code r < 500 /\
  (exists message,
     Json.get "error" (Json.body r)
     = Some (Json.Obj [("kind"%string, Json.Str "InvalidIdentifier");
                       ("message"%string, Json.Str message)])) /\
  s' = s /\ trace = [].

(** Modelled from the spec: letters, digits and the punctuation of
    repository and file names. *)
Definition name_char (c : ascii) : bool :=
  let n := nat_of_ascii c in
  (Nat.leb 48 n && Nat.leb n 58) || (Nat.leb 65 n && Nat.leb n 90)
  || (Nat.leb 97 n && Nat.leb n 122)
  || Nat.eqb n 45 || Nat.eqb n 46 || Nat.eqb n 47 || Nat.eqb n 95.

(** Modelled from the spec: a server with nothing loaded, identifiers of at
    most 256 characters. *)
Definition fresh_server : server :=
  Server (Resolver.Config 256 name_char 300) Lifecycle.by_size
         (Lifecycle.init (Lifecycle.inventory [30]))
         (Resolver.Memo ∅ ∅).

(** Modelled from the spec: a registry that knows every repository. *)
Definition open_registry : Resolver.registry :=
  fun r f q => Some (Lifecycle.Entry r (default "model.gguf"%string f) q 10
                       r None).

(** Modelled from the spec: the requests of [test_edge_cases]. *)
Definition special_chars : string :=
  "!!!invalid-model-id-with-special-chars!!!".

Definition load_special : Json.value :=
  Json.Obj [("model_id", Json.Str special_chars);
            ("auto_unload", Json.Bool false)]%string.

Definition long_model : string :=
  (Py.repeat "a" 1000 +:+ ":model.gguf")%string.

Definition chat_long : Json.value :=
  Json.Obj [("model", Json.Str long_model);
            ("messages",
             Json.Arr [Json.Obj [("role", Json.Str "user");
                                 ("content", Json.Str "test")]]);
            ("max_tokens", Json.Num 1)]%string.

End Api.

(** ** Python operations on decoded JSON *)
Module PyJson.

(** What an expression of the client scripts can raise on a decoded value;
    [json.JSONDecodeError] is kept apart, as the [None] of the decoder. *)
Inductive exn : Type := TypeError | KeyError | IndexError | AttributeError.

(** The outcome of evaluating an expression. *)
Inductive result (A : Type) : Type :=
| Returned (a : A)
| Raised (e : exn).

Arguments Returned {A} a.
Arguments Raised {A} e.

#[global] Instance result_ret : MRet result := fun A a => Returned a.

#[global] Instance result_bind : MBind result :=
  fun A B f m => match m with Returned a => f a | Raised e => Raised e end.

(** [needle in s] on two [str]. *)
Fixpoint substring_of (needle s : string) : bool :=
  String.prefix needle s ||
  match s with
  | EmptyString => false
  | String _ s' => substring_of needle s'
  end.

(** [v == key] for a [str] key. *)
Definition is_str (key : string) (v : Json.value) : bool :=
  match v with
  | Json.Str s => String.eqb s key
  | _ => false
  end.

(** [key in v]: membership of a key in a dict, of an element in a list, of a
    substring in a str; [None], booleans and numbers are not iterable. *)
Definition contains (key : string) (v : Json.value) : result bool :=
  match v with
  | Json.Obj fields =>
      Returned (if Json.assoc key fields is Some _ then true else false)
  | Json.Arr items => Returned (existsb (is_str key) items)
  | Json.Str s => Returned (substring_of key s)
  | _ => Raised TypeError
  end.

(** [len(v)] *)
Definition len (v : Json.value) : result nat :=
  match v with
  | Json.Obj fields => Returned (List.length fields)
  | Json.Arr items => Returned (List.length items)
  | Json.Str s => Returned (String.length s)
  | _ => Raised TypeError
  end.

(** [v[key]] for a [str] key: only a dict can be indexed by it. *)
Definition getitem (key : string) (v : Json.value) : result Json.value :=
  match v with
  | Json.Obj fields =>
      match Json.assoc key fields with
      | Some x => Returned x
      | None => Raised KeyError
      end
  | _ => Raised TypeError
  end.

(** [v[0]]: the first element of a list, the first character of a str; a
    dict decoded from JSON has no key [0]. *)
Definition first (v : Json.value) : result Json.value :=
  match v with
  | Json.Arr (x :: _) => Returned x
  | Json.Arr [] => Raised IndexError
  | Json.Str (String c _) => Returned (Json.Str (String c EmptyString))
  | Json.Str EmptyString => Raised IndexError
  | Json.Obj _ => Raised KeyError
  | _ => Raised TypeError
  end.

(** [v.get(key, fallback)]: only a dict has the method. *)
Definition get (key : string) (fallback v : Json.value) : result Json.value :=
  match v with
  | Json.Obj fields => Returned (default fallback (Json.assoc key fields))
  | _ => Raised AttributeError
  end.

(** [s + v] for a str [s]. *)
Definition concat (s : string) (v : Json.value) : result string :=
  match v with
  | Json.Str t => Returned (s +:+ t)
  | _ => Raised TypeError
  end.

End PyJson.

(** ** test_hard_task.py: the reader of a streamed completion *)
Module HardTask.

Import PyJson.

(** The two variables the loop of [test_streaming_hard_task] updates. *)
Record reading : Type := Reading {
  full_response : string;
  chunk_count : nat
}.

(** The body of the [try], after [json.loads]: the content of the first
    choice's delta is appended to [full_response].  What is printed is that
    same content. *)
Definition take (data : Json.value) (full : string) : result string :=
  has ← contains "choices" data;
  if (has : bool) then
    choices ← getitem "choices" data;
    n ← len choices;
    if Nat.ltb 0 n then
      choice ← first choices;
      delta ← get "delta" (Json.Obj []) choice;
      c ← contains "content" delta;
      if (c : bool) then
        content ← getitem "content" delta;
        concat full content
      else mret full
    else mret full
  else mret full.

(** How one turn of the [for] loop ends. *)
Inductive flow : Type :=
| Next (r : reading)
| Break (r : reading).

(** One turn of the loop on a line of [response.iter_lines()], already
    decoded to text.  [loads] is [json.loads], [None] standing for
    [json.JSONDecodeError], which the loop swallows. *)
Definition on_line (loads : string -> option Json.value) (line : string)
    (r : reading) : result flow :=
  if String.eqb line "" then mret (Next r)
  else
    let r1 := Reading (full_response r) (S (chunk_count r)) in
    if Py.startswith line "data: " then
      let data_str := Py.slice_from 6 line in
      if String.eqb data_str "[DONE]" then mret (Break r1)
      else
        match loads data_str with
        | Some data =>
            full ← take data (full_response r1);
            mret (Next (Reading full (chunk_count r1)))
        | None => mret (Next r1)
        end
    else mret (Next r1).

(** The [for] loop. *)
Fixpoint read_lines (loads : string -> option Json.value)
    (lines : list string) (r : reading) : result reading :=
  match lines with
  | [] => Returned r
  | line :: rest =>
      match on_line loads line r with
      | Returned (Next r') => read_lines loads rest r'
      | Returned (Break r') => Returned r'
      | Raised e => Raised e
      end
  end.

(** The loop from its initial values, [full_response = ""] and
    [chunk_count = 0]. *)
Definition read_stream (loads : string -> option Json.value)
    (lines : list string) : result reading :=
  read_lines loads lines (Reading "" 0).

(** The line that ends a stream. *)
Definition done_line : string := "data: [DONE]".

(** [if line:] *)
Definition nonempty (line : string) : bool := negb (String.eqb line "").

(** A decoded chunk whose first choice carries the text [t] in its delta:
    [data['choices'][0]['delta']['content'] == t]. *)
Definition delta_of (data : Json.value) (t : string) : Prop :=
  exists fields choice others delta,
    data = Json.Obj fields
    /\ Json.assoc "choices" fields = Some (Json.Arr (Json.Obj choice :: others))
    /\ Json.assoc "delta" choice = Some (Json.Obj delta)
    /\ Json.assoc "content" delta = Some (Json.Str t).

(** The same with a content that is not a string: [null], a boolean or a
    number. *)
Definition scalar (v : Json.value) : Prop :=
  v = Json.Null \/ (exists b, v = Json.Bool b) \/ (exists n, v = Json.Num n).

Definition delta_without_text (data : Json.value) : Prop :=
  exists fields choice others delta v,
    data = Json.Obj fields
    /\ Json.assoc "choices" fields = Some (Json.Arr (Json.Obj choice :: others))
    /\ Json.assoc "delta" choice = Some (Json.Obj delta)
    /\ Json.assoc "content" delta = Some v /\ scalar v.

(** A decoder that knows two payloads: a chunk with the text [Hi] and the
    JSON [null]. *)
Definition hi_chunk : Json.value :=
  Json.Obj [("choices",
             Json.Arr [Json.Obj [("index", Json.Num 0);
                                 ("delta", Json.Obj [("content", Json.Str "Hi")])]])].

Definition toy_loads (s : string) : option Json.value :=
  if String.eqb s "hi" then Some hi_chunk
  else if String.eqb s "null" then Some Json.Null
  else None.

End HardTask.

(** ** More Python strings *)
Module PyStr.

Local Open Scope string_scope.

(** One character of [s.split()] from the right: the run of non-space
    characters that starts the text, and the words after it. *)
Definition scan_step (c : ascii) (acc : string * list string)
    : string * list string :=
  let '(w, ws) := acc in
  if Py.isspace c then
    (EmptyString, match w with EmptyString => ws | _ => w :: ws end)
  else (String c w, ws).

Fixpoint scan (s : string) : string * list string :=
  match s with
  | EmptyString => (EmptyString, [])
  | String c s' => scan_step c (scan s')
  end.

(** [s.split()]: the words of [s], cut at runs of whitespace; no word is
    empty.  Whitespace is what [Py.isspace] knows, the ASCII range. *)
Definition split_whitespace (s : string) : list string :=
  match scan s with
  | (EmptyString, ws) => ws
  | (w, ws) => w :: ws
  end.


(** A text that is empty or begins with a character that is not
    whitespace. *)
Definition headed (s : string) : Prop :=
  match s with
  | EmptyString => True
  | String c _ => Py.isspace c = false
  end.

End PyStr.

(** ** release.py: what the release notes say about the build *)
Module ReleaseInfo.

Import Script.
Local Open Scope string_scope.

(** [get_git_commit()]: [check=True] turns a non-zero exit into
    [CalledProcessError], and the bare [except] turns every exception into
    ["unknown"]. *)
Definition get_git_commit : script string :=
  r ← run ["git"; "rev-parse"; "HEAD"];
  match r with
  | Completed rc out =>
      if Z.eqb rc 0 then mret (Py.slice_to 7 (Py.strip out))
      else mret "unknown"
  | Raised => mret "unknown"
  end.

(** [get_go_version()]: [split()[2]] raises [IndexError] on fewer than
    three words, which the bare [except] catches as well. *)
Definition get_go_version : script string :=
  r ← run ["go"; "version"];
  match r with
  | Completed rc out =>
      if Z.eqb rc 0 then
        match nth_error (PyStr.split_whitespace (Py.strip out)) 2 with
        | Some word => mret word
        | None => mret "unknown"
        end
      else mret "unknown"
  | Raised => mret "unknown"
  end.

(** A host whose [go version] prints the usual line. *)
Definition go_host : host :=
  {| subprocess_run := fun _ =>
       Completed 0 ("go version go1.23.4 linux/amd64" +:+ String (ascii_of_nat 10) "");
     path_exists := fun _ => false |}.

End ReleaseInfo.

(** ** build.py: version and commit of a build *)
Module BuildInfo.

Import Script.
Local Open Scope string_scope.

(** [get_git_commit()]: the exit code is looked at inside the [try]; a
    non-zero exit and an exception both end in ["unknown"]. *)
Definition get_git_commit : script string :=
  r ← run ["git"; "rev-parse"; "HEAD"];
  match r with
  | Completed rc out =>
      if Z.eqb rc 0 then mret (Py.slice_to 8 (Py.strip out))
      else mret "unknown"
  | Raised => mret "unknown"
  end.

(** [get_version()] *)
Definition get_version : script string :=
  r ← run ["git"; "describe"; "--tags"; "--abbrev=0"];
  match r with
  | Completed rc out =>
      if Z.eqb rc 0 then mret (Py.strip out) else mret "dev"
  | Raised => mret "dev"
  end.

End BuildInfo.

(** ** release.py: the size of a binary, for people *)
Module FileSize.

Local Open Scope N_scope.

(** A number of the loop of [get_file_size]: the [int] that [st_size] is, or
    the [float] that [size /= 1024.0] makes of it.  Every float that occurs
    is [m / 2^e] for an [m] of at most 53 bits, and is kept as that pair. *)
Inductive number : Type :=
| PyInt (n : N)
| PyFloat (m e : N).

(** [float(n)]: the nearest number with 53 significant bits, ties to the
    even one. *)
Definition round53 (n : N) : N :=
  let bits := N.size n in
  if bits <=? 53 then n
  else
    let sh := bits - 53 in
    let q := N.shiftr n sh in
    let r := n - N.shiftl q sh in
    let half := N.shiftl 1 (sh - 1) in
    let q' := if (half <? r) || ((r =? half) && N.odd q) then q + 1 else q in
    N.shiftl q' sh.

(** [size < 1024.0]; Python compares an [int] with a [float] exactly. *)
Definition lt_1024 (x : number) : bool :=
  match x with
  | PyInt n => n <? 1024
  | PyFloat m e => m <? 1024 * 2 ^ e
  end.

(** [size /= 1024.0]: an [int] is converted first; dividing a float that is
    at least 1024 by a power of two is exact. *)
Definition div_1024 (x : number) : number :=
  match x with
  | PyInt n => PyFloat (round53 n) 10
  | PyFloat m e => PyFloat m (e + 10)
  end.

(** The number as a fraction [m / 2^e], after [float()]. *)
Definition fraction (x : number) : N * N :=
  match x with
  | PyInt n => (round53 n, 0)
  | PyFloat m e => (m, e)
  end.

(** The tenths of [m / 2^e], rounded to the nearest, ties to even. *)
Definition tenths (m e : N) : N :=
  let d := 2 ^ e in
  let q := (10 * m) / d in
  let r := (10 * m) mod d in
  if 2 * r <? d then q
  else if d <? 2 * r then q + 1
  else if N.even q then q else q + 1.

Definition decimal (n : N) : string := NilZero.string_of_uint (N.to_uint n).

(** [f"{size:.1f}"]: the decimal with one digit after the point that is
    nearest to the float. *)
Definition format_1f (x : number) : string :=
  let '(m, e) := fraction x in
  let t := tenths m e in
  (decimal (t / 10) +:+ "." +:+ decimal (t mod 10))%string.

(** [for unit in units: if size < 1024.0: return ...; size /= 1024.0] and the
    [return] after the loop. *)
Fixpoint in_units (units : list string) (size : number) : string :=
  match units with
  | [] => (format_1f size +:+ " TB")%string
  | unit :: rest =>
      if lt_1024 size then (format_1f size +:+ " " +:+ unit)%string
      else in_units rest (div_1024 size)
  end.

(** [get_file_size(filepath)]; [stat] is [filepath.stat().st_size], [None]
    where [stat()] raises. *)
Definition get_file_size (stat : string -> option N) (filepath : string)
    : option string :=
  match stat filepath with
  | Some size => Some (in_units ["B"; "KB"; "MB"; "GB"]%string (PyInt size))
  | None => None
  end.

(** The unit a size is reported in, by its thresholds. *)
Definition unit_of (size : N) : string :=
  if size <? 1024 then "B"
  else if size <? 1024 ^ 2 then "KB"
  else if size <? 1024 ^ 3 then "MB"
  else if size <? 1024 ^ 4 then "GB"
  else "TB".

(** A host with one file of the given size. *)
Definition one_file (size : N) : string -> option N :=
  fun p => if String.eqb p "dist/frogllm-linux-amd64" then Some size else None.

End FileSize.

(** ** Effects of the build and release tools

    What the scripts do to the machine they run on: they print, start
    processes, look for paths, remove files, ask for file sizes and leave
    through [sys.exit].  The machine answers as a function of everything
    that has happened so far, and the answers of processes and of the file
    system are kept in the trace.  Paths are written the POSIX way; signals
    that interrupt a script are outside the picture. *)
Module Tool.

(** What is handed to [subprocess.run]: a command line or an argument
    list. *)
Inductive command : Type :=
| Line (text : string)
| Argv (args : list string).

(** One call of [subprocess.run]: [cwd] is [None] or a path, [env] the
    variables set on top of the inherited environment. *)
Record call : Type := Call {
  program : command;
  cwd : option string;
  env : list (string * string);
  shell : bool
}.

(** What [subprocess.run] does before any check of the exit code: the
    process ran to its end, or it could not be started and an exception with
    the text [message] was raised. *)
Inductive outcome : Type :=
| Exited (returncode : Z) (stdout stderr : string)
| Failed (message : string).

Inductive event : Type :=
| Printed (text : string)
| Ran (c : call) (o : outcome)
| Probed (path : string) (found : bool)
| Unlinked (path : string) (error : option string)
| Sized (path : string) (size : N + string)
| Rmtree (path : string) (error : option string)
| Mkdir (path : string) (error : option string)
| Opened (path : string) (content : list byte + string).

(** The exceptions that can leave a function: [SystemExit] and any other,
    with its text. *)
Inductive exn : Type :=
| SystemExit (code : Z)
| Error (message : string).

(** The machine.  [unlink], [rmtree] and [mkdir] answer with the text of
    the exception when they fail, [st_size] with the size and [open_rb]
    with the bytes of the file, or with the text of the exception;
    [called_process_error] is the text of a [CalledProcessError] for a
    command and its exit code, in which Python names the signals of the
    platform, [path_of_none] the text of the [TypeError] of [Path(None)],
    which differs between versions of Python; [utcnow] is the clock as [%Y-%m-%dT%H:%M:%SZ], [elapsed] the
    seconds since the script began as [.2f]. *)
Record host : Type := Host {
  spawn : list event -> call -> outcome;
  path_exists : list event -> string -> bool;
  unlink : list event -> string -> option string;
  st_size : list event -> string -> N + string;
  rmtree : list event -> string -> option string;
  mkdir : list event -> string -> option string;
  open_rb : list event -> string -> list byte + string;
  called_process_error : list string -> Z -> string;
  path_of_none : string;
  absolute : string -> string;
  platform_system : string;
  platform_machine : string;
  sys_platform : string;
  utcnow : list event -> string;
  elapsed : list event -> string
}.

Inductive reply (A : Type) : Type :=
| Value (a : A)
| Raise (e : exn).

Arguments Value {A} a.
Arguments Raise {A} e.

Definition tool (A : Type) : Type :=
  host -> list event -> reply A * list event.

#[global] Instance tool_ret : MRet tool :=
  fun A (a : A) _ log => (Value a, log).

#[global] Instance tool_bind : MBind tool :=
  fun A B (k : A -> tool B) (m : tool A) h log =>
    match m h log with
    | (Value a, log') => k a h log'
    | (Raise e, log') => (Raise e, log')
    end.

(** [print(text)] *)
Definition print (text : string) : tool unit :=
  fun _ log => (Value tt, log ++ [Printed text]).

(** [subprocess.run], before the exit code is looked at. *)
Definition run (c : call) : tool outcome :=
  fun h log => let o := spawn h log c in (Value o, log ++ [Ran c o]).

(** [Path(path).exists()] and [os.path.exists(path)] *)
Definition exists_path (path : string) : tool bool :=
  fun h log =>
    let found := path_exists h log path in
    (Value found, log ++ [Probed path found]).

(** [Path(path).unlink()] inside [try], with the text of the exception. *)
Definition remove (path : string) : tool (option string) :=
  fun h log =>
    let error := unlink h log path in
    (Value error, log ++ [Unlinked path error]).

(** [Path(path).stat().st_size] *)
Definition stat_size (path : string) : tool N :=
  fun h log =>
    let size := st_size h log path in
    (match size with
     | inl n => Value n
     | inr message => Raise (Error message)
     end, log ++ [Sized path size]).

(** [shutil.rmtree(path)] *)
Definition remove_tree (path : string) : tool unit :=
  fun h log =>
    let error := rmtree h log path in
    (match error with
     | None => Value tt
     | Some message => Raise (Error message)
     end, log ++ [Rmtree path error]).

(** [Path(path).mkdir(parents=True, exist_ok=True)] *)
Definition make_dirs (path : string) : tool unit :=
  fun h log =>
    let error := mkdir h log path in
    (match error with
     | None => Value tt
     | Some message => Raise (Error message)
     end, log ++ [Mkdir path error]).

(** [open(path, "rb")], read to the end. *)
Definition open_file (path : string) : tool (list byte) :=
  fun h log =>
    let content := open_rb h log path in
    (match content with
     | inl bytes => Value bytes
     | inr message => Raise (Error message)
     end, log ++ [Opened path content]).

(** [raise] *)
Definition raise {A : Type} (e : exn) : tool A :=
  fun _ log => (Raise e, log).

(** [try: m  except Exception as e: handler(str(e))]; [SystemExit] is no
    [Exception] and passes. *)
Definition try_except {A : Type} (m : tool A) (handler : string -> tool A)
    : tool A :=
  fun h log =>
    match m h log with
    | (Raise (Error message), log') => handler message h log'
    | done => done
    end.

(** A function that is not part of the picture: it adds what it adds to
    the trace and returns, or raises an [Exception] with a text. *)
Definition external {A : Type}
    (f : list event -> (A + string) * list event) : tool A :=
  fun _ log =>
    let '(ending, d) := f log in
    (match ending with
     | inl a => Value a
     | inr message => Raise (Error message)
     end, log ++ d).

(** [sys.exit(code)] *)
Definition sys_exit {A : Type} (code : Z) : tool A :=
  fun _ log => (Raise (SystemExit code), log).

(** What the machine is: [platform.system()] and the like. *)
Definition ask {A : Type} (f : host -> A) : tool A :=
  fun h log => (Value (f h), log).

(** A look at the clock. *)
Definition clock (f : host -> list event -> string) : tool string :=
  fun h log => (Value (f h log), log).

(** A process started from an argument list with the inherited
    environment, through the shell or not. *)
Definition argv_call (through_shell : bool) (argv : list string) : call :=
  Call (Argv argv) None [] through_shell.

Definition seen (o : outcome) : Script.run_outcome :=
  match o with
  | Exited rc out _ => Script.Completed rc out
  | Failed _ => Script.Raised
  end.

(** A script of the earlier kind that asks the machine once, for a process
    started from an argument list: it meets the machine as it is when it
    starts.  [through_shell] is the [shell] argument of its
    [subprocess.run]. *)
Definition script {A : Type} (through_shell : bool) (m : Script.script A)
    : tool A :=
  fun h log =>
    let now :=
      {| Script.subprocess_run :=
           fun argv => seen (spawn h log (argv_call through_shell argv));
         Script.path_exists := path_exists h log |} in
    let '(a, did) := m now [] in
    (Value a,
     log ++ List.map (fun e => match e with
                          | Script.Printed line => Printed line
                          | Script.Spawned argv =>
                              Ran (argv_call through_shell argv)
                                  (spawn h log (argv_call through_shell argv))
                          end) did).

(** [str(n)] for an [int]. *)
Definition str_of_int (n : Z) : string := NilZero.string_of_int (Z.to_int n).

(** The processes of a trace with their ends, in order. *)
Fixpoint ran (log : list event) : list (call * outcome) :=
  match log with
  | [] => []
  | Ran c o :: rest => (c, o) :: ran rest
  | _ :: rest => ran rest
  end.

(** The command lines among them. *)
Fixpoint lines (log : list event) : list string :=
  match log with
  | [] => []
  | Ran c _ :: rest =>
      match program c with
      | Line text => text :: lines rest
      | Argv _ => lines rest
      end
  | _ :: rest => lines rest
  end.

(** The command lines with the ends of their processes. *)
Fixpoint commands (log : list event) : list (string * outcome) :=
  match log with
  | [] => []
  | Ran c o :: rest =>
      match program c with
      | Line text => (text, o) :: commands rest
      | Argv _ => commands rest
      end
  | _ :: rest => commands rest
  end.

(** What a trace says of a path each time it was looked for. *)
Fixpoint probes (path : string) (log : list event) : list bool :=
  match log with
  | [] => []
  | Probed p found :: rest =>
      if String.eqb p path then found :: probes path rest
      else probes path rest
  | _ :: rest => probes path rest
  end.

(** The paths a trace tried to remove. *)
Fixpoint removed (log : list event) : list string :=
  match log with
  | [] => []
  | Unlinked p _ :: rest => p :: removed rest
  | _ :: rest => removed rest
  end.

(** The sizes a trace asked for, and the files it opened. *)
Fixpoint sized (log : list event) : list (string * (N + string)) :=
  match log with
  | [] => []
  | Sized p s :: rest => (p, s) :: sized rest
  | _ :: rest => sized rest
  end.

Fixpoint opened (log : list event) : list (string * (list byte + string)) :=
  match log with
  | [] => []
  | Opened p c :: rest => (p, c) :: opened rest
  | _ :: rest => opened rest
  end.

(** The directories a trace removed or made. *)
Fixpoint touched (log : list event) : list string :=
  match log with
  | [] => []
  | Rmtree p _ :: rest => p :: touched rest
  | Mkdir p _ :: rest => p :: touched rest
  | _ :: rest => touched rest
  end.

(** What a trace printed. *)
Fixpoint printed (log : list event) : list string :=
  match log with
  | [] => []
  | Printed text :: rest => text :: printed rest
  | _ :: rest => printed rest
  end.


(** A process that ran to its end with exit code 0. *)
Definition succeeded (o : outcome) : bool :=
  match o with
  | Exited rc _ _ => Z.eqb rc 0
  | Failed _ => false
  end.

(** A stretch of trace in which nothing happened but printing and
    processes started from argument lists. *)
Definition argv_only (d : list event) : Prop :=
  Forall (fun e => match e with
                   | Printed _ => True
                   | Ran c _ => exists shell argv, c = argv_call shell argv
                   | _ => False
                   end) d.

(** On the machine [h] the computation [m] extends any trace by some [d]
    and ends with some [r] such that [Q r d]. *)
Definition yields (h : host) {A : Type} (m : tool A)
    (Q : reply A -> list event -> Prop) : Prop :=
  forall log, exists r d, m h log = (r, log ++ d) /\ Q r d.

End Tool.

(** ** build.py: the build steps *)
Module BuildSteps.

Import Tool.
Local Open Scope string_scope.

Definition newline : string := String (ascii_of_nat 10) EmptyString.
Definition dquote : string := String (ascii_of_nat 34) EmptyString.

(** [print_banner()] *)
Definition print_banner : tool unit :=
  print (Py.repeat "=" 60) ;;
  print "🚀 FrogLLM Build Script" ;;
  print (Py.repeat "=" 60).

(** [print_step(step_name)] *)
Definition print_step (step_name : string) : tool unit :=
  print (newline +:+ "📦 " +:+ step_name) ;;
  print (Py.repeat "-" 40).

(** [run_command(command, cwd, shell=True, env)]: [check=True] turns a
    non-zero exit into [CalledProcessError]; that and every other exception
    end in [False]. *)
Definition run_command (command : string) (cwd : option string)
    (env : list (string * string)) : tool bool :=
  print ("💻 Running: " +:+ command) ;;
  (if cwd is Some directory then print ("📁 Directory: " +:+ directory) else mret tt) ;;
  o ← run (Call (Line command) cwd env true);
  match o with
  | Exited rc _ _ =>
      if Z.eqb rc 0 then
        print "✅ Command completed successfully" ;; mret true
      else
        print ("❌ Command failed with exit code: " +:+ str_of_int rc) ;; mret false
  | Failed message =>
      print ("❌ Error: " +:+ message) ;; mret false
  end.

Definition npm_install : string := "npm install".
Definition npm_run_build : string := "npm run build".

(** [build_ui()] *)
Definition build_ui : tool bool :=
  print_step "Building UI (React/TypeScript)" ;;
  ui_dir ← exists_path "ui";
  if negb ui_dir then
    print "❌ UI directory not found!" ;; mret false
  else
    package_json ← exists_path "ui/package.json";
    if negb package_json then
      print "❌ package.json not found in ui directory!" ;; mret false
    else
      node_modules ← exists_path "ui/node_modules";
      installed ←
        (if negb node_modules then
           print "📦 Installing npm dependencies..." ;;
           run_command npm_install (Some "ui") []
         else mret true);
      if negb installed then mret false
      else
        print "🔨 Building UI..." ;;
        built ← run_command npm_run_build (Some "ui") [];
        if negb built then mret false
        else
          build_output ← exists_path "proxy/ui_dist";
          (if (build_output : bool) then
             location ← ask (fun h => absolute h "proxy/ui_dist");
             print ("✅ UI build output created at: " +:+ location)
           else
             print "⚠️  UI build completed but output directory not found") ;;
          mret true.

(** [s.lower()], for the ASCII letters. *)
Definition lower_char (c : ascii) : ascii :=
  let n := nat_of_ascii c in
  if (65 <=? n)%nat && (n <=? 90)%nat then ascii_of_nat (n + 32) else c.

Fixpoint lower (s : string) : string :=
  match s with
  | EmptyString => EmptyString
  | String c s' => String (lower_char c) (lower s')
  end.

(** [s in (a, b, ...)] *)
Definition among (s : string) (choices : list string) : bool :=
  existsb (String.eqb s) choices.

(** [goos] and [output_ext] of [build_go], from [platform.system()] and
    [sys.platform]. *)
Definition target_os (system platform : string) : string * string :=
  let system := lower system in
  if Py.startswith system "windows" then ("windows", ".exe")
  else if Py.startswith system "darwin" then ("darwin", "")
  else if Py.startswith system "linux" then ("linux", "")
  else (platform, "").

(** [goarch] of [build_go], from [platform.machine()]. *)
Definition target_arch (machine : string) : string :=
  let machine := lower machine in
  if among machine ["x86_64"; "amd64"] then "amd64"
  else if among machine ["arm64"; "aarch64"] then "arm64"
  else if among machine ["armv7l"; "armv7"] || Py.startswith machine "armv7"
  then "arm"
  else if among machine ["armv6l"; "armv6"] || Py.startswith machine "armv6"
  then "arm"
  else if among machine ["i386"; "i686"; "x86"] then "386"
  else "amd64".

(** [output_name] of [build_go]. *)
Definition output_name (h : host) : string :=
  "frogllm" +:+ (target_os (platform_system h) (sys_platform h)).2.

Definition go_install : string := "/home/matei/go-install/go/bin/go".

(** [go_cmd] *)
Definition go_cmd : tool string :=
  found ← exists_path go_install;
  mret (if (found : bool) then go_install else "go").

(** [build_command] of [build_go]. *)
Definition build_command (go version commit build_time output_name : string)
    : string :=
  let ldflags :=
    "-X main.version=" +:+ version +:+ " -X main.commit=" +:+ commit
    +:+ " -X main.date=" +:+ build_time in
  go +:+ " build -ldflags " +:+ dquote +:+ ldflags +:+ dquote
  +:+ " -o " +:+ output_name +:+ " .".

(** [f"{size / (1024 * 1024):.1f}"]: the quotient of two [int]s is the
    float nearest to it, and dividing by [2^20] is exact. *)
Definition megabytes (size : N) : string :=
  FileSize.format_1f (FileSize.PyFloat (FileSize.round53 size) 20).

(** [build_go()] *)
Definition build_go : tool bool :=
  print_step "Building FrogLLM (Go Backend)" ;;
  go_mod ← exists_path "go.mod";
  if negb go_mod then
    print "❌ go.mod not found! Are you in the FrogLLM root directory?" ;; mret false
  else
    system ← ask platform_system;
    platform ← ask sys_platform;
    machine ← ask platform_machine;
    let '(goos, output_ext) := target_os system platform in
    let goarch := target_arch machine in
    let output_name := "frogllm" +:+ output_ext in
    print ("🧭 Target platform: " +:+ goos +:+ "/" +:+ goarch) ;;
    print ("📄 Output: " +:+ output_name) ;;
    previous ← exists_path output_name;
    (if (previous : bool) then
       print "🗑️  Removing previous build..." ;;
       error ← remove output_name;
       if error is Some message then print ("⚠️  Could not remove previous build: " +:+ message)
       else mret tt
     else mret tt) ;;
    print "🔨 Building Go application..." ;;
    version ← script true BuildInfo.get_version;
    commit ← script true BuildInfo.get_git_commit;
    build_time ← clock utcnow;
    print ("📋 Version: " +:+ version) ;;
    print ("📋 Commit: " +:+ commit) ;;
    print ("📋 Build time: " +:+ build_time) ;;
    go ← go_cmd;
    built ← run_command
              (build_command go version commit build_time output_name) None
              [("GOOS", goos); ("GOARCH", goarch)];
    if negb built then mret false
    else
      created ← exists_path output_name;
      if (created : bool) then
        print "✅ FrogLLM executable created successfully" ;;
        size ← stat_size output_name;
        print ("📊 Executable size: " +:+ megabytes size +:+ " MB") ;;
        mret true
      else
        print "❌ FrogLLM executable not found after build!" ;; mret false.

Definition npm_missing : string := "❌ npm not found! Please install Node.js".
Definition go_missing : string := "❌ Go not found! Please install Go".

(** [check_dependencies()], on a machine that answers by what has
    happened. *)
Definition check_dependencies : tool bool :=
  print_step "Checking Dependencies" ;;
  npm ← run (argv_call true ["npm"; "--version"]);
  match npm with
  | Exited rc out _ =>
      if Z.eqb rc 0 then
        print ("✅ npm v" +:+ Py.strip out +:+ " found") ;;
        go ← go_cmd;
        version ← run (argv_call true [go; "version"]);
        match version with
        | Exited rc out _ =>
            if Z.eqb rc 0 then print ("✅ " +:+ Py.strip out) ;; mret true
            else print go_missing ;; mret false
        | Failed _ => print go_missing ;; mret false
        end
      else
        print npm_missing ;; mret true
  | Failed _ => print npm_missing ;; mret false
  end.

(** [main()] *)
Definition main : tool unit :=
  print_banner ;;
  frogllm_go ← exists_path "frogllm.go";
  here ← (if (frogllm_go : bool) then mret true else exists_path "go.mod");
  if negb here then
    print "❌ Please run this script from the FrogLLM root directory" ;; sys_exit 1
  else
    dependencies ← check_dependencies;
    if negb dependencies then
      print (newline +:+ "❌ Build failed: Missing dependencies") ;; sys_exit 1
    else
      ui ← build_ui;
      if negb ui then
        print (newline +:+ "❌ Build failed: UI build error") ;; sys_exit 1
      else
        go ← build_go;
        if negb go then
          print (newline +:+ "❌ Build failed: Go build error") ;; sys_exit 1
        else
          build_time ← clock elapsed;
          print (newline +:+ Py.repeat "=" 60) ;;
          print "🎉 BUILD SUCCESSFUL!" ;;
          print (Py.repeat "=" 60) ;;
          print ("⏱️  Total build time: " +:+ build_time +:+ " seconds") ;;
          system ← ask platform_system;
          let output_name :=
            if Py.startswith (lower system) "windows" then "frogllm.exe"
            else "frogllm" in
          print ("🚀 Ready to run: ./" +:+ output_name) ;;
          print "🌐 UI will be served at: http://localhost:5800" ;;
          print (Py.repeat "=" 60).

(** The script: [main()] under its handlers. *)
Definition entry : tool unit :=
  fun h log =>
    match main h log with
    | (Raise (Error message), log') =>
        (print (newline +:+ "❌ Unexpected error: " +:+ message) ;; sys_exit 1) h log'
    | done => done
    end.

(** The exit code of the script. *)
Definition exit_code (r : reply unit) : Z :=
  match r with
  | Value _ => 0
  | Raise (SystemExit code) => code
  | Raise (Error _) => 1
  end.

(** A machine with a source tree that has never been built: [ui] and its
    [package.json] are there, every command succeeds, and the binary is
    there once [go build] has run. *)
Definition fresh_tree : host :=
  {| spawn := fun _ _ => Exited 0 "v1.2.3" "";
     path_exists := fun log p =>
       String.eqb p "ui" || String.eqb p "ui/package.json"
       || String.eqb p "go.mod"
       || (String.eqb p "frogllm"
           && existsb (fun t => Py.startswith t "go build") (lines log));
     unlink := fun _ _ => None;
     st_size := fun _ _ => inl 20971520%N;
     rmtree := fun _ _ => None;
     mkdir := fun _ _ => None;
     open_rb := fun _ _ => inl [];
     called_process_error := fun _ _ => "";
     path_of_none := "";
     absolute := fun p => "/src/" +:+ p;
     platform_system := "Linux";
     platform_machine := "x86_64";
     sys_platform := "linux";
     utcnow := fun _ => "2026-01-01T00:00:00Z";
     elapsed := fun _ => "1.00" |}.

End BuildSteps.

(** ** release.py: prerequisites and cross-compilation *)
Module ReleaseSteps.

Import Tool.
Local Open Scope string_scope.

Definition newline : string := String (ascii_of_nat 10) EmptyString.

Definition GREEN : string := Release.esc +:+ "[0;32m".
Definition YELLOW : string := Release.esc +:+ "[1;33m".
Definition BLUE : string := Release.esc +:+ "[0;34m".
Definition CYAN : string := Release.esc +:+ "[0;36m".

(** [print_colored(message, color)] *)
Definition print_colored (message color : string) : tool unit :=
  print (color +:+ message +:+ Release.NC).

(** [print_header(title)] *)
Definition print_header (title : string) : tool unit :=
  print "" ;;
  print_colored (Py.repeat "=" 60) BLUE ;;
  print_colored (" " +:+ title) BLUE ;;
  print_colored (Py.repeat "=" 60) BLUE ;;
  print "".

(** The truth of a [str]. *)
Definition truthy (s : string) : bool :=
  match s with
  | EmptyString => false
  | String _ _ => true
  end.

(** [run_command(cmd, cwd, env)]: the only exception caught is the
    [CalledProcessError] that [check=True] makes of a non-zero exit; one
    raised because the process cannot be started leaves the function. *)
Definition run_command (cmd : list string) (cwd : option string)
    (env : list (string * string)) : tool (bool * string) :=
  print_colored ("Running: " +:+ String.concat " " cmd) CYAN ;;
  o ← run (Call (Argv cmd) cwd env false);
  match o with
  | Exited rc stdout stderr =>
      if Z.eqb rc 0 then
        (if truthy (Py.strip stdout) then print (Py.strip stdout)
         else mret tt) ;;
        mret (true, stdout)
      else
        e ← ask (fun h => called_process_error h cmd rc);
        print_colored ("Error running command: " +:+ e) Release.RED ;;
        (if truthy stderr then
           print_colored ("Error output: " +:+ stderr) Release.RED
         else mret tt) ;;
        mret (false, stderr)
  | Failed message => raise (Error message)
  end.

(** [check_prerequisites()] *)
Definition check_prerequisites : tool bool :=
  print_header "Checking Prerequisites" ;;
  go ← run_command ["go"; "version"] None [];
  if negb go.1 then
    print_colored "‚úó Go not found. Please install Go." Release.RED ;; mret false
  else
    print_colored "‚úì Go found" GREEN ;;
    git ← run_command ["git"; "--version"] None [];
    if negb git.1 then
      print_colored "‚úó Git not found. Please install Git." Release.RED ;; mret false
    else
      print_colored "‚úì Git found" GREEN ;;
      repository ← exists_path ".git";
      if negb repository then
        print_colored "‚úó Not in a Git repository" Release.RED ;; mret false
      else
        print_colored "‚úì Git repository found" GREEN ;;
        module ← exists_path "go.mod";
        if negb module then
          print_colored "‚úó go.mod not found. Please run 'go mod init' first." Release.RED ;; mret false
        else
          print_colored "‚úì Go module found" GREEN ;; mret true.

Definition BUILD_DIR : string := "dist".

(** An entry of [BUILD_TARGETS]. *)
Record target : Type := Target {
  goos : string;
  goarch : string;
  filename : string;
  description : string
}.

Definition BUILD_TARGETS : list target :=
  [ Target "linux" "amd64" "frogllm-linux-amd64" "Linux x64";
    Target "linux" "arm64" "frogllm-linux-arm64" "Linux ARM64";
    Target "darwin" "amd64" "frogllm-darwin-amd64" "macOS Intel";
    Target "darwin" "arm64" "frogllm-darwin-arm64" "macOS Apple Silicon";
    Target "windows" "amd64" "frogllm-windows-amd64.exe" "Windows x64" ].

(** A [binary_info]. *)
Record binary : Type := Binary {
  target_of : target;
  path : string;
  size : string;
  sha256 : string
}.

(** [get_file_size(filepath)] on the machine of the trace. *)
Definition get_file_size (filepath : string) : tool string :=
  bytes ← stat_size filepath;
  mret (FileSize.in_units ["B"; "KB"; "MB"; "GB"] (FileSize.PyInt bytes)).

(** [calculate_sha256(filepath)] on the machine of the trace. *)
Definition calculate_sha256 (filepath : string) : tool string :=
  content ← open_file filepath;
  mret (Sha256.hexdigest (Release.feed content Sha256.new)).

(** [" ".join(ldflags)] *)
Definition ldflags (version build_time commit : string) : string :=
  String.concat " "
    [ "-X main.version=" +:+ version;
      "-X main.date=" +:+ build_time;
      "-X main.commit=" +:+ commit;
      "-w"; "-s" ].

(** [output_path] of a target. *)
Definition output_path (t : target) : string :=
  BUILD_DIR +:+ "/" +:+ filename t.

(** [cmd] and [env] of a target. *)
Definition build_cmd (flags : string) (t : target) : list string :=
  ["go"; "build"; "-ldflags"; flags; "-o"; output_path t; "."].

Definition build_env (t : target) : list (string * string) :=
  [("GOOS", goos t); ("GOARCH", goarch t); ("CGO_ENABLED", "0")].

(** The [for] loop of [build_binaries], with [built_binaries] as it is when
    a round begins; [continue] goes on with the targets that are left. *)
Fixpoint build_each (flags : string) (targets : list target)
    (built_binaries : list binary) : tool (list binary) :=
  match targets with
  | [] => mret built_binaries
  | t :: rest =>
      print_colored (newline +:+ "Building " +:+ description t +:+ "...")
        BLUE ;;
      r ← run_command (build_cmd flags t) None (build_env t);
      if negb r.1 then
        print_colored ("Failed to build " +:+ description t) Release.RED ;;
        build_each flags rest built_binaries
      else
        found ← exists_path (output_path t);
        if negb found then
          print_colored ("Binary not found: " +:+ output_path t) Release.RED ;;
          build_each flags rest built_binaries
        else
          file_size ← get_file_size (output_path t);
          digest ← calculate_sha256 (output_path t);
          let binary_info := Binary t (output_path t) file_size digest in
          print_colored ("‚úì Built " +:+ filename t +:+ " (" +:+ file_size
                         +:+ ")") GREEN ;;
          build_each flags rest (built_binaries ++ [binary_info])
  end.

(** [str(n)] for a length. *)
Definition str_of_nat (n : nat) : string :=
  NilZero.string_of_uint (Nat.to_uint n).

(** [build_binaries(version)] *)
Definition build_binaries (version : string) : tool (list binary) :=
  print_header ("Building ClaraCore " +:+ version +:+ " Binaries") ;;
  existing ← exists_path BUILD_DIR;
  (if (existing : bool) then
     print_colored ("Removing existing build directory: " +:+ BUILD_DIR) YELLOW ;;
     remove_tree BUILD_DIR
   else mret tt) ;;
  make_dirs BUILD_DIR ;;
  build_time ← clock utcnow;
  commit ← script false ReleaseInfo.get_git_commit;
  built_binaries ← build_each (ldflags version build_time commit)
                     BUILD_TARGETS [];
  print_colored (newline +:+ "‚úì Successfully built "
                 +:+ str_of_nat (List.length built_binaries) +:+ "/"
                 +:+ str_of_nat (List.length BUILD_TARGETS) +:+ " binaries")
    GREEN ;;
  mret built_binaries.

(** Whether a trace shows the binary of a target as found. *)
Definition found (d : list event) (t : target) : bool :=
  match probes (output_path t) d with
  | [true] => true
  | _ => false
  end.

(** An entry of the result agrees with what the trace shows of its file:
    the path is that of its target, the size is the reported size of that
    path in units, the digest that of the bytes read from it. *)
Definition recorded (d : list event) (b : binary) : Prop :=
  path b = output_path (target_of b)
  /\ exists bytes content,
       In (path b, inl bytes) (sized d)
       /\ size b = FileSize.in_units ["B"; "KB"; "MB"; "GB"]
                     (FileSize.PyInt bytes)
       /\ In (path b, inl content) (opened d)
       /\ sha256 b = Sha256.sha256_hex content.

(** The call that builds a target. *)
Definition build_call (flags : string) (t : target) : call :=
  Call (Argv (build_cmd flags t)) None (build_env t) false.

(** What [parse_args] hands to [main]. *)
Record args : Type := Args {
  version : string;
  token : option string;
  token_file : option string;
  draft : bool;
  build_only : bool
}.

(** [str] of bytes that are read as text. *)
Definition read_text (content : list byte) : string :=
  string_of_list_byte content.

(** What [create_github_release] does with a token, a version, the
    binaries and the draft flag: it talks to GitHub, and is taken as it
    comes. *)
Definition publisher : Type :=
  string -> string -> list binary -> bool ->
  list event -> (bool + string) * list event.

(** [main()] after [parse_args].  [token_file] is written as pathlib
    writes it. *)
Definition main (a : args) (create_github_release : publisher)
    : tool unit :=
  valid ← script false (Release.validate_version (version a));
  if negb valid then sys_exit 1
  else
    ready ← check_prerequisites;
    if negb ready then sys_exit 1
    else
      github_token ←
        match token a with
        | Some (String c s) => mret (String c s)
        | _ =>
            match token_file a with
            | None => message ← ask path_of_none; raise (Error message)
            | Some token_file =>
                there ← exists_path token_file;
                if negb there then
                  print_colored ("Token file not found: " +:+ token_file) Release.RED ;;
                  sys_exit 1
                else
                  content ← open_file token_file;
                  mret (Py.strip (read_text content))
            end
        end;
      try_except
        (binaries ← build_binaries (version a);
         match binaries with
         | [] => print_colored "No binaries were built successfully" Release.RED ;; sys_exit 1
         | _ :: _ =>
             if build_only a then
               print_colored ("‚úì Build completed. Binaries in " +:+ BUILD_DIR +:+ "/") GREEN
             else
               success ← external (create_github_release github_token
                                     (version a) binaries (draft a));
               if (success : bool) then
                 print_colored (newline +:+ "üéâ Release process completed successfully!") GREEN
               else
                 print_colored (newline +:+ "‚ùå Release process failed") Release.RED ;;
                 sys_exit 1
         end)
        (fun e =>
           print_colored (newline +:+ "‚ùå Unexpected error: " +:+ e) Release.RED ;;
           sys_exit 1).

(** The two processes of [check_prerequisites]. *)
Definition go_version : call := argv_call false ["go"; "version"].
Definition git_version : call := argv_call false ["git"; "--version"].

(** [validate_version] has no use for the machine: its verdict. *)
Definition valid (version : string) : bool :=
  Py.startswith version "v"
  && Nat.leb 2 (List.length (Py.split "." (Py.slice_from 1 version))).


(** A machine on which every command succeeds and every file holds the
    three bytes of the text abc and is reported with 1536 bytes. *)
Definition abc_host : host :=
  {| spawn := fun _ _ => Exited 0 "" "";
     path_exists := fun _ _ => true;
     unlink := fun _ _ => None;
     st_size := fun _ _ => inl 1536%N;
     rmtree := fun _ _ => None;
     mkdir := fun _ _ => None;
     open_rb := fun _ _ => inl Release.abc;
     called_process_error := fun _ _ => "";
     path_of_none := "";
     absolute := fun p => p;
     platform_system := "Linux";
     platform_machine := "x86_64";
     sys_platform := "linux";
     utcnow := fun _ => "2026-01-01T00:00:00Z";
     elapsed := fun _ => "0.00" |}.

End ReleaseSteps.

(* ===================================================================== *)
(** * Properties *)
(* ===================================================================== *)

(** Unfolds the plumbing of [Script.script] so that a run reduces to its
    result and log. *)
Ltac script_steps :=
  unfold Script.result, Script.output, Script.exec;
  repeat (unfold mbind, mret, Script.script_bind, Script.script_ret,
            Script.print, Script.run, Script.exists_path; cbn).

Section PyFacts.

Lemma split_nonempty sep s : Py.split sep s <> [].
Proof.
  destruct s as [|c s]; simpl; [discriminate|].
  destruct (Ascii.eqb c sep); [discriminate|].
  destruct (Py.split sep s); discriminate.
Qed.

Lemma split_length sep s : length (Py.split sep s) = S (Py.count sep s).
Proof.
  induction s as [|c s IH]; simpl; [reflexivity|].
  destruct (Ascii.eqb c sep); simpl.
  - now rewrite IH.
  - destruct (Py.split sep s) as [|p ps] eqn:E; simpl in *; lia.
Qed.

Lemma startswith_char c s :
  Py.startswith s (String c EmptyString) = true <-> exists rest, s = String c rest.
Proof.
  unfold Py.startswith. destruct s as [|d s]; simpl.
  - split; [discriminate | intros [r Hr]; discriminate].
  - destruct (ascii_dec c d) as [->|Hne].
    + split; [eauto|]. intros _. now destruct s.
    + split; [discriminate|]. intros [r Hr]. congruence.
Qed.

End PyFacts.

(** ** release.py: [validate_version] *)
Section ValidateVersion.

Import Script Release.
Local Open Scope string_scope.

Variable h : host.

Lemma validate_version_result (v : string) :
  result (validate_version v) h =
  Py.startswith v "v" && Nat.leb 2 (List.length (Py.split "." (Py.slice_from 1 v))).
Proof.
  unfold validate_version, result, exec.
  destruct (Py.startswith v "v"); cbn [negb andb]; [|reflexivity].
  generalize (List.length (Py.split "." (Py.slice_from 1 v))).
  intros [|[|n]]; reflexivity.
Qed.

(** Rejections are reported on standard output, acceptance is silent. *)
Lemma validate_version_output (v : string) :
  output (validate_version v) h =
  if negb (Py.startswith v "v") then [Printed (RED +:+ msg_prefix +:+ NC)]
  else if Nat.ltb (Py.count "." (Py.slice_from 1 v)) 1
       then [Printed (RED +:+ msg_semver +:+ NC)]
       else [].
Proof.
  unfold validate_version, output, exec.
  destruct (Py.startswith v "v"); cbn [negb]; [|reflexivity].
  rewrite split_length.
  generalize (Py.count "." (Py.slice_from 1 v)).
  intros [|n]; reflexivity.
Qed.

End ValidateVersion.

(** C8.  For every string [v], [validate_version v] returns [True] exactly
    when [v] starts with the character v and the remainder [v[1:]], split on
    the dot, has at least two parts.  The parts are never inspected: any two
    strings [a] and [b] give an accepted version [v ++ a ++ . ++ b], and in
    particular [vX.Y] is accepted. *)
Theorem validate_version_accepts_iff :
  (forall (h : Script.host) (v : string),
      Script.result (Release.validate_version v) h = true <->
      Py.startswith v "v" = true /\
      2 <= List.length (Py.split "." (Py.slice_from 1 v))) /\
  (forall (h : Script.host) (a b : string),
      Script.result (Release.validate_version ("v" +:+ a +:+ "." +:+ b)) h = true) /\
  (forall h : Script.host,
      Script.result (Release.validate_version "vX.Y") h = true).
Proof.
  split; [|split].
  - intros h v. rewrite validate_version_result, andb_true_iff, Nat.leb_le.
    reflexivity.
  - intros h a b. rewrite validate_version_result.
    change ("v" +:+ a +:+ "." +:+ b) with (String "v" (a +:+ "." +:+ b)).
    apply andb_true_iff. split.
    + apply startswith_char. eauto.
    + cbn [Py.slice_from]. rewrite split_length. apply Nat.leb_le.
      assert (1 <= Py.count "." (a +:+ "." +:+ b)); [|lia].
      induction a as [|c a IH]; simpl; lia.
  - intros h. reflexivity.
Qed.

(** ** build.py: [check_dependencies] *)
Section CheckDependencies.

Import Script Build.
Local Open Scope string_scope.

Lemma check_go_result (h : host) (log : list event) :
  fst (check_go h log) = false <-> Build.probe_failed (subprocess_run h (Build.go_argv h)).
Proof.
  unfold check_go, go_argv. script_steps.
  destruct (subprocess_run h _) as [|rc out]; script_steps; [split; auto|].
  destruct (Z.eqb_spec rc 0); script_steps; split; intros; congruence.
Qed.

End CheckDependencies.

(** C9.  [check_dependencies] returns [True] when the npm probe completes
    with a nonzero exit code: that branch prints the npm-not-found message,
    returns [True], and never spawns the Go probe.  It returns [False] only
    when spawning npm raises, or when npm is found and the Go probe fails. *)
Theorem check_dependencies_npm_nonzero (h : Script.host) :
  (forall (rc : Z) (out : string),
      Script.subprocess_run h Build.npm_argv = Script.Completed rc out ->
      rc <> 0%Z ->
      Script.result Build.check_dependencies h = true /\
      last (Script.output Build.check_dependencies h) =
        Some (Script.Printed Build.npm_missing) /\
      Script.Spawned (Build.go_argv h) ∉ Script.output Build.check_dependencies h) /\
  (Script.result Build.check_dependencies h = false ->
      Script.subprocess_run h Build.npm_argv = Script.Raised \/
      ((exists out, Script.subprocess_run h Build.npm_argv = Script.Completed 0 out) /\
       Build.probe_failed (Script.subprocess_run h (Build.go_argv h)))).
Proof.
  split.
  - intros rc out Hnpm Hrc.
    unfold Build.check_dependencies, Build.print_step. script_steps.
    unfold Build.npm_argv in Hnpm. rewrite Hnpm.
    destruct (Z.eqb_spec rc 0) as [->|_]; [congruence|]. script_steps.
    split; [reflexivity|]. split; [reflexivity|].
    unfold Build.go_argv. intros Hin.
    repeat (apply elem_of_cons in Hin as [Hin|Hin]; [discriminate|]).
    now apply elem_of_nil in Hin.
  - unfold Build.check_dependencies, Build.print_step, Build.npm_argv.
    script_steps.
    destruct (Script.subprocess_run h _) as [|rc out] eqn:Hnpm; [auto|].
    destruct (Z.eqb_spec rc 0) as [->|Hrc]; script_steps.
    + intros Hgo. right. split; [eauto|].
      now apply check_go_result in Hgo.
    + discriminate.
Qed.

Lemma check_dependencies_npm_nonzero_witness :
  Script.subprocess_run Build.bare_host Build.npm_argv = Script.Completed 127 "" /\
  127%Z <> 0%Z /\
  Script.result Build.check_dependencies Build.bare_host = true /\
  last (Script.output Build.check_dependencies Build.bare_host) =
    Some (Script.Printed Build.npm_missing) /\
  Script.Spawned (Build.go_argv Build.bare_host) ∉
    Script.output Build.check_dependencies Build.bare_host.
Proof.
  split; [reflexivity|]. split; [discriminate|].
  apply (proj1 (check_dependencies_npm_nonzero Build.bare_host) 127%Z ""%string);
    [reflexivity | discriminate].
Defined.

(** ** hashlib.sha256: the streaming object and the one-shot digest agree *)
Section Absorb.

Import Sha256.

Lemma absorb_small s data :
  List.length data < block_bytes -> absorb s data = (s, data).
Proof.
  intros Hlt. simp absorb.
  destruct (le_lt_dec block_bytes (List.length data)); simpl; [lia | reflexivity].
Qed.

Lemma absorb_block s data :
  block_bytes <= List.length data ->
  absorb s data =
  absorb (compress s (firstn block_bytes data)) (skipn block_bytes data).
Proof.
  intros Hle. rewrite (absorb_equation_1 s data).
  destruct (le_lt_dec block_bytes (List.length data)); simpl; [reflexivity | lia].
Qed.

(** Absorbing a concatenation is absorbing its first part, then the
    leftover followed by the second part. *)
Lemma absorb_app data1 : forall s data2,
  absorb s (data1 ++ data2) =
  absorb (fst (absorb s data1)) (snd (absorb s data1) ++ data2).
Proof.
  induction data1 as [data1 IH] using (induction_ltof1 _ (@List.length byte)).
  unfold ltof in IH. intros s data2.
  destruct (le_lt_dec block_bytes (List.length data1)) as [Hle|Hlt].
  - rewrite (absorb_block s data1) by assumption.
    rewrite (absorb_block s (data1 ++ data2)) by (rewrite length_app; lia).
    rewrite firstn_app, skipn_app.
    replace (block_bytes - List.length data1) with 0 by lia.
    rewrite firstn_0, skipn_0, app_nil_r.
    apply IH. now apply skipn_block_lt.
  - now rewrite (absorb_small s data1).
Qed.

Lemma absorb_rest_short s data :
  List.length (snd (absorb s data)) < block_bytes.
Proof.
  revert s.
  induction data as [data IH] using (induction_ltof1 _ (@List.length byte)).
  unfold ltof in IH. intros s.
  destruct (le_lt_dec block_bytes (List.length data)) as [Hle|Hlt].
  - rewrite absorb_block by assumption. apply IH. now apply skipn_block_lt.
  - now rewrite absorb_small.
Qed.

Lemma absorb_rest_length s data :
  List.length (snd (absorb s data)) = List.length data mod block_bytes.
Proof.
  revert s.
  induction data as [data IH] using (induction_ltof1 _ (@List.length byte)).
  unfold ltof in IH. intros s.
  destruct (le_lt_dec block_bytes (List.length data)) as [Hle|Hlt].
  - rewrite absorb_block by assumption.
    rewrite IH by now apply skipn_block_lt.
    rewrite length_skipn.
    assert (Hb : block_bytes <> 0) by (unfold block_bytes; lia).
    replace (List.length data) with
      ((List.length data - block_bytes) + 1 * block_bytes) at 2 by lia.
    now rewrite Nat.Div0.mod_add.
  - rewrite absorb_small by assumption. cbn [snd].
    symmetry. now apply Nat.mod_small.
Qed.

(** The chaining value after absorbing is the fold of the compression
    function over the whole blocks. *)
Lemma absorb_blocks s data :
  fst (absorb s data) = fold_left compress (blocks data) s.
Proof.
  revert s.
  induction data as [data IH] using (induction_ltof1 _ (@List.length byte)).
  unfold ltof in IH. intros s.
  rewrite (blocks_equation_1 data).
  destruct (le_lt_dec block_bytes (List.length data)) as [Hle|Hlt]; simpl.
  - rewrite absorb_block by assumption. apply IH. now apply skipn_block_lt.
  - now rewrite absorb_small.
Qed.

End Absorb.

Section Hasher.

Import Sha256.

Lemma new_well_formed : well_formed new.
Proof. unfold well_formed, new, block_bytes. simpl. lia. Qed.

Lemma update_well_formed h data : well_formed (update h data).
Proof.
  unfold well_formed, update.
  destruct (absorb (chaining h) (pending h ++ data)) as [s rest] eqn:E.
  simpl. change rest with (snd (s, rest)). rewrite <- E.
  apply absorb_rest_short.
Qed.

Lemma update_nil h : well_formed h -> update h [] = h.
Proof.
  unfold well_formed, update. intros Hwf.
  rewrite app_nil_r, absorb_small by assumption.
  destruct h; simpl. f_equal. lia.
Qed.

(** Two updates are one update with the concatenation. *)
Lemma update_app h data1 data2 :
  update (update h data1) data2 = update h (data1 ++ data2).
Proof.
  unfold update.
  rewrite (app_assoc (pending h) data1 data2).
  rewrite (absorb_app (pending h ++ data1) (chaining h) data2).
  destruct (absorb (chaining h) (pending h ++ data1)) as [s1 rest1]. simpl.
  destruct (absorb s1 (rest1 ++ data2)) as [s2 rest2].
  f_equal. rewrite length_app. lia.
Qed.

Lemma update_blocks h (bs : list (list byte)) :
  well_formed h -> fold_left update bs h = update h (concat bs).
Proof.
  revert h. induction bs as [|b bs IH]; intros h Hwf; simpl.
  - symmetry. now apply update_nil.
  - rewrite IH by apply update_well_formed. apply update_app.
Qed.

Lemma be_bytes_length n x : List.length (be_bytes n x) = n.
Proof. induction n as [|n IH]; simpl; [reflexivity | now rewrite IH]. Qed.

Lemma padding_length len :
  List.length (padding len) =
  9 + Z.to_nat ((55 - Z.of_nat len) mod 64).
Proof.
  unfold padding. cbn [List.length].
  rewrite length_app, repeat_length, be_bytes_length. lia.
Qed.

(** The padded message is a whole number of blocks. *)
Lemma padded_whole_blocks (msg : list byte) :
  List.length (msg ++ padding (List.length msg)) mod block_bytes = 0.
Proof.
  rewrite length_app, padding_length. unfold block_bytes.
  set (n := List.length msg).
  pose proof (Z.div_mod (55 - Z.of_nat n) 64 ltac:(lia)) as Hdm.
  pose proof (Z.mod_pos_bound (55 - Z.of_nat n) 64 ltac:(lia)) as Hb.
  set (q := ((55 - Z.of_nat n) / 64)%Z) in *.
  set (k := ((55 - Z.of_nat n) mod 64)%Z) in *.
  replace (n + (9 + Z.to_nat k)) with (Z.to_nat (1 - q) * 64) by lia.
  apply Nat.Div0.mod_mul.
Qed.

(** Reading the digest of an object that was fed [msg] from scratch gives
    the one-shot digest of [msg]. *)
Lemma finish_update_new msg : finish (update new msg) = sha256 msg.
Proof.
  unfold finish, sha256, update, new. cbn [chaining pending fed app].
  rewrite <- absorb_blocks.
  rewrite (absorb_app msg IV (padding (List.length msg))).
  destruct (absorb IV msg) as [s rest]. reflexivity.
Qed.

Lemma hexdigest_update_new msg : hexdigest (update new msg) = sha256_hex msg.
Proof. unfold hexdigest, sha256_hex. now rewrite finish_update_new. Qed.

End Hasher.

(** ** release.py: [calculate_sha256] *)
Section Feed.

Import Sha256 Release.

Lemma read_empty_eof (f : reader) : fst (read chunk f) = [] -> f = [].
Proof. unfold read, chunk. simpl. now destruct f. Qed.

Lemma read_concat (n : nat) (f : reader) : fst (read n f) ++ snd (read n f) = f.
Proof. apply firstn_skipn. Qed.

(** No block handed to the hash object is longer than the chunk size. *)
Lemma read_bounded (n : nat) (f : reader) : List.length (fst (read n f)) <= n.
Proof. unfold read; simpl. rewrite length_firstn. lia. Qed.

(** The hashing loop leaves the object as one update with all the bytes
    would. *)
Lemma feed_update f h : well_formed h -> feed f h = update h f.
Proof.
  funelim (feed f h); intros Hwf.
  - rewrite (read_empty_eof f e). symmetry. now apply update_nil.
  - match goal with
    | IH : well_formed _ -> feed _ _ = _ |- _ =>
        rewrite IH by apply update_well_formed
    end.
    rewrite update_app.
    match goal with
    | E : fst (read chunk f) = _ |- _ => rewrite <- E
    end.
    now rewrite read_concat.
Qed.

End Feed.

Section HexDigits.

Import Sha256.
Local Open Scope Z_scope.

Lemma hex_digit_lower v : 0 <= v < 16 -> is_lower_hex (hex_digit v) = true.
Proof.
  intros Hv.
  assert (Hcases : v = 0 \/ v = 1 \/ v = 2 \/ v = 3 \/ v = 4 \/ v = 5 \/
                   v = 6 \/ v = 7 \/ v = 8 \/ v = 9 \/ v = 10 \/ v = 11 \/
                   v = 12 \/ v = 13 \/ v = 14 \/ v = 15) by lia.
  repeat (destruct Hcases as [->|Hcases]; [reflexivity|]).
  subst v. reflexivity.
Qed.

Lemma nibble_range x : 0 <= Z.land x 15 < 16.
Proof.
  change 15 with (Z.ones 4). rewrite Z.land_ones by lia.
  apply Z.mod_pos_bound. lia.
Qed.

Lemma hex_word_lower n x : lower_hex (hex_word n x) = true.
Proof.
  induction n as [|n IH]; [reflexivity|].
  cbn [hex_word lower_hex]. rewrite IH, andb_true_r.
  apply hex_digit_lower, nibble_range.
Qed.

Lemma hex_word_length n x : String.length (hex_word n x) = n.
Proof. induction n as [|n IH]; [reflexivity|]. cbn [hex_word String.length]. now rewrite IH. Qed.

Lemma lower_hex_app s1 s2 :
  lower_hex (s1 +:+ s2) = lower_hex s1 && lower_hex s2.
Proof.
  induction s1 as [|c s1 IH]; [reflexivity|].
  simpl. now rewrite IH, andb_assoc.
Qed.

Lemma string_length_app s1 s2 :
  String.length (s1 +:+ s2) = (String.length s1 + String.length s2)%nat.
Proof. induction s1 as [|c s1 IH]; [reflexivity|]. simpl. now rewrite IH. Qed.

Lemma hex_chain_lower s : lower_hex (hex_chain s) = true.
Proof.
  unfold hex_chain. rewrite !lower_hex_app, !hex_word_lower. reflexivity.
Qed.

Lemma hex_chain_length s : String.length (hex_chain s) = 64%nat.
Proof.
  unfold hex_chain. rewrite !string_length_app, !hex_word_length. reflexivity.
Qed.

End HexDigits.

(** C10.  For every file, [calculate_sha256] returns the lowercase
    hexadecimal SHA-256 digest of the file's entire contents: feeding the
    content to the hash object in 4096-byte blocks gives the digest that a
    single [update] with the whole content gives, which is the one-shot
    SHA-256 of the content, written as 64 lowercase hexadecimal digits. *)
Theorem calculate_sha256_whole_content
    (fs : Release.filesystem) (filepath : string) (content : list byte) :
  fs filepath = Some content ->
  Release.calculate_sha256 fs filepath =
    Some (Sha256.hexdigest (Sha256.update Sha256.new content)) /\
  Release.calculate_sha256 fs filepath = Some (Sha256.sha256_hex content) /\
  String.length (Sha256.sha256_hex content) = 64 /\
  Sha256.lower_hex (Sha256.sha256_hex content) = true.
Proof.
  intros Hopen. unfold Release.calculate_sha256. rewrite Hopen.
  rewrite feed_update by apply new_well_formed.
  rewrite hexdigest_update_new.
  split; [reflexivity|]. split; [reflexivity|].
  split; [apply hex_chain_length | apply hex_chain_lower].
Qed.

Lemma calculate_sha256_whole_content_witness :
  Release.abc_fs "abc.bin" = Some Release.abc /\
  (Release.calculate_sha256 Release.abc_fs "abc.bin" =
     Some (Sha256.hexdigest (Sha256.update Sha256.new Release.abc)) /\
   Release.calculate_sha256 Release.abc_fs "abc.bin" =
     Some (Sha256.sha256_hex Release.abc) /\
   String.length (Sha256.sha256_hex Release.abc) = 64 /\
   Sha256.lower_hex (Sha256.sha256_hex Release.abc) = true).
Proof.
  split; [reflexivity|].
  apply calculate_sha256_whole_content. reflexivity.
Defined.

(** The model of the hash object reproduces the published digests of the
    empty message and of the text abc. *)
Example sha256_known_digests :
  Sha256.sha256_hex [] =
    "e3b0c44298fc1c149afbf4c8996fb92427ae41e4649b934ca495991b7852b855"%string /\
  Release.calculate_sha256 Release.abc_fs "abc.bin" =
    Some "ba7816bf8f01cfea414140de5dae2223b00361a396177a9cb410ff61f20015ad"%string.
Proof. split; vm_compute; reflexivity. Qed.

(** ** GPU Resource Tracker: a granted allocation fits *)
Section GpuFacts.

Import Gpu.

Lemma most_free_fits footprint ds : forall i k f,
  most_free footprint i ds = Some (k, f) ->
  exists d, i <= k /\ ds !! (k - i) = Some d /\ f = free d /\ footprint <= free d.
Proof.
  induction ds as [|d ds IH]; intros i k f; simpl; [discriminate|].
  destruct (fits footprint d) eqn:Hfit.
  - apply Nat.leb_le in Hfit.
    destruct (most_free footprint (S i) ds) as [[j g]|] eqn:Hrest.
    + destruct (Nat.ltb (free d) g).
      * intros [= -> ->]. destruct (IH _ _ _ Hrest) as (d' & Hle & Hd' & Hg & Hfp).
        exists d'. split; [lia|]. split; [|auto].
        replace (k - i) with (S (k - S i)) by lia. exact Hd'.
      * intros [= <- <-]. exists d. rewrite Nat.sub_diag. auto.
    + intros [= <- <-]. exists d. rewrite Nat.sub_diag. auto.
  - intros Hrest. destruct (IH _ _ _ Hrest) as (d' & Hle & Hd' & Hg & Hfp).
    exists d'. split; [lia|]. split; [|auto].
    replace (k - i) with (S (k - S i)) by lia. exact Hd'.
Qed.

(** The device chosen for a whole placement has the room. *)
Lemma place_fits ds footprint preferred k :
  place ds footprint preferred = Some k ->
  exists d, ds !! k = Some d /\ footprint <= free d.
Proof.
  unfold place, preferred_fit.
  destruct preferred as [j|].
  - destruct (ds !! j) as [d|] eqn:Hj.
    + destruct (fits footprint d) eqn:Hfit.
      * intros [= <-]. exists d. split; [auto|]. now apply Nat.leb_le.
      * destruct (most_free footprint 0 ds) as [[k' f]|] eqn:Hm; [|discriminate].
        intros [= <-]. destruct (most_free_fits _ _ _ _ _ Hm) as (d' & _ & Hd' & _ & Hfp).
        rewrite Nat.sub_0_r in Hd'. eauto.
    + destruct (most_free footprint 0 ds) as [[k' f]|] eqn:Hm; [|discriminate].
      intros [= <-]. destruct (most_free_fits _ _ _ _ _ Hm) as (d' & _ & Hd' & _ & Hfp).
      rewrite Nat.sub_0_r in Hd'. eauto.
  - destruct (most_free footprint 0 ds) as [[k' f]|] eqn:Hm; [|discriminate].
    intros [= <-]. destruct (most_free_fits _ _ _ _ _ Hm) as (d' & _ & Hd' & _ & Hfp).
    rewrite Nat.sub_0_r in Hd'. eauto.
Qed.

Lemma amount_whole n k footprint i :
  amount (whole n k footprint) i = if decide (i = k /\ k < n) then footprint else 0.
Proof.
  unfold amount, whole. rewrite nth_lookup.
  destruct (decide (i = k /\ k < n)) as [[-> Hk]|Hne].
  - rewrite list_lookup_insert_eq by now rewrite length_replicate. reflexivity.
  - destruct (decide (i = k)) as [->|Hik].
    + rewrite list_insert_ge by (rewrite length_replicate; lia).
      destruct (replicate n 0 !! k) eqn:E; [|reflexivity].
      apply lookup_replicate in E. tauto.
    + rewrite list_lookup_insert_ne by auto.
      destruct (replicate n 0 !! i) eqn:E; [|reflexivity].
      apply lookup_replicate in E. simpl. tauto.
Qed.

Lemma whole_total n : forall k footprint,
  k < n -> sum_list (whole n k footprint) = footprint.
Proof.
  assert (Hz : forall m, sum_list (replicate m 0) = 0).
  { induction m as [|m IHm]; simpl; auto. }
  unfold whole. induction n as [|n IH]; intros k footprint Hk; [lia|].
  destruct k as [|k]; simpl.
  - rewrite Hz. lia.
  - rewrite IH by lia. reflexivity.
Qed.

Lemma top_up_fits : forall frees base left,
  Forall2 le base frees -> Forall2 le (top_up left frees base) frees.
Proof.
  induction frees as [|f frees IH]; intros base left Hle.
  - destruct base; simpl; constructor.
  - destruct base as [|s base]; [inversion Hle|].
    inversion Hle; subst. simpl. constructor; [lia | now apply IH].
Qed.

Lemma top_up_total : forall frees base left,
  Forall2 le base frees ->
  left + sum_list base <= sum_list frees ->
  sum_list (top_up left frees base) = left + sum_list base.
Proof.
  induction frees as [|f frees IH]; intros base left Hle Hroom.
  - inversion Hle; subst. simpl in *. lia.
  - destruct base as [|s base]; [inversion Hle|].
    inversion Hle; subst. simpl in *.
    assert (Hrest : sum_list base <= sum_list frees).
    { clear -H4. induction H4; simpl; lia. }
    rewrite IH by (auto; lia). lia.
Qed.

Lemma share_le footprint f all_free :
  footprint <= all_free -> footprint * f / all_free <= f.
Proof.
  intros Hle. destruct all_free as [|n]; [simpl; lia|].
  apply Nat.Div0.div_le_upper_bound. nia.
Qed.

Lemma shares_fit footprint (frees : list nat) all_free :
  footprint <= all_free ->
  Forall2 le ((fun f => footprint * f / all_free) <$> frees) frees.
Proof.
  intros Hle. induction frees as [|f frees IH]; simpl; constructor; auto.
  now apply share_le.
Qed.

Lemma shares_total footprint (frees : list nat) all_free :
  all_free * sum_list ((fun f => footprint * f / all_free) <$> frees)
  <= footprint * sum_list frees.
Proof.
  induction frees as [|f frees IH]; [simpl; lia|].
  rewrite fmap_cons. cbn [sum_list_with id].
  rewrite !Nat.mul_add_distr_l.
  apply Nat.add_le_mono; [apply Nat.Div0.mul_div_le | exact IH].
Qed.

Lemma shares_bound footprint (frees : list nat) :
  sum_list ((fun f => footprint * f / sum_list frees) <$> frees) <= footprint.
Proof.
  destruct (sum_list frees) as [|n] eqn:E.
  - assert (H0 : forall l : list nat,
               sum_list ((fun f => footprint * f / 0) <$> l) = 0).
    { induction l as [|f l IH]; [reflexivity|].
      rewrite fmap_cons. cbn [sum_list_with id]. now rewrite IH. }
    rewrite H0. lia.
  - pose proof (shares_total footprint frees (S n)) as Ht. rewrite E in Ht.
    apply (Nat.mul_le_mono_pos_l _ _ (S n)); lia.
Qed.

Lemma split_fits footprint ds :
  footprint <= sum_list (free <$> ds) ->
  Forall2 le (split footprint ds) (free <$> ds).
Proof. intros Hle. unfold split. now apply top_up_fits, shares_fit. Qed.

(** A sharded allocation places the whole footprint. *)
Lemma split_total footprint ds :
  footprint <= sum_list (free <$> ds) ->
  sum_list (split footprint ds) = footprint.
Proof.
  intros Hle. unfold split.
  pose proof (shares_bound footprint (free <$> ds)) as Hbase.
  rewrite top_up_total; [lia | now apply shares_fit | lia].
Qed.

Lemma Forall2_le_amount (a frees : list nat) i :
  Forall2 le a frees -> amount a i <= nth i frees 0.
Proof.
  intros H. revert i. induction H; intros [|i]; simpl; auto.
  apply IHForall2.
Qed.

(** What [reserve] grants fits in the free memory of every device. *)
Lemma reserve_fits ds footprint preferred shardable a :
  reserve ds footprint preferred shardable = Some a ->
  forall i d, ds !! i = Some d -> amount a i <= free d.
Proof.
  unfold reserve. destruct (place ds footprint preferred) as [k|] eqn:Hplace.
  - intros [= <-] i d Hd. rewrite amount_whole.
    destruct (place_fits _ _ _ _ Hplace) as (d' & Hd' & Hfp).
    destruct (decide _) as [[-> _]|_]; [|lia]. congruence.
  - destruct shardable; simpl; [|discriminate].
    destruct (Nat.leb_spec footprint (sum_list (free <$> ds))) as [Hle|]; [|discriminate].
    intros [= <-] i d Hd.
    pose proof (Forall2_le_amount _ _ i (split_fits _ _ Hle)) as Hi.
    assert (nth i (free <$> ds) 0 = free d) as <-; [|exact Hi].
    apply nth_lookup_Some with (d := 0). now rewrite list_lookup_fmap, Hd.
Qed.

(** What [reserve] grants adds up to the footprint asked for. *)
Lemma reserve_total ds footprint preferred shardable a :
  reserve ds footprint preferred shardable = Some a ->
  sum_list a = footprint.
Proof.
  unfold reserve. destruct (place ds footprint preferred) as [k|] eqn:Hplace.
  - intros [= <-].
    destruct (place_fits _ _ _ _ Hplace) as (d & Hd & _).
    apply lookup_lt_Some in Hd. now apply whole_total.
  - destruct shardable; simpl; [|discriminate].
    destruct (Nat.leb_spec footprint (sum_list (free <$> ds))) as [Hle|]; [|discriminate].
    intros [= <-]. now apply split_total.
Qed.

Lemma grant_lookup ds a i :
  grant ds a !! i =
  (fun d => Device (total d) (allocated d + amount a i)) <$> ds !! i.
Proof. unfold grant. apply list_lookup_imap. Qed.

Lemma release_lookup ds a i :
  release ds a !! i =
  (fun d => Device (total d) (allocated d - amount a i)) <$> ds !! i.
Proof. unfold release. apply list_lookup_imap. Qed.

End GpuFacts.

(** ** Lifecycle Manager: the bookkeeping stays consistent *)
Section Usage.

Import Lifecycle.

Lemma usage_empty (sel : instance -> bool) (d : nat) : usage sel ∅ d = 0.
Proof. unfold usage. now rewrite map_to_list_empty. Qed.

Lemma usage_delete (sel : instance -> bool) (tbl : gmap string instance) i x d :
  tbl !! i = Some x ->
  usage sel tbl d =
  (if sel x then Gpu.amount (gpus x) d else 0) + usage sel (delete i tbl) d.
Proof.
  intros Hi. unfold usage.
  rewrite <- (map_to_list_delete tbl i x Hi). reflexivity.
Qed.

Lemma usage_insert_fresh (sel : instance -> bool) (tbl : gmap string instance) i x d :
  tbl !! i = None ->
  usage sel (<[i := x]> tbl) d =
  (if sel x then Gpu.amount (gpus x) d else 0) + usage sel tbl d.
Proof.
  intros Hi. unfold usage.
  rewrite (map_to_list_insert tbl i x Hi). reflexivity.
Qed.

Lemma usage_insert (sel : instance -> bool) (tbl : gmap string instance) i x d :
  usage sel (<[i := x]> tbl) d =
  (if sel x then Gpu.amount (gpus x) d else 0) + usage sel (delete i tbl) d.
Proof.
  rewrite <- (insert_delete_eq tbl i x).
  apply usage_insert_fresh, lookup_delete_eq.
Qed.

(** Replacing an instance by one that holds the same memory changes no
    device's usage. *)
Lemma usage_replace (sel : instance -> bool) (tbl : gmap string instance) i x y d :
  tbl !! i = Some x ->
  (if sel y then Gpu.amount (gpus y) d else 0) =
  (if sel x then Gpu.amount (gpus x) d else 0) ->
  usage sel (<[i := y]> tbl) d = usage sel tbl d.
Proof.
  intros Hi Heq. rewrite usage_insert, (usage_delete sel tbl i x d Hi). lia.
Qed.


End Usage.
Section Candidates.

Import Lifecycle.

#[local] Instance lru_le_total : Total lru_le.
Proof. intros x y. unfold lru_le. lia. Qed.

#[local] Instance lru_le_trans : Transitive lru_le.
Proof. intros x y z. unfold lru_le. lia. Qed.

Lemma elem_of_candidates (tbl : gmap string instance) v :
  v ∈ candidates tbl <-> evictable v = true /\ exists k, tbl !! k = Some v.
Proof.
  unfold candidates. rewrite merge_sort_Permutation, list_elem_of_filter.
  rewrite list_elem_of_fmap. split.
  - intros [He [[k x] [-> Hin]]]. apply elem_of_map_to_list in Hin. eauto.
  - intros [He [k Hk]]. split; [exact He|].
    exists (k, v). split; [reflexivity|]. now apply elem_of_map_to_list.
Qed.

Lemma candidates_sorted (tbl : gmap string instance) :
  StronglySorted lru_le (candidates tbl).
Proof. apply StronglySorted_merge_sort; apply _. Qed.

Lemma candidates_NoDup (tbl : gmap string instance) :
  (forall i x, tbl !! i = Some x -> ident x = i) ->
  NoDup (ident <$> candidates tbl).
Proof.
  intros Hkey. unfold candidates. rewrite merge_sort_Permutation.
  apply (sublist_NoDup _ (ident <$> (map_to_list tbl).*2)).
  - rewrite <- list_fmap_compose.
    rewrite (list_fmap_ext (ident ∘ snd) fst).
    + apply NoDup_fst_map_to_list.
    + intros j [k x] Hj. simpl. apply Hkey, elem_of_map_to_list.
      eapply list_elem_of_lookup_2; eauto.
  - apply fmap_sublist, sublist_filter.
Qed.

End Candidates.
Section Eviction.

Import Lifecycle.

Lemma evict_all_table vs : forall m i,
  table (evict_all vs m) !! i =
  if decide (i ∈ ident <$> vs) then None else table m !! i.
Proof.
  induction vs as [|v vs IH]; intros m i.
  - change (evict_all [] m) with m.
    destruct (decide (i ∈ ident <$> [])) as [Hin|_]; [|reflexivity].
    now apply elem_of_nil in Hin.
  - change (evict_all (v :: vs) m) with (evict_all vs (evict v m)).
    rewrite IH, fmap_cons. cbn [evict table].
    destruct (decide (i ∈ ident <$> vs)) as [Hin|Hnin].
    + rewrite decide_True; [reflexivity | now apply elem_of_cons; right].
    + destruct (decide (i = ident v)) as [->|Hne].
      * rewrite lookup_delete_eq, decide_True; [reflexivity | apply elem_of_cons; auto].
      * rewrite lookup_delete_ne by auto.
        rewrite decide_False; [reflexivity|].
        intros [?|?]%elem_of_cons; auto.
Qed.

Lemma evict_all_history vs : forall m,
  history (evict_all vs m) = history m ++ ((fun v => Evicted (ident v)) <$> vs).
Proof.
  induction vs as [|v vs IH]; intros m; simpl.
  - now rewrite app_nil_r.
  - rewrite IH. simpl. now rewrite <- app_assoc.
Qed.

Lemma evict_all_seq vs : forall m, seq (evict_all vs m) = seq m.
Proof. induction vs as [|v vs IH]; intros m; simpl; [reflexivity | now rewrite IH]. Qed.


(** The eviction loop evicts a prefix of its candidates: it stops at the
    first reservation that succeeds, and goes through every candidate when
    none does. *)
Lemma evict_loop_prefix cands : forall m need sh r m',
  evict_loop cands m need sh = (r, m') ->
  exists victims rest,
    cands = victims ++ rest /\
    m' = evict_all victims m /\
    r = Gpu.reserve (devices m') need None sh /\
    (r = None -> rest = []) /\
    (forall pre v post, victims = pre ++ v :: post ->
       Gpu.reserve (devices (evict_all pre m)) need None sh = None).
Proof.
  induction cands as [|v cands IH]; intros m need sh r m'; simpl.
  - destruct (Gpu.reserve (devices m) need None sh) as [a|] eqn:Hres;
      intros [= <- <-]; exists [], []; repeat split; auto;
      intros [|? ?] ? ? ?; discriminate.
  - destruct (Gpu.reserve (devices m) need None sh) as [a|] eqn:Hres.
    + intros [= <- <-]. exists [], (v :: cands). repeat split; auto.
      * discriminate.
      * intros [|? ?] ? ? ?; discriminate.
    + intros Hloop. destruct (IH _ _ _ _ _ Hloop) as (vs & rest & -> & -> & Hr & Hnone & Hpre).
      exists (v :: vs), rest. repeat split; auto.
      intros [|w pre] u post Heq; simpl in *.
      * exact Hres.
      * injection Heq as <- ->. eapply Hpre. reflexivity.
Qed.

(** Evicting an instance that the table holds keeps the books straight. *)
Lemma evict_consistent v m :
  consistent m ->
  table m !! ident v = Some v ->
  holds_memory v = true ->
  consistent (evict v m).
Proof.
  intros [Hkey Hdev] Hv Hmem. split.
  - intros i x. simpl. intros [_ Hx]%lookup_delete_Some. now apply Hkey.
  - intros d dev. simpl. rewrite release_lookup.
    destruct (devices m !! d) as [dev0|] eqn:Hd; [|discriminate].
    intros [= <-]. simpl.
    destruct (Hdev d dev0 Hd) as [Halloc Hcap].
    rewrite (usage_delete holds_memory (table m) (ident v) v d Hv), Hmem in Halloc.
    lia.
Qed.

Lemma evict_all_consistent vs : forall m,
  consistent m ->
  (forall v, v ∈ vs -> table m !! ident v = Some v /\ holds_memory v = true) ->
  NoDup (ident <$> vs) ->
  consistent (evict_all vs m).
Proof.
  induction vs as [|v vs IH]; intros m Hm Hvs Hnd; simpl; [exact Hm|].
  rewrite fmap_cons in Hnd. apply NoDup_cons in Hnd as [Hv Hnd].
  destruct (Hvs v) as [Htv Hmv]; [apply elem_of_cons; auto|].
  apply IH; [now apply evict_consistent | | exact Hnd].
  intros u Hu. destruct (Hvs u) as [Htu Hmu]; [apply elem_of_cons; auto|].
  split; [|exact Hmu]. simpl. rewrite lookup_delete_ne; [exact Htu|].
  intros Heq. apply Hv. rewrite Heq. now apply list_elem_of_fmap_2.
Qed.

End Eviction.
Section Consistency.

Import Lifecycle.

Lemma lookup_in_Some s i m x :
  lookup_in s i m = Some x -> table m !! i = Some x /\ s (state x) = true.
Proof.
  unfold lookup_in. destruct (table m !! i) as [y|]; [|discriminate].
  destruct (s (state y)) eqn:Hs; [|discriminate]. now intros [= <-].
Qed.

(** Swapping an instance for one that holds the same memory. *)
Lemma consistent_replace m i x y n h :
  consistent m ->
  table m !! i = Some x ->
  ident y = i ->
  (forall d, (if holds_memory y then Gpu.amount (gpus y) d else 0) =
             (if holds_memory x then Gpu.amount (gpus x) d else 0)) ->
  consistent (Manager (<[i := y]> (table m)) (devices m) n h).
Proof.
  intros [Hkey Hdev] Hx Hy Hsame. split; simpl.
  - intros j z [[<- <-]|[_ Hz]]%lookup_insert_Some; [exact Hy | now apply Hkey].
  - intros d dev Hd. rewrite (usage_replace _ _ _ x y d Hx (Hsame d)).
    now apply Hdev.
Qed.

Lemma consistent_create m i au pin now :
  consistent m ->
  (forall x, table m !! i = Some x -> holds_memory x = false) ->
  consistent (create i au pin now m).
Proof.
  intros [Hkey Hdev] Hold. split; simpl.
  - intros j z [[<- <-]|[_ Hz]]%lookup_insert_Some; [reflexivity | now apply Hkey].
  - intros d dev Hd. rewrite usage_insert. simpl.
    destruct (Hdev d dev Hd) as [Ha Hc]. split; [|exact Hc].
    rewrite Ha. destruct (table m !! i) as [x|] eqn:Hi.
    + rewrite (usage_delete _ _ _ _ d Hi), (Hold x eq_refl). reflexivity.
    + now rewrite delete_id.
Qed.

Lemma consistent_teardown m x :
  consistent m ->
  table m !! ident x = Some x ->
  consistent (teardown x m).
Proof.
  intros [Hkey Hdev] Hx. split; simpl.
  - intros i y [_ Hy]%lookup_delete_Some. now apply Hkey.
  - intros d dev.
    pose proof (usage_delete holds_memory _ _ _ d Hx) as Hu.
    destruct (holds_memory x) eqn:Hmem.
    + rewrite release_lookup.
      destruct (devices m !! d) as [dev0|] eqn:Hd; [|discriminate].
      intros [= <-]. simpl. destruct (Hdev d dev0 Hd). lia.
    + intros Hd. destruct (Hdev d dev Hd). lia.
Qed.

Lemma consistent_log es m : consistent m -> consistent (log es m).
Proof. intros [? ?]. split; assumption. Qed.

End Consistency.

(** Closes the side conditions of [consistent_replace] for an instance [x]
    of a consistent manager, leaving the comparison of the memory held. *)
Ltac same_memory x Hm :=
  apply (consistent_replace _ _ x);
  [ exact Hm | assumption | simpl; now apply (proj1 Hm) | intros ?d; simpl ].

Section StepConsistency.

Import Lifecycle.

(** Reservation with eviction leaves consistent books, never touches an
    instance that is not evictable, and grants only what fits. *)
Lemma reserve_with_eviction_consistent m need sh r m' :
  consistent m ->
  reserve_with_eviction m need sh = (r, m') ->
  consistent m' /\
  seq m' = seq m /\
  (forall i x, table m !! i = Some x -> evictable x = false ->
     table m' !! i = Some x) /\
  (forall i x, table m' !! i = Some x -> table m !! i = Some x) /\
  r = Gpu.reserve (devices m') need None sh.
Proof.
  intros Hm Hloop. unfold reserve_with_eviction in Hloop.
  destruct (evict_loop_prefix _ _ _ _ _ _ Hloop)
    as (victims & rest & Hcands & -> & Hr & _ & _).
  assert (Hin : forall v, v ∈ victims ->
            table m !! ident v = Some v /\ evictable v = true).
  { intros v Hv.
    assert (Hc : v ∈ candidates (table m))
      by (rewrite Hcands; apply elem_of_app; now left).
    apply elem_of_candidates in Hc as [He [k Hk]].
    destruct Hm as [Hkey _]. now rewrite (Hkey k v Hk). }
  split; [|split; [|split; [|split]]].
  - apply evict_all_consistent; [exact Hm | |].
    + intros v Hv. destruct (Hin v Hv) as [Ht He]. split; [exact Ht|].
      unfold evictable, in_lru in He. unfold holds_memory.
      destruct (state v); simpl in He; try discriminate; reflexivity.
    + pose proof (candidates_NoDup (table m) (proj1 Hm)) as Hnd.
      rewrite Hcands, fmap_app in Hnd. now apply NoDup_app in Hnd as [? _].
  - apply evict_all_seq.
  - intros i x Hx Hne. rewrite evict_all_table.
    destruct (decide (i ∈ ident <$> victims)) as [Hi|_]; [|exact Hx].
    apply list_elem_of_fmap in Hi as [v [-> Hv]].
    destruct (Hin v Hv) as [Ht He]. congruence.
  - intros i x. rewrite evict_all_table.
    destruct (decide (i ∈ ident <$> victims)); [discriminate | auto].
  - exact Hr.
Qed.

(** Every step of the manager keeps its books consistent. *)
Lemma step_consistent p m l m' :
  consistent m -> step p m l = Some m' -> consistent m'.
Proof.
  intros Hm. destruct l as [i au pin now|i e|i err|i|i err|i|i|i|i|i]; simpl.
  - destruct (table m !! i) as [x|] eqn:Hi.
    + destruct (in_lru x) eqn:Hlru.
      { intros [= <-]. apply consistent_log.
        same_memory x Hm. reflexivity. }
      destruct (in_flight x) eqn:Hfl.
      { intros [= <-]. apply consistent_log.
        same_memory x Hm. reflexivity. }
      intros [= <-]. apply consistent_create; [exact Hm|].
      intros y Hy. assert (y = x) as -> by congruence.
      unfold in_lru, in_flight, holds_memory in *. now destruct (state x).
    + intros [= <-]. apply consistent_create; [exact Hm|]. congruence.
  - destruct (lookup_in _ i m) as [x|] eqn:Hl; [|discriminate]. simpl.
    intros [= <-]. apply lookup_in_Some in Hl as [Hx Hs].
    apply consistent_log. same_memory x Hm.
    unfold holds_memory. now destruct (state x).
  - destruct (lookup_in _ i m) as [x|] eqn:Hl; [|discriminate]. simpl.
    intros [= <-]. apply lookup_in_Some in Hl as [Hx Hs].
    apply consistent_log, consistent_teardown; [exact Hm|].
    now rewrite (proj1 Hm i x Hx).
  - destruct (lookup_in _ i m) as [x|] eqn:Hl; [|discriminate]. simpl.
    apply lookup_in_Some in Hl as [Hx Hs].
    destruct (entry x) as [e|]; [|discriminate]. simpl.
    set (x1 := set_gpus [] (estimate p e) (set_state Loading x)).
    set (m1 := log _ _).
    assert (Hm1 : consistent m1).
    { apply consistent_log. same_memory x Hm.
      unfold holds_memory. destruct (state x); try discriminate.
      unfold Gpu.amount. now destruct d. }
    assert (Hx1 : table m1 !! i = Some x1) by apply lookup_insert_eq.
    destruct (reserve_with_eviction m1 _ _) as [[a|] m2] eqn:Hres;
      destruct (reserve_with_eviction_consistent _ _ _ _ _ Hm1 Hres)
        as (Hm2 & Hseq & Hkeep & Hsub & Hr);
      assert (Hx2 : table m2 !! i = Some x1) by (apply Hkeep; auto);
      assert (Hi : ident x = i) by now apply (proj1 Hm).
    + intros [= <-]. destruct Hm2 as [Hkey2 Hdev2]. split; simpl.
      * intros j z [[<- <-]|[_ Hz]]%lookup_insert_Some; [exact Hi | now apply Hkey2].
      * intros d dev. rewrite grant_lookup.
        destruct (devices m2 !! d) as [dev0|] eqn:Hd; [|discriminate].
        intros [= <-]. simpl. destruct (Hdev2 d dev0 Hd) as [Ha Hc].
        rewrite usage_insert. simpl.
        rewrite (usage_delete holds_memory _ _ _ d Hx2) in Ha. simpl in Ha.
        pose proof (reserve_fits _ _ _ _ _ (eq_sym Hr) d dev0 Hd) as Hfit.
        unfold Gpu.free in Hfit.
        assert (Gpu.amount [] d = 0) as Hz by (unfold Gpu.amount; now destruct d).
        lia.
    + intros [= <-]. apply consistent_log.
      destruct Hm2 as [Hkey2 Hdev2]. split; simpl.
      * intros j z [_ Hz]%lookup_delete_Some. now apply Hkey2.
      * intros d dev Hd. destruct (Hdev2 d dev Hd) as [Ha Hc].
        rewrite (usage_delete holds_memory _ _ _ d Hx2) in Ha. simpl in Ha.
        assert (Gpu.amount [] d = 0) as Hz by (unfold Gpu.amount; now destruct d).
        lia.
  - destruct (lookup_in _ i m) as [x|] eqn:Hl; [|discriminate]. simpl.
    intros [= <-]. apply lookup_in_Some in Hl as [Hx Hs].
    apply consistent_log, consistent_teardown; [exact Hm|].
    now rewrite (proj1 Hm i x Hx).
  - destruct (lookup_in _ i m) as [x|] eqn:Hl; [|discriminate]. simpl.
    intros [= <-]. apply lookup_in_Some in Hl as [Hx Hs].
    apply consistent_log. same_memory x Hm.
    unfold holds_memory. now destruct (state x).
  - destruct (lookup_in _ i m) as [x|] eqn:Hl; [|discriminate]. simpl.
    intros [= <-]. apply lookup_in_Some in Hl as [Hx Hs].
    apply consistent_log, consistent_teardown; [exact Hm|].
    now rewrite (proj1 Hm i x Hx).
  - destruct (lookup_in _ i m) as [x|] eqn:Hl; [|discriminate]. simpl.
    apply lookup_in_Some in Hl as [Hx Hs].
    destruct (Nat.ltb 0 (refcount x)); [|discriminate].
    intros [= <-]. apply consistent_log. same_memory x Hm.
    unfold holds_memory. now destruct (state x).
  - destruct (lookup_in _ i m) as [x|] eqn:Hl; [|discriminate]. simpl.
    apply lookup_in_Some in Hl as [Hx Hs].
    destruct (Nat.ltb 0 (refcount x)); [|discriminate].
    intros [= <-]. same_memory x Hm. unfold holds_memory, unref. simpl.
    destruct (state x); try discriminate;
      destruct (refcount x) as [|[|?]]; reflexivity.
  - destruct (lookup_in _ i m) as [x|] eqn:Hl; [|discriminate]. simpl.
    apply lookup_in_Some in Hl as [Hx Hs].
    destruct (Nat.eqb (refcount x) 0); intros [= <-].
    + apply consistent_log, consistent_teardown; [exact Hm|].
      now rewrite (proj1 Hm i x Hx).
    + now apply consistent_log.
Qed.

Lemma init_consistent totals : consistent (init (inventory totals)).
Proof.
  split; simpl.
  - intros i x. now rewrite lookup_empty.
  - intros d dev. unfold inventory. rewrite list_lookup_fmap.
    destruct (totals !! d); [|discriminate]. intros [= <-]. simpl.
    rewrite usage_empty. lia.
Qed.

Lemma run_consistent p ls : forall m m',
  consistent m -> run p m ls = Some m' -> consistent m'.
Proof.
  induction ls as [|l ls IH]; intros m m' Hm; simpl.
  - now intros [= <-].
  - destruct (step p m l) as [m1|] eqn:Hstep; [|discriminate].
    apply IH. eapply step_consistent; eauto.
Qed.

End StepConsistency.
Section Capacity.

Import Lifecycle.










End Capacity.


Section LruOrder.

Import Lifecycle.

Lemma evictions_app h1 h2 : evictions (h1 ++ h2) = evictions h1 ++ evictions h2.
Proof. unfold evictions. apply omap_app. Qed.

Lemma evictions_evicted (vs : list instance) :
  evictions ((fun v => Evicted (ident v)) <$> vs) = ident <$> vs.
Proof.
  unfold evictions. induction vs as [|v vs IH]; [reflexivity|].
  rewrite fmap_cons. cbn [omap list_omap]. rewrite fmap_cons. f_equal. exact IH.
Qed.

(** Eviction under pressure takes its victims from the head of the
    candidate list and stops as soon as the reservation goes through. *)
Lemma reserve_with_eviction_lru m need sh r m' :
  consistent m ->
  reserve_with_eviction m need sh = (r, m') ->
  exists victims,
    m' = evict_all victims m /\
    (forall v, v ∈ victims -> table m !! ident v = Some v /\ evictable v = true) /\
    StronglySorted lru_le victims /\
    (forall v u, v ∈ victims -> table m' !! ident u = Some u ->
       evictable u = true -> lru_le v u) /\
    (r = None -> forall i x, table m' !! i = Some x -> evictable x = false) /\
    (victims <> [] -> Gpu.reserve (devices m) need None sh = None).
Proof.
  intros Hm Hloop. unfold reserve_with_eviction in Hloop.
  destruct (evict_loop_prefix _ _ _ _ _ _ Hloop)
    as (victims & rest & Hcands & -> & Hr & Hnone & Hpre).
  pose proof (candidates_sorted (table m)) as Hsorted.
  pose proof (candidates_NoDup (table m) (proj1 Hm)) as Hnd.
  rewrite Hcands in Hsorted, Hnd.
  assert (Hin : forall v, v ∈ victims ++ rest ->
            table m !! ident v = Some v /\ evictable v = true).
  { intros v Hv. rewrite <- Hcands in Hv.
    apply elem_of_candidates in Hv as [He [k Hk]].
    destruct Hm as [Hkey _]. now rewrite (Hkey k v Hk). }
  exists victims. split; [reflexivity|]. split; [|split; [|split; [|split]]].
  - intros v Hv. apply Hin, elem_of_app. now left.
  - eapply StronglySorted_app_1_l; eauto.
  - intros v u Hv Hu He. rewrite evict_all_table in Hu.
    destruct (decide (ident u ∈ ident <$> victims)) as [|Hnin]; [discriminate|].
    assert (Hc : u ∈ candidates (table m)) by (apply elem_of_candidates; eauto).
    rewrite Hcands in Hc. apply elem_of_app in Hc as [Hc|Hc].
    + exfalso. apply Hnin. now apply list_elem_of_fmap_2.
    + eapply StronglySorted_app_1_elem_of; eauto.
  - intros -> i x Hx. rewrite (Hnone eq_refl), app_nil_r in Hcands.
    rewrite evict_all_table in Hx.
    destruct (decide (i ∈ ident <$> victims)) as [|Hnin]; [discriminate|].
    destruct (evictable x) eqn:He; [|reflexivity].
    exfalso. apply Hnin.
    assert (Hc : x ∈ candidates (table m)) by (apply elem_of_candidates; eauto).
    rewrite Hcands in Hc.
    destruct Hm as [Hkey _]. rewrite <- (Hkey i x Hx).
    now apply list_elem_of_fmap_2.
  - intros Hne. destruct victims as [|v vs]; [congruence|].
    apply (Hpre [] v vs eq_refl).
Qed.

(** A step other than the end of a download evicts nothing. *)
Lemma step_no_eviction p m l m' :
  (forall i, l <> Downloaded i) ->
  step p m l = Some m' ->
  exists new, history m' = history m ++ new /\ evictions new = [].
Proof.
  intros Hl.
  destruct l as [i au pin now|i e|i err|i|i err|i|i|i|i|i]; simpl;
    try (exfalso; eapply Hl; reflexivity).
  - destruct (table m !! i) as [x|];
      [destruct (in_lru x); [|destruct (in_flight x)]|];
      intros [= <-]; eexists; split; reflexivity.
  - destruct (lookup_in _ i m) as [x|]; [|discriminate].
    intros [= <-]; eexists; split; reflexivity.
  - destruct (lookup_in _ i m) as [x|]; [|discriminate].
    intros [= <-]; eexists; split; reflexivity.
  - destruct (lookup_in _ i m) as [x|]; [|discriminate].
    intros [= <-]; eexists; split; reflexivity.
  - destruct (lookup_in _ i m) as [x|]; [|discriminate].
    intros [= <-]; eexists; split; reflexivity.
  - destruct (lookup_in _ i m) as [x|]; [|discriminate].
    intros [= <-]; eexists; split; reflexivity.
  - destruct (lookup_in _ i m) as [x|]; [|discriminate]. simpl.
    destruct (Nat.ltb 0 (refcount x)); [|discriminate].
    intros [= <-]; eexists; split; reflexivity.
  - destruct (lookup_in _ i m) as [x|]; [|discriminate]. simpl.
    destruct (Nat.ltb 0 (refcount x)); [|discriminate].
    intros [= <-]. exists []. simpl. now rewrite app_nil_r.
  - destruct (lookup_in _ i m) as [x|]; [|discriminate]. simpl.
    destruct (Nat.eqb (refcount x) 0);
      intros [= <-]; eexists; split; reflexivity.
Qed.

End LruOrder.

(** C3.  Whenever a step of a run evicts, the victims are evictable
    instances of the table (in the LRU index, reference count zero, not
    pinned), taken in least-recently-accessed order with creation order
    breaking ties: every victim precedes, in that order, the victims after
    it and every evictable instance that survives.  A pinned or referenced
    instance is never among the victims, whatever the pressure. *)
Theorem eviction_least_recently_used
    (p : Lifecycle.policy) (totals : list nat) (ls : list Lifecycle.label)
    (m : Lifecycle.manager) (l : Lifecycle.label) (m' : Lifecycle.manager) :
  Lifecycle.run p (Lifecycle.init (Lifecycle.inventory totals)) ls = Some m ->
  Lifecycle.step p m l = Some m' ->
  exists (new : list Lifecycle.event) (victims : list Lifecycle.instance),
    Lifecycle.history m' = Lifecycle.history m ++ new /\
    Lifecycle.evictions new = Lifecycle.ident <$> victims /\
    (forall v, v ∈ victims ->
       Lifecycle.table m !! Lifecycle.ident v = Some v /\
       Lifecycle.in_lru v = true /\
       Lifecycle.refcount v = 0 /\
       Lifecycle.pinned v = false /\
       Lifecycle.table m' !! Lifecycle.ident v = None) /\
    StronglySorted Lifecycle.lru_le victims /\
    (forall v u, v ∈ victims ->
       Lifecycle.table m' !! Lifecycle.ident u = Some u ->
       Lifecycle.evictable u = true ->
       Lifecycle.lru_le v u) /\
    (forall i x, Lifecycle.table m !! i = Some x ->
       Lifecycle.pinned x = true \/ Lifecycle.refcount x <> 0 ->
       i ∉ Lifecycle.evictions new).
Proof.
  intros Hrun Hstep.
  assert (Hm : Lifecycle.consistent m)
    by (eapply run_consistent; [apply init_consistent | exact Hrun]).
  assert (Hcase : (exists i, l = Lifecycle.Downloaded i) \/
                  (forall i, l <> Lifecycle.Downloaded i)).
  { destruct l; try (right; discriminate). left. eexists. reflexivity. }
  destruct Hcase as [[i ->]|Hl].
  2: { destruct (step_no_eviction _ _ _ _ Hl Hstep) as (new & Hh & He).
       exists new, []. rewrite He.
       split; [exact Hh|]. split; [reflexivity|].
       split; [intros v Hv; now apply elem_of_nil in Hv|].
       split; [constructor|].
       split; [intros v u Hv; now apply elem_of_nil in Hv|].
       intros j y _ _ Hv. now apply elem_of_nil in Hv. }
  simpl in Hstep.
  destruct (Lifecycle.lookup_in _ i m) as [x|] eqn:Hl; [|discriminate].
  simpl in Hstep. apply lookup_in_Some in Hl as [Hx Hs].
  destruct (Lifecycle.entry x) as [e|]; [|discriminate]. simpl in Hstep.
  set (x1 := Lifecycle.set_gpus [] (Lifecycle.estimate p e)
               (Lifecycle.set_state Lifecycle.Loading x)) in *.
  set (m1 := Lifecycle.log _ _) in Hstep.
  assert (Hm1 : Lifecycle.consistent m1).
  { apply consistent_log. same_memory x Hm.
    unfold Lifecycle.holds_memory. destruct (Lifecycle.state x); try discriminate.
    unfold Gpu.amount. now destruct d. }
  assert (Hx1 : ~ Lifecycle.evictable x1 = true) by (simpl; discriminate).
  destruct (Lifecycle.reserve_with_eviction m1 _ _) as [r m2] eqn:Hres.
  destruct (reserve_with_eviction_lru _ _ _ _ _ Hm1 Hres)
    as (victims & Hm2 & Hin & Hsorted & Hfirst & _ & _).
  assert (Hvic : forall v, v ∈ victims ->
            Lifecycle.ident v <> i /\
            Lifecycle.table m !! Lifecycle.ident v = Some v /\
            Lifecycle.evictable v = true).
  { intros v Hv. destruct (Hin v Hv) as [Ht He]. simpl in Ht.
    apply lookup_insert_Some in Ht as [[_ <-]|[Hne Ht]]; [contradiction|].
    auto. }
  assert (Hhist : Lifecycle.history m2 =
            Lifecycle.history m ++ [Lifecycle.Phase i Lifecycle.Loading] ++
            ((fun v => Lifecycle.Evicted (Lifecycle.ident v)) <$> victims)).
  { rewrite Hm2, evict_all_history. simpl. now rewrite <- app_assoc. }
  assert (Hgone : forall v, v ∈ victims ->
            Lifecycle.table m2 !! Lifecycle.ident v = None).
  { intros v Hv. rewrite Hm2, evict_all_table.
    rewrite decide_True; [reflexivity | now apply list_elem_of_fmap_2]. }
  assert (Hprops : forall v, v ∈ victims ->
            Lifecycle.table m !! Lifecycle.ident v = Some v /\
            Lifecycle.in_lru v = true /\
            Lifecycle.refcount v = 0 /\
            Lifecycle.pinned v = false).
  { intros v Hv. destruct (Hvic v Hv) as (_ & Ht & He).
    unfold Lifecycle.evictable in He.
    apply andb_true_iff in He as [He Hp]. apply andb_true_iff in He as [Hlru Hrc].
    apply Nat.eqb_eq in Hrc. apply negb_true_iff in Hp. auto. }
  assert (Hnever : forall j y, Lifecycle.table m !! j = Some y ->
            Lifecycle.pinned y = true \/ Lifecycle.refcount y <> 0 ->
            j ∉ Lifecycle.ident <$> victims).
  { intros j y Hy Hheld Hj. apply list_elem_of_fmap in Hj as [v [-> Hv]].
    destruct (Hprops v Hv) as (Ht & _ & Hrc & Hp).
    assert (y = v) as -> by congruence.
    destruct Hheld as [Hpin|Href]; congruence. }
  destruct r as [a|]; injection Hstep as <-; simpl.
  - exists ([Lifecycle.Phase i Lifecycle.Loading] ++
            ((fun v => Lifecycle.Evicted (Lifecycle.ident v)) <$> victims)), victims.
    split; [exact Hhist|]. split; [|split; [|split; [|split]]].
    + rewrite evictions_app. simpl. apply evictions_evicted.
    + intros v Hv. destruct (Hprops v Hv) as (Ht & Hlru & Hrc & Hp).
      repeat split; auto.
      rewrite lookup_insert_ne by (apply not_eq_sym, (Hvic v Hv)).
      now apply Hgone.
    + exact Hsorted.
    + intros v u Hv Hu He.
      apply lookup_insert_Some in Hu as [[_ <-]|[_ Hu]]; [discriminate He|].
      now apply (Hfirst v u).
    + intros j y Hy Hheld. rewrite evictions_app. simpl.
      rewrite evictions_evicted. now apply (Hnever j y).
  - exists ([Lifecycle.Phase i Lifecycle.Loading] ++
            ((fun v => Lifecycle.Evicted (Lifecycle.ident v)) <$> victims) ++
            [Lifecycle.Dropped i Lifecycle.ResourceExhaustedError]), victims.
    split; [|split; [|split; [|split; [|split]]]].
    + rewrite Hhist. now rewrite <- !app_assoc.
    + rewrite !evictions_app. simpl. rewrite evictions_evicted.
      now rewrite app_nil_r.
    + intros v Hv. destruct (Hprops v Hv) as (Ht & Hlru & Hrc & Hp).
      repeat split; auto.
      rewrite lookup_delete_ne by (apply not_eq_sym, (Hvic v Hv)).
      now apply Hgone.
    + exact Hsorted.
    + intros v u Hv Hu He. apply lookup_delete_Some in Hu as [_ Hu].
      now apply (Hfirst v u).
    + intros j y Hy Hheld. rewrite !evictions_app. simpl.
      rewrite evictions_evicted, app_nil_r. now apply (Hnever j y).
Qed.

Lemma eviction_least_recently_used_witness :
  Lifecycle.run Lifecycle.by_size (Lifecycle.init (Lifecycle.inventory [30]))
    Lifecycle.pinned_middle = Some Lifecycle.before_fourth /\
  Lifecycle.step Lifecycle.by_size Lifecycle.before_fourth
    (Lifecycle.Downloaded "D") = Some Lifecycle.after_fourth /\
  exists (new : list Lifecycle.event) (victims : list Lifecycle.instance),
    Lifecycle.history Lifecycle.after_fourth =
      Lifecycle.history Lifecycle.before_fourth ++ new /\
    Lifecycle.evictions new = Lifecycle.ident <$> victims /\
    (forall v, v ∈ victims ->
       Lifecycle.table Lifecycle.before_fourth !! Lifecycle.ident v = Some v /\
       Lifecycle.in_lru v = true /\
       Lifecycle.refcount v = 0 /\
       Lifecycle.pinned v = false /\
       Lifecycle.table Lifecycle.after_fourth !! Lifecycle.ident v = None) /\
    StronglySorted Lifecycle.lru_le victims /\
    (forall v u, v ∈ victims ->
       Lifecycle.table Lifecycle.after_fourth !! Lifecycle.ident u = Some u ->
       Lifecycle.evictable u = true ->
       Lifecycle.lru_le v u) /\
    (forall i x, Lifecycle.table Lifecycle.before_fourth !! i = Some x ->
       Lifecycle.pinned x = true \/ Lifecycle.refcount x <> 0 ->
       i ∉ Lifecycle.evictions new).
Proof.
  split; [vm_compute; reflexivity|]. split; [vm_compute; reflexivity|].
  apply (eviction_least_recently_used Lifecycle.by_size [30]
           Lifecycle.pinned_middle Lifecycle.before_fourth
           (Lifecycle.Downloaded "D") Lifecycle.after_fourth);
    vm_compute; reflexivity.
Defined.

(** The scenario of the testable properties: with three instances resident
    and the middle one pinned, pressure evicts the oldest unpinned instance
    first and then the youngest, and leaves the pinned one resident. *)
Example pinned_middle_survives :
  Lifecycle.evictions (Lifecycle.history Lifecycle.after_fourth) = ["A"; "C"]%string /\
  (map_to_list (Lifecycle.table Lifecycle.after_fourth)).*1 = ["B"; "D"]%string.
Proof. split; vm_compute; reflexivity. Qed.

(** ** Lifecycle Manager: single flight per identifier *)
Section Counting.

Import Lifecycle.






End Counting.

Section Downloaded.

Import Lifecycle.


End Downloaded.
Section OtherIdentifiers.

Import Lifecycle.





End OtherIdentifiers.
Section Flight.

Import Lifecycle.




End Flight.


Section FlightStep.

Import Lifecycle.




End FlightStep.



(** Three callers, one load: the instance ends Ready with three references
    after a single Downloading and a single Loading phase. *)
Example three_callers_one_load :
  Lifecycle.refcount <$> (Lifecycle.table Lifecycle.after_three_callers !! "A"%string)
    = Some 3 /\
  Lifecycle.history Lifecycle.after_three_callers =
    [Lifecycle.Began "A"; Lifecycle.Phase "A" Lifecycle.Resolving;
     Lifecycle.Joined "A"; Lifecycle.Phase "A" Lifecycle.Downloading;
     Lifecycle.Joined "A"; Lifecycle.Phase "A" Lifecycle.Loading;
     Lifecycle.Phase "A" Lifecycle.Ready]%string.
Proof. split; vm_compute; reflexivity. Qed.

(** ** Download Manager: a submitted job can always be queried *)
Section DownloadFacts.

Import Download.

Lemma filed_insert (js : gmap nat job) k j0 j id path :
  js !! k = Some j0 -> dest j = dest j0 ->
  filed_in js id path -> filed_in (<[k := j]> js) id path.
Proof.
  intros Hk Hd (j1 & Hj1 & Hp). destruct (decide (k = id)) as [->|Hne].
  - exists j. rewrite lookup_insert_eq. split; [reflexivity|]. congruence.
  - exists j1. now rewrite lookup_insert_ne.
Qed.

Lemma filed_alter (js : gmap nat job) (g : job -> job) k id path :
  (forall j, dest (g j) = dest j) ->
  filed_in js id path -> filed_in (alter g k js) id path.
Proof.
  intros Hg (j1 & Hj1 & Hp). unfold filed_in. rewrite lookup_alter.
  destruct (decide (k = id)) as [->|Hne]; rewrite Hj1; simpl; eauto.
  exists (g j1). rewrite Hg. auto.
Qed.

Lemma promote_jobs p id path :
  filed_in (jobs p) id path -> filed_in (jobs (promote p)) id path.
Proof.
  unfold promote. destruct (Nat.ltb _ _); [|auto].
  destruct (first_queued p) as [k|]; [|auto]. simpl.
  now apply filed_alter.
Qed.

Lemma promote_active p : active_at (promote p) = active_at p.
Proof.
  unfold promote. destruct (Nat.ltb _ _); [|reflexivity].
  now destruct (first_queued p).
Qed.

Lemma retire_jobs p k j0 j id path :
  jobs p !! k = Some j0 -> dest j = dest j0 ->
  filed_in (jobs p) id path -> filed_in (jobs (retire k j p)) id path.
Proof.
  intros Hk Hd Hid. unfold retire. apply promote_jobs. simpl.
  now apply (filed_insert _ k j0).
Qed.

Lemma retire_indexed p k j0 j :
  jobs p !! k = Some j0 -> dest j = dest j0 ->
  indexed p -> indexed (retire k j p).
Proof.
  intros Hk Hd Hp path id. unfold retire. rewrite promote_active. simpl.
  intros [_ Hid]%lookup_delete_Some.
  apply (retire_jobs p k j0 j id path Hk Hd), (Hp path id Hid).
Qed.

(** What [submit] answers is the id of a job of the new pool, filed under
    the destination path of the request. *)
Lemma submit_job r f d size p :
  indexed p ->
  filed_in (jobs (submit r f d size p).2) (submit r f d size p).1 (path_of d f).
Proof.
  intros Hp. unfold submit.
  destruct (active_at p !! path_of d f) as [id|] eqn:Hact; simpl.
  - apply filed_alter; [reflexivity|]. now apply Hp.
  - eexists. rewrite lookup_insert_eq. split; reflexivity.
Qed.

Lemma fresh_id p : in_order p -> jobs p !! next_id p = None.
Proof.
  intros Hb. destruct (jobs p !! next_id p) as [j|] eqn:Hj; [|reflexivity].
  apply Hb in Hj. lia.
Qed.

Lemma submit_jobs r f d size p id path :
  in_order p ->
  filed_in (jobs p) id path -> filed_in (jobs (submit r f d size p).2) id path.
Proof.
  intros Hb Hid. unfold submit.
  destruct (active_at p !! path_of d f) as [k|]; simpl.
  - now apply filed_alter.
  - destruct Hid as (j & Hj & Hpath). exists j. split; [|exact Hpath].
    rewrite lookup_insert_ne; [exact Hj|].
    intros <-. rewrite (fresh_id p Hb) in Hj. discriminate.
Qed.

Lemma submit_indexed r f d size p :
  in_order p -> indexed p -> indexed (submit r f d size p).2.
Proof.
  intros Hb Hp path id. unfold submit.
  destruct (active_at p !! path_of d f) as [k|] eqn:Hact; simpl.
  - intros Hid. apply filed_alter; [reflexivity|]. now apply Hp.
  - intros [[<- <-]|[_ Hid]]%lookup_insert_Some.
    + eexists. rewrite lookup_insert_eq. split; reflexivity.
    + destruct (Hp path id Hid) as (j & Hj & Hpath). exists j. split; [|exact Hpath].
      rewrite lookup_insert_ne; [exact Hj|].
      intros <-. rewrite (fresh_id p Hb) in Hj. discriminate.
Qed.

Lemma submit_bounded r f d size p : in_order p -> in_order (submit r f d size p).2.
Proof.
  intros Hb id j. unfold submit.
  destruct (active_at p !! path_of d f) as [k|]; simpl.
  - rewrite lookup_alter. destruct (decide (k = id)) as [->|].
    + destruct (jobs p !! id) as [j0|] eqn:Hj0; [|discriminate].
      intros _. now apply (Hb id j0).
    + apply Hb.
  - intros [[<- _]|[_ Hid]]%lookup_insert_Some; [lia|].
    apply Hb in Hid. lia.
Qed.

Lemma promote_bounded p : in_order p -> in_order (promote p).
Proof.
  intros Hb. unfold promote. destruct (Nat.ltb _ _); [|exact Hb].
  destruct (first_queued p) as [k|]; [|exact Hb].
  intros id j. simpl. rewrite lookup_alter.
  destruct (decide (k = id)) as [->|]; [|apply Hb].
  destruct (jobs p !! id) as [j0|] eqn:Hj0; [|discriminate].
  intros _. now apply (Hb id j0).
Qed.

Lemma update_bounded p k j0 j :
  in_order p -> jobs p !! k = Some j0 ->
  in_order (Pool (<[k := j]> (jobs p)) (active_at p) (next_id p) (max_transfers p)).
Proof.
  intros Hb Hk id j1. simpl.
  intros [[<- _]|[_ Hid]]%lookup_insert_Some; [now apply (Hb k j0) | now apply (Hb id j1)].
Qed.

Lemma retire_bounded p k j0 j :
  in_order p -> jobs p !! k = Some j0 -> in_order (retire k j p).
Proof.
  intros Hb Hk. unfold retire. apply promote_bounded.
  intros id j1. simpl.
  intros [[<- _]|[_ Hid]]%lookup_insert_Some; [now apply (Hb k j0) | now apply (Hb id j1)].
Qed.

(** The jobs a step finds it leaves in place, under the same path. *)
Lemma step_keeps p l :
  in_order p -> indexed p ->
  in_order (step p l) /\ indexed (step p l) /\
  forall id path, filed_in (jobs p) id path -> filed_in (jobs (step p l)) id path.
Proof.
  intros Hb Hp.
  assert (Hupd : forall k j0 j, jobs p !! k = Some j0 -> dest j = dest j0 ->
            let p' := Pool (<[k := j]> (jobs p)) (active_at p) (next_id p)
                           (max_transfers p) in
            in_order p' /\ indexed p' /\
            forall id path, filed_in (jobs p) id path -> filed_in (jobs p') id path).
  { intros k j0 j Hk Hd. split; [now apply (update_bounded p k j0)|]. split.
    - intros path id Hid. simpl in *. apply (filed_insert _ k j0); auto.
    - intros id path. simpl. now apply (filed_insert _ k j0). }
  assert (Hret : forall k j0 j, jobs p !! k = Some j0 -> dest j = dest j0 ->
            in_order (retire k j p) /\ indexed (retire k j p) /\
            forall id path, filed_in (jobs p) id path ->
                            filed_in (jobs (retire k j p)) id path).
  { intros k j0 j Hk Hd. split; [now apply (retire_bounded p k j0)|]. split.
    - now apply (retire_indexed p k j0).
    - intros id path. now apply (retire_jobs p k j0). }
  destruct l as [r f d size|k n|k|k intact|k|k]; simpl.
  - split; [now apply submit_bounded|]. split; [now apply submit_indexed|].
    intros id path. now apply submit_jobs.
  - destruct (jobs p !! k) as [j|] eqn:Hk; [|auto].
    destruct (stat j); auto. now apply (Hupd k j).
  - destruct (jobs p !! k) as [j|] eqn:Hk; [|auto].
    destruct (stat j); auto. now apply (Hupd k j).
  - destruct (jobs p !! k) as [j|] eqn:Hk; [|auto].
    destruct (stat j); auto. apply (Hret k j); [exact Hk|]. now destruct intact.
  - destruct (jobs p !! k) as [j|] eqn:Hk; [|auto].
    destruct (active (stat j)); auto. now apply (Hret k j).
  - destruct (jobs p !! k) as [j|] eqn:Hk; [|auto].
    destruct (active (stat j)); auto.
    destruct (Nat.leb (interested j) 1); [now apply (Hret k j) | now apply (Hupd k j)].
Qed.

Lemma run_keeps ls : forall p,
  in_order p -> indexed p ->
  in_order (run p ls) /\ indexed (run p ls) /\
  forall id path, filed_in (jobs p) id path -> filed_in (jobs (run p ls)) id path.
Proof.
  unfold run. induction ls as [|l ls IH]; intros p Hb Hp; simpl; [auto|].
  destruct (step_keeps p l Hb Hp) as (Hb1 & Hp1 & Hk1).
  destruct (IH _ Hb1 Hp1) as (Hb2 & Hp2 & Hk2). auto.
Qed.

Lemma empty_indexed max : indexed (empty max).
Proof. intros path id. simpl. now rewrite lookup_empty. Qed.

Lemma empty_bounded max : in_order (empty max).
Proof. intros id j. simpl. now rewrite lookup_empty. Qed.

(** Single flight per destination path: a caller for a path that has an
    active job gets that job's id, and no job is created. *)
Lemma submit_joins r f d size p id :
  active_at p !! path_of d f = Some id ->
  (submit r f d size p).1 = id /\
  next_id (submit r f d size p).2 = next_id p /\
  dom (jobs (submit r f d size p).2) = dom (jobs p).
Proof.
  intros Hact. unfold submit. rewrite Hact. simpl.
  split; [reflexivity|]. split; [reflexivity|]. apply dom_alter_L.
Qed.

End DownloadFacts.

(** C7.  A POST to /models/download with a body holding repo, filename and
    destination is answered 200 with a body containing a downloadId; a GET
    of /models/downloads/{id} with that id, at once or after any further
    activity of the download manager, is answered 200 with a body containing
    the status and the progress of the job for that destination. *)
Theorem download_then_status
    (size_of : string -> string -> nat) (max : nat)
    (before later : list Download.label)
    (b : Json.value) (r f d : string) :
  Download.request_fields b = Some (r, f, d) ->
  let p := Download.run (Download.empty max) before in
  let posted := Download.post_download size_of b p in
  exists id,
    Json.status_code posted.1 = 200 /\
    Json.get "downloadId" (Json.body posted.1) = Some (Json.Num id) /\
    let answer := Download.get_download id (Download.run posted.2 later) in
    Json.status_code answer = 200 /\
    exists j,
      Download.jobs (Download.run posted.2 later) !! id = Some j /\
      Download.dest j = Download.path_of d f /\
      Json.get "status" (Json.body answer) =
        Some (Json.Str (Download.status_name (Download.stat j))) /\
      Json.get "progress" (Json.body answer) =
        Some (Json.Num (Download.percent j)).
Proof.
  intros Hfields p posted. subst posted. unfold Download.post_download.
  rewrite Hfields.
  destruct (run_keeps before _ (empty_bounded max) (empty_indexed max))
    as (Hb & Hp & _). fold p in Hb, Hp.
  pose proof (submit_job r f d (size_of r f) p Hp) as Hjob.
  pose proof (submit_bounded r f d (size_of r f) p Hb) as Hb'.
  pose proof (submit_indexed r f d (size_of r f) p Hb Hp) as Hp'.
  destruct (Download.submit r f d (size_of r f) p) as [id p'] eqn:Hsub.
  simpl in Hjob, Hb', Hp'. exists id. simpl.
  split; [reflexivity|]. split; [reflexivity|].
  destruct (run_keeps later p' Hb' Hp') as (_ & _ & Hkeep).
  destruct (Hkeep id _ Hjob) as (j & Hj & Hpath).
  unfold Download.get_download. rewrite Hj. simpl.
  split; [reflexivity|]. exists j. auto.
Qed.

Lemma download_then_status_witness :
  Download.request_fields Download.qwen_request =
    Some ("Qwen/Qwen2.5-0.5B-Instruct-GGUF",
          "qwen2.5-0.5b-instruct-q4_k_m.gguf", "/downloads")%string /\
  let p := Download.run (Download.empty 2) [] in
  let posted := Download.post_download (fun _ _ => 400) Download.qwen_request p in
  exists id,
    Json.status_code posted.1 = 200 /\
    Json.get "downloadId" (Json.body posted.1) = Some (Json.Num id) /\
    let answer :=
      Download.get_download id (Download.run posted.2 [Download.Bytes 0 100]) in
    Json.status_code answer = 200 /\
    exists j,
      Download.jobs (Download.run posted.2 [Download.Bytes 0 100]) !! id = Some j /\
      Download.dest j =
        Download.path_of "/downloads" "qwen2.5-0.5b-instruct-q4_k_m.gguf" /\
      Json.get "status" (Json.body answer) =
        Some (Json.Str (Download.status_name (Download.stat j))) /\
      Json.get "progress" (Json.body answer) =
        Some (Json.Num (Download.percent j)).
Proof.
  split; [reflexivity|].
  apply (download_then_status (fun _ _ => 400) 2 [] [Download.Bytes 0 100]
           Download.qwen_request "Qwen/Qwen2.5-0.5B-Instruct-GGUF"
           "qwen2.5-0.5b-instruct-q4_k_m.gguf" "/downloads").
  reflexivity.
Defined.

(** The exchange of [test_model_download]: the download is answered with
    id 0, and two seconds and a hundred bytes later the job reports that it
    is downloading, a quarter done. *)
Example qwen_download_progress :
  let posted := Download.post_download (fun _ _ => 400) Download.qwen_request
                  (Download.empty 2) in
  Json.body posted.1 = Json.Obj [("downloadId", Json.Num 0)]%string /\
  Json.body (Download.get_download 0 (Download.run posted.2 [Download.Bytes 0 100])) =
    Json.Obj [("status", Json.Str "downloading"); ("progress", Json.Num 25)]%string.
Proof. split; vm_compute; reflexivity. Qed.


Section Boundary.

Import Resolver Api.

Lemma all_allowed_false ok s ch :
  In ch (list_ascii_of_string s) -> ok ch = false -> all_allowed ok s = false.
Proof.
  induction s as [|c s IH]; simpl; [tauto|].
  intros [->|Hin] Hch.
  - now rewrite Hch.
  - rewrite (IH Hin Hch). apply andb_false_r.
Qed.

(** Each of the three ways of being malformed fails the validation. *)
Lemma malformed_not_well_formed c id :
  malformed c id -> well_formed c id = false.
Proof.
  unfold well_formed. intros [->|[Hlen|(ch & Hin & Hch)]].
  - reflexivity.
  - apply Nat.leb_gt in Hlen. rewrite Hlen.
    now rewrite andb_false_r.
  - rewrite (all_allowed_false _ _ _ Hin Hch).
    now rewrite andb_false_r.
Qed.

Lemma failure_rejected s message :
  rejected s (failure Lifecycle.InvalidIdentifier message, s, []).
Proof.
  unfold rejected, failure. simpl. repeat split; try lia. now exists message.
Qed.

Lemma begin_load_malformed reg now id au pin s :
  well_formed (settings s) id = false ->
  rejected s (begin_load reg now id au pin s).
Proof.
  intros Hwf. unfold begin_load. rewrite Hwf. apply failure_rejected.
Qed.

End Boundary.

(** C4: a malformed model identifier (empty, longer than configured, or with
    a character that is not allowed) is refused by the resolver with
    [InvalidIdentifier] and by [POST /models/load] and
    [POST /chat/completions] with a 4xx response of that kind; an empty
    search query is refused the same way by [GET /models/search].  In each
    case nothing outside the process was touched (the trace of registry,
    file-system and transfer activity is empty) and the server, its
    resolver cache included, is as it was.  *)
Theorem malformed_rejected_before_activity
    (reg : Resolver.registry) (find : string -> nat -> Json.value)
    (now limit : nat) (s : Api.server) (k : Resolver.memo)
    (id : string) (load chat : Json.value) :
  Resolver.malformed (Api.settings s) id ->
  Api.text "model_id" load = Some id ->
  Api.text "model" chat = Some id ->
  Resolver.resolve (Api.settings s) reg k now id
    = (inr Lifecycle.InvalidIdentifier, k, [])
  /\ Api.rejected s (Api.post_load reg now load s)
  /\ Api.rejected s (Api.post_chat reg now chat s)
  /\ Api.rejected s (Api.get_search find "" limit s).
Proof.
  intros Hbad Hload Hchat.
  apply malformed_not_well_formed in Hbad.
  split; [|split; [|split]].
  - unfold Resolver.resolve. now rewrite Hbad.
  - unfold Api.post_load. rewrite Hload. now apply begin_load_malformed.
  - unfold Api.post_chat. rewrite Hchat. now apply begin_load_malformed.
  - unfold Api.get_search. simpl. apply failure_rejected.
Qed.

Lemma malformed_rejected_before_activity_witness :
  Resolver.malformed (Api.settings Api.fresh_server) Api.special_chars
  /\ Api.rejected Api.fresh_server
       (Api.post_load Api.open_registry 0 Api.load_special Api.fresh_server)
  /\ Api.rejected Api.fresh_server
       (Api.get_search (fun _ _ => Json.Arr []) "" 10 Api.fresh_server).
Proof.
  assert (Hbad : Resolver.malformed (Api.settings Api.fresh_server)
                   Api.special_chars).
  { right. right. exists "!"%char. split; [simpl; now left | reflexivity]. }
  split; [exact Hbad|].
  pose proof (malformed_rejected_before_activity Api.open_registry
                (fun _ _ => Json.Arr []) 0 10 Api.fresh_server
                (Resolver.Memo ∅ ∅) Api.special_chars Api.load_special
                (Json.Obj [("model"%string, Json.Str Api.special_chars)])
                Hbad eq_refl eq_refl) as (_ & Hl & _ & Hs).
  split; [exact Hl | exact Hs].
Defined.

(** The over-long model name of [test_edge_cases] is turned away by
    [POST /chat/completions], while a well-formed identifier that is not
    cached does reach the registry. *)
Example long_model_rejected :
  Api.rejected Api.fresh_server
    (Api.post_chat Api.open_registry 0 Api.chat_long Api.fresh_server)
  /\ snd (Api.post_load Api.open_registry 0
            (Json.Obj [("model_id"%string, Json.Str "org/repo:model.gguf")])
            Api.fresh_server)
     = [Resolver.RegistryLookup "org/repo" (Some "model.gguf"%string);
        Resolver.FileProbe "model.gguf"].
Proof.
  split.
  - unfold Api.post_chat.
    change (Api.text "model" Api.chat_long) with (Some Api.long_model).
    apply begin_load_malformed. vm_compute. reflexivity.
  - vm_compute. reflexivity.
Qed.

Section StreamReader.

Import PyJson HardTask.

Variable loads : string -> option Json.value.

Lemma append_nil_r (s : string) : (s +:+ EmptyString)%string = s.
Proof.
  induction s as [|a s IH]; [reflexivity|].
  change (String a (s +:+ EmptyString) = String a s). now rewrite IH.
Qed.

Lemma append_assoc (s t u : string) :
  ((s +:+ t) +:+ u)%string = (s +:+ (t +:+ u))%string.
Proof.
  induction s as [|a s IH]; [reflexivity|].
  change (String a ((s +:+ t) +:+ u) = String a (s +:+ (t +:+ u))).
  now rewrite IH.
Qed.

Lemma startswith_data p : Py.startswith ("data: " +:+ p) "data: " = true.
Proof. destruct p; reflexivity. Qed.

Lemma startswith_split l p :
  Py.startswith l p = true ->
  l = (p +:+ Py.slice_from (String.length p) l)%string.
Proof.
  unfold Py.startswith. revert l.
  induction p as [|a p IH]; intros l H; [reflexivity|].
  destruct l as [|b l]; simpl in H; [discriminate|].
  destruct (ascii_dec a b); [subst|discriminate].
  cbn [String.length Py.slice_from].
  change (String b l = String b (p +:+ Py.slice_from (String.length p) l)).
  f_equal. now apply IH.
Qed.

Lemma on_line_done r :
  on_line loads done_line r
  = Returned (Break (Reading (full_response r) (S (chunk_count r)))).
Proof. reflexivity. Qed.


(** A [data: ] line with a payload other than the sentinel. *)
Lemma on_line_data p r :
  p <> "[DONE]"%string ->
  on_line loads ("data: " +:+ p) r
  = match loads p with
    | Some data =>
        full ← take data (full_response r);
        mret (Next (Reading full (S (chunk_count r))))
    | None => Returned (Next (Reading (full_response r) (S (chunk_count r))))
    end.
Proof.
  intros Hp. apply String.eqb_neq in Hp.
  unfold on_line. rewrite startswith_data.
  change (Py.slice_from 6 ("data: " +:+ p)) with p. rewrite Hp.
  reflexivity.
Qed.


Lemma take_delta data t full :
  delta_of data t -> take data full = Returned (full +:+ t)%string.
Proof.
  intros (fields & choice & others & delta & -> & Hc & Hd & Ht).
  unfold take. cbn. rewrite Hc. cbn. rewrite Hd. cbn. rewrite Ht. reflexivity.
Qed.

Lemma take_scalar v full : scalar v -> take v full = Raised TypeError.
Proof. intros [->|[[b ->]|[n ->]]]; reflexivity. Qed.

Lemma take_without_text data full :
  delta_without_text data -> take data full = Raised TypeError.
Proof.
  intros (fields & choice & others & delta & v & -> & Hc & Hd & Hv & Hs).
  unfold take. cbn. rewrite Hc. cbn. rewrite Hd. cbn. rewrite Hv. cbn.
  destruct Hs as [->|[[b ->]|[n ->]]]; reflexivity.
Qed.

Lemma nonempty_data p : nonempty ("data: " +:+ p) = true.
Proof. reflexivity. Qed.

End StreamReader.

(** X1: whatever follows a [data: [DONE]] line is never read: it changes
    neither the text collected nor the chunk count, and cannot make the
    reader raise. *)
Theorem reader_ignores_lines_after_done
    (loads : string -> option Json.value) (before after : list string)
    (r : HardTask.reading) :
  HardTask.read_lines loads (before ++ HardTask.done_line :: after) r
  = HardTask.read_lines loads (before ++ [HardTask.done_line]) r.
Proof.
  revert r. induction before as [|l before IH]; intros r.
  - reflexivity.
  - cbn [app HardTask.read_lines].
    destruct (HardTask.on_line loads l r) as [[r'|r']|e];
      [apply IH | reflexivity | reflexivity].
Qed.

(** X2: when the reader returns, [chunk_count] is the number of non-empty
    lines up to and including the first [data: [DONE]] line: the sentinel
    and lines that are not [data: ] lines are counted as chunks too. *)
Theorem reader_counts_nonempty_lines
    (loads : string -> option Json.value) (before after : list string)
    (r r' : HardTask.reading) :
  Forall (fun l => l <> HardTask.done_line) before ->
  HardTask.read_lines loads (before ++ HardTask.done_line :: after) r
    = PyJson.Returned r' ->
  HardTask.chunk_count r'
  = HardTask.chunk_count r
    + List.length (List.filter HardTask.nonempty before) + 1.
Proof.
  intros Hb. revert r. induction Hb as [|l before Hl _ IH]; intros r Hread.
  - cbn in Hread. injection Hread as <-. cbn. lia.
  - cbn [app HardTask.read_lines] in Hread.
    destruct (HardTask.on_line loads l r) as [[r1|r1]|e] eqn:Hline;
      try discriminate.
    + apply IH in Hread. rewrite Hread. cbn [List.filter].
      unfold HardTask.on_line in Hline. unfold HardTask.nonempty at 2.
      destruct (String.eqb l "") eqn:Hempty.
      * injection Hline as <-. cbn. lia.
      * cbn [negb List.length].
        destruct (Py.startswith l "data: ").
        -- destruct (String.eqb (Py.slice_from 6 l) "[DONE]"); [discriminate|].
           destruct (loads (Py.slice_from 6 l)) as [data|].
           ++ cbn in Hline.
              destruct (HardTask.take data (HardTask.full_response r));
                [|discriminate].
              cbn in Hline. injection Hline as <-. cbn. lia.
           ++ injection Hline as <-. cbn. lia.
        -- injection Hline as <-. cbn. lia.
    + exfalso. unfold HardTask.on_line in Hline.
      destruct (String.eqb l "") eqn:Hempty; [discriminate|].
      destruct (Py.startswith l "data: ") eqn:Hsw; [|discriminate].
      destruct (String.eqb (Py.slice_from 6 l) "[DONE]") eqn:Hdone.
      * apply Hl. apply String.eqb_eq in Hdone.
        rewrite (startswith_split _ _ Hsw).
        change (String.length "data: ") with 6. now rewrite Hdone.
      * destruct (loads (Py.slice_from 6 l)) as [data|]; [|discriminate].
        cbn in Hline.
        destruct (HardTask.take data (HardTask.full_response r));
          discriminate.
Qed.

Lemma reader_counts_nonempty_lines_witness :
  HardTask.chunk_count (HardTask.Reading "Hi" 4) = 0 + 3 + 1.
Proof.
  apply (reader_counts_nonempty_lines HardTask.toy_loads
           [": keep-alive"; ""; "data: hi"; "data: {broken"]%string
           ["data: null"]%string
           (HardTask.Reading "" 0) (HardTask.Reading "Hi" 4)).
  - repeat constructor; discriminate.
  - vm_compute. reflexivity.
Defined.

(** X3: the text of a stream of OpenAI-shaped chunks is collected in order:
    if every payload decodes to a chunk whose first choice has a delta with
    a string content, then at the sentinel [full_response] is the
    concatenation of those contents and every line has been counted. *)
Theorem reader_collects_contents
    (loads : string -> option Json.value)
    (items : list (string * Json.value * string)) (after : list string) :
  Forall (fun it : string * Json.value * string =>
            it.1.1 <> "[DONE]"%string
            /\ loads it.1.1 = Some it.1.2
            /\ HardTask.delta_of it.1.2 it.2) items ->
  HardTask.read_stream loads
    (List.map (fun it : string * Json.value * string =>
                 ("data: " +:+ it.1.1)%string) items
     ++ HardTask.done_line :: after)
  = PyJson.Returned
      (HardTask.Reading
         (List.fold_right String.append EmptyString
            (List.map (fun it : string * Json.value * string => it.2) items))
         (List.length items + 1)).
Proof.
  intros Hitems. unfold HardTask.read_stream.
  assert (Hgen : forall r,
    HardTask.read_lines loads
      (List.map (fun it : string * Json.value * string =>
                   ("data: " +:+ it.1.1)%string) items
       ++ HardTask.done_line :: after) r
    = PyJson.Returned
        (HardTask.Reading
           (HardTask.full_response r +:+
            List.fold_right String.append EmptyString
              (List.map (fun it : string * Json.value * string => it.2) items))
           (HardTask.chunk_count r + (List.length items + 1)))).
  { induction Hitems as [|[[p d] t] items (Hp & Hl & Hd) _ IH]; intros r.
    - cbn. rewrite append_nil_r. do 2 f_equal. lia.
    - cbn [List.map app HardTask.read_lines fst snd].
      rewrite (on_line_data loads p r Hp). cbn in Hl, Hd. rewrite Hl.
      rewrite (take_delta d t _ Hd). cbn [mbind mret PyJson.result_bind
                                           PyJson.result_ret].
      rewrite IH. cbn [HardTask.full_response HardTask.chunk_count
                       List.fold_right List.length snd].
      rewrite append_assoc. do 2 f_equal. lia. }
  rewrite Hgen. reflexivity.
Qed.

Lemma reader_collects_contents_witness :
  HardTask.read_stream HardTask.toy_loads
    ["data: hi"; "data: hi"; "data: [DONE]"; "data: null"]%string
  = PyJson.Returned (HardTask.Reading "HiHi" 3).
Proof.
  apply (reader_collects_contents HardTask.toy_loads
           [("hi", HardTask.hi_chunk, "Hi"); ("hi", HardTask.hi_chunk, "Hi")]%string
           ["data: null"]%string).
  repeat constructor; try discriminate;
    (unfold HardTask.delta_of, HardTask.hi_chunk; repeat eexists;
     reflexivity).
Defined.

(** X4: the reader only swallows JSON decoding errors.  A payload that
    decodes to [null], a boolean or a number, or a chunk whose delta has a
    content that is not a string (as in [{"content": null}]), makes the loop
    raise [TypeError]. *)
Theorem reader_raises_on_scalar
    (loads : string -> option Json.value) (p : string) (data : Json.value)
    (rest : list string) (r : HardTask.reading) :
  p <> "[DONE]"%string ->
  loads p = Some data ->
  HardTask.scalar data \/ HardTask.delta_without_text data ->
  HardTask.read_lines loads (("data: " +:+ p)%string :: rest) r
  = PyJson.Raised PyJson.TypeError.
Proof.
  intros Hp Hl Hcase. cbn [HardTask.read_lines].
  rewrite (on_line_data loads p r Hp), Hl.
  destruct Hcase as [Hs|Hd].
  - now rewrite (take_scalar _ _ Hs).
  - now rewrite (take_without_text _ _ Hd).
Qed.

Lemma reader_raises_on_scalar_witness :
  HardTask.read_lines HardTask.toy_loads
    ["data: null"; "data: [DONE]"]%string (HardTask.Reading "" 0)
  = PyJson.Raised PyJson.TypeError.
Proof.
  apply (reader_raises_on_scalar HardTask.toy_loads "null" Json.Null).
  - discriminate.
  - reflexivity.
  - left. now left.
Defined.



Section Whitespace.

Import PyStr.

Lemma slice_to_length n s : String.length (Py.slice_to n s) <= n.
Proof.
  revert s. induction n as [|n IH]; intros [|c s]; simpl; try lia.
  specialize (IH s). lia.
Qed.

Lemma lstrip_headed s : headed (Py.lstrip s).
Proof.
  induction s as [|c s IH]; simpl; [exact I|].
  destruct (Py.isspace c) eqn:Hc; [exact IH | exact Hc].
Qed.

Lemma lstrip_fixed s : headed s -> Py.lstrip s = s.
Proof. destruct s as [|c s]; simpl; [reflexivity|]. now intros ->. Qed.

Lemma rstrip_headed s : headed s -> headed (Py.rstrip s).
Proof.
  destruct s as [|c s]; simpl; [auto|]. intros Hc.
  destruct (Py.rstrip s); [now rewrite Hc | exact Hc].
Qed.


Lemma strip_headed s : headed (Py.strip s).
Proof. apply rstrip_headed, lstrip_headed. Qed.


Lemma slice_to_headed n s : headed s -> headed (Py.slice_to n s).
Proof. destruct n, s; simpl; auto. Qed.






End Whitespace.


(** On a host whose [go version] prints the usual line the result is the
    version word. *)
Example get_go_version_usual :
  Script.result ReleaseInfo.get_go_version ReleaseInfo.go_host
  = "go1.23.4"%string.
Proof. vm_compute. reflexivity. Qed.

(** X7: the commit that [release.py] puts into release notes and linker
    flags is never longer than seven characters and never begins with
    whitespace; it is ["unknown"] whenever git cannot be run or exits with a
    non-zero code. *)
Theorem release_commit_short (h : Script.host) (log : list Script.event) :
  String.length (fst (ReleaseInfo.get_git_commit h log)) <= 7
  /\ Py.lstrip (fst (ReleaseInfo.get_git_commit h log))
     = fst (ReleaseInfo.get_git_commit h log)
  /\ (Build.probe_failed
        (Script.subprocess_run h ["git"; "rev-parse"; "HEAD"]%string) ->
      fst (ReleaseInfo.get_git_commit h log) = "unknown"%string).
Proof.
  unfold ReleaseInfo.get_git_commit, Script.run, mbind, mret,
    Script.script_bind, Script.script_ret, Build.probe_failed.
  destruct (Script.subprocess_run h _) as [|rc out]; cbn [fst].
  - repeat split; cbn; lia.
  - destruct (Z.eqb_spec rc 0) as [->|Hrc]; cbn [fst].
    + split; [apply slice_to_length|]. split; [|congruence].
      apply lstrip_fixed, slice_to_headed, strip_headed.
    + repeat split; cbn; lia.
Qed.

(** X8: the commit that [build.py] stamps into the binary is never longer
    than eight characters and never begins with whitespace; it is
    ["unknown"] whenever git cannot be run or exits with a non-zero code. *)
Theorem build_commit_short (h : Script.host) (log : list Script.event) :
  String.length (fst (BuildInfo.get_git_commit h log)) <= 8
  /\ Py.lstrip (fst (BuildInfo.get_git_commit h log))
     = fst (BuildInfo.get_git_commit h log)
  /\ (Build.probe_failed
        (Script.subprocess_run h ["git"; "rev-parse"; "HEAD"]%string) ->
      fst (BuildInfo.get_git_commit h log) = "unknown"%string).
Proof.
  unfold BuildInfo.get_git_commit, Script.run, mbind, mret,
    Script.script_bind, Script.script_ret, Build.probe_failed.
  destruct (Script.subprocess_run h _) as [|rc out]; cbn [fst].
  - repeat split; cbn; lia.
  - destruct (Z.eqb_spec rc 0) as [->|Hrc]; cbn [fst].
    + split; [apply slice_to_length|]. split; [|congruence].
      apply lstrip_fixed, slice_to_headed, strip_headed.
    + repeat split; cbn; lia.
Qed.


Section FileSizeFacts.

Import FileSize.
Local Open Scope N_scope.

(** Sizes below [2^53] are floats as they are. *)
Lemma round53_small n : n < 2 ^ 53 -> round53 n = n.
Proof.
  intros Hn. unfold round53.
  destruct (N.leb_spec (N.size n) 53) as [|Hbits]; [reflexivity|].
  exfalso. pose proof (N.size_le n) as Hle.
  assert (Hpow : 2 ^ 54 <= 2 ^ N.size n)
    by (apply N.pow_le_mono_r; lia).
  rewrite N.succ_double_spec in Hle.
  change (2 ^ 53) with 9007199254740992 in Hn.
  change (2 ^ 54) with 18014398509481984 in Hpow. lia.
Qed.

(** Rounding to 53 bits never takes a size below [2^53]. *)
Lemma round53_large n : 2 ^ 53 <= n -> 2 ^ 53 <= round53 n.
Proof.
  intros Hn. unfold round53.
  destruct (N.leb_spec (N.size n) 53) as [|Hbits]; [exact Hn|].
  cbv zeta. set (sh := N.size n - 53).
  rewrite (N.shiftl_mul_pow2 _ sh).
  set (q := N.shiftr n sh).
  assert (Hq : 2 ^ 52 <= q).
  { unfold q. rewrite N.shiftr_div_pow2.
    pose proof (N.size_le n) as Hle. rewrite N.succ_double_spec in Hle.
    assert (Hsplit : 2 ^ N.size n = 2 ^ 53 * 2 ^ sh).
    { rewrite <- N.pow_add_r. f_equal. unfold sh. lia. }
    assert (Hpos : 0 < 2 ^ sh) by (apply N.neq_0_lt_0, N.pow_nonzero; lia).
    apply N.div_le_lower_bound; [lia|].
    rewrite Hsplit in Hle.
    change (2 ^ 53) with (2 * 2 ^ 52) in Hle. nia. }
  assert (Hsh : 2 <= 2 ^ sh).
  { change 2 with (2 ^ 1) at 1. apply N.pow_le_mono_r; unfold sh; lia. }
  match goal with
  | |- _ <= (if ?b then _ else _) * _ => destruct b
  end; change (2 ^ 53) with (2 ^ 52 * 2); nia.
Qed.

(** Rounding does not move a size across a threshold of at most [2^53]. *)
Lemma round53_threshold n t :
  t <= 2 ^ 53 -> (round53 n <? t) = (n <? t).
Proof.
  intros Ht. destruct (N.lt_ge_cases n (2 ^ 53)) as [Hn|Hn].
  - now rewrite round53_small.
  - pose proof (round53_large n Hn).
    destruct (N.ltb_spec (round53 n) t), (N.ltb_spec n t); try reflexivity; lia.
Qed.

(** A whole number of bytes is printed with [.0]. *)
Lemma format_1f_int n :
  n < 2 ^ 53 -> format_1f (PyInt n) = (decimal n +:+ ".0")%string.
Proof.
  intros Hn. unfold format_1f, fraction. rewrite (round53_small n Hn).
  unfold tenths. change (2 ^ 0) with 1.
  rewrite N.div_1_r, N.mod_1_r. cbn [N.mul N.ltb N.compare].
  change (2 * 0 <? 1) with true. cbv iota.
  replace (10 * n / 10) with n
    by (symmetry; rewrite N.mul_comm; apply N.div_mul; lia).
  replace ((10 * n) mod 10) with 0
    by (symmetry; rewrite N.mul_comm; apply N.Div0.mod_mul).
  reflexivity.
Qed.

(** The tenths of a value just below 1024. *)
Lemma tenths_1024 m e :
  20479 * 2 ^ e <= 20 * m -> m < 1024 * 2 ^ e ->
  tenths m e = 10240.
Proof.
  intros Hlo Hhi. unfold tenths.
  set (d := 2 ^ e) in *.
  assert (Hpos : d <> 0) by (unfold d; apply N.pow_nonzero; lia).
  pose proof (N.div_mod (10 * m) d Hpos) as Hdm.
  pose proof (N.mod_lt (10 * m) d Hpos) as Hlt.
  set (q := 10 * m / d) in *. set (r := (10 * m) mod d) in *.
  assert (Hq : q = 10239) by nia.
  assert (Hr : d <= 2 * r) by nia.
  destruct (N.ltb_spec (2 * r) d); [lia|].
  rewrite Hq. now destruct (N.ltb_spec d (2 * r)).
Qed.

End FileSizeFacts.

(** X10: [get_file_size] picks the unit by the thresholds [1024^k]: bytes
    below 1024, then KB, MB and GB, and TB for everything from [1024^4] up,
    however large; a size below 1024 is printed as the whole number
    followed by [.0 B]. *)
Theorem get_file_size_unit
    (stat : string -> option N) (filepath : string) (size : N) :
  stat filepath = Some size ->
  (exists number,
     FileSize.get_file_size stat filepath
     = Some (number +:+ " " +:+ FileSize.unit_of size)%string)
  /\ ((size < 1024)%N ->
      FileSize.get_file_size stat filepath
      = Some (FileSize.decimal size +:+ ".0 B")%string).
Proof.
  intros Hstat. unfold FileSize.get_file_size. rewrite Hstat.
  unfold FileSize.unit_of. cbn [FileSize.in_units FileSize.lt_1024].
  destruct (N.ltb_spec size 1024) as [Hb|Hb].
  - split; [eexists; reflexivity|]. intros _.
    rewrite format_1f_int
      by (change (2 ^ 53)%N with 9007199254740992%N; lia).
    now rewrite append_assoc.
  - split; [|lia].
    cbn [FileSize.div_1024 FileSize.lt_1024].
    change (1024 * 2 ^ 10)%N with (1024 ^ 2)%N.
    change (1024 * 2 ^ (10 + 10))%N with (1024 ^ 3)%N.
    change (1024 * 2 ^ (10 + 10 + 10))%N with (1024 ^ 4)%N.
    rewrite !round53_threshold by (vm_compute; discriminate).
    destruct (size <? 1024 ^ 2)%N; [eexists; reflexivity|].
    destruct (size <? 1024 ^ 3)%N; [eexists; reflexivity|].
    destruct (size <? 1024 ^ 4)%N; eexists; reflexivity.
Qed.

Lemma get_file_size_unit_witness :
  (exists number,
     FileSize.get_file_size (FileSize.one_file 5000000000000)
       "dist/frogllm-linux-amd64"
     = Some (number +:+ " " +:+ "TB")%string)
  /\ ((1023 < 1024)%N ->
      FileSize.get_file_size (FileSize.one_file 1023) "dist/frogllm-linux-amd64"
      = Some "1023.0 B"%string).
Proof.
  split.
  - apply (get_file_size_unit (FileSize.one_file 5000000000000)
             "dist/frogllm-linux-amd64" 5000000000000 eq_refl).
  - apply (get_file_size_unit (FileSize.one_file 1023)
             "dist/frogllm-linux-amd64" 1023 eq_refl).
Defined.

(** X11: a size within a twentieth of a unit below the next threshold is
    shown as [1024.0] of the smaller unit, so the number printed is not
    always below 1024: 1048575 bytes are [1024.0 KB], not [1.0 MB]. *)
Theorem get_file_size_shows_1024
    (stat : string -> option N) (filepath : string) (size : N) (k : nat) :
  stat filepath = Some size ->
  (1 <= k <= 3)%nat ->
  (20479 * 1024 ^ N.of_nat k <= 20 * size)%N ->
  (size < 1024 ^ N.of_nat (S k))%N ->
  FileSize.get_file_size stat filepath
  = Some ("1024.0 " +:+ nth k ["B"; "KB"; "MB"; "GB"] "")%string.
Proof.
  intros Hstat Hk Hlo Hhi. unfold FileSize.get_file_size. rewrite Hstat.
  assert (Hsmall : FileSize.round53 size = size).
  { apply round53_small.
    assert (1024 ^ N.of_nat (S k) <= 1024 ^ 4)%N
      by (apply N.pow_le_mono_r; lia).
    change (1024 ^ 4)%N with 1099511627776%N in *.
    change (2 ^ 53)%N with 9007199254740992%N. lia. }
  destruct k as [|[|[|[|k]]]]; try lia;
    cbn [N.of_nat Pos.of_succ_nat Pos.succ] in Hlo, Hhi;
    cbn [FileSize.in_units FileSize.lt_1024 FileSize.div_1024 nth];
    rewrite Hsmall.
  - change (1024 ^ 1)%N with 1024%N in Hlo.
    change (1024 ^ 2)%N with (1024 * 2 ^ 10)%N in Hhi.
    destruct (N.ltb_spec size 1024); [lia|].
    destruct (N.ltb_spec size (1024 * 2 ^ 10)); [|lia].
    unfold FileSize.format_1f, FileSize.fraction.
    rewrite (tenths_1024 size 10) by (try exact Hhi; change (2 ^ 10)%N with 1024%N; lia).
    reflexivity.
  - change (1024 ^ 2)%N with (1024 * 2 ^ 10)%N in Hlo.
    change (1024 ^ 3)%N with (1024 * 2 ^ (10 + 10))%N in Hhi.
    destruct (N.ltb_spec size 1024);
      [change (2 ^ 10)%N with 1024%N in Hlo; lia|].
    destruct (N.ltb_spec size (1024 * 2 ^ 10)); [lia|].
    destruct (N.ltb_spec size (1024 * 2 ^ (10 + 10))); [|lia].
    unfold FileSize.format_1f, FileSize.fraction.
    rewrite (tenths_1024 size (10 + 10))
      by (try exact Hhi; change (2 ^ (10 + 10))%N with (1024 * 2 ^ 10)%N; lia).
    reflexivity.
  - change (1024 ^ 3)%N with (1024 * 2 ^ (10 + 10))%N in Hlo.
    change (1024 ^ 4)%N with (1024 * 2 ^ (10 + 10 + 10))%N in Hhi.
    destruct (N.ltb_spec size 1024);
      [change (2 ^ (10 + 10))%N with 1048576%N in Hlo; lia|].
    destruct (N.ltb_spec size (1024 * 2 ^ 10));
      [change (2 ^ (10 + 10))%N with 1048576%N in Hlo;
       change (2 ^ 10)%N with 1024%N in *; lia|].
    destruct (N.ltb_spec size (1024 * 2 ^ (10 + 10))); [lia|].
    destruct (N.ltb_spec size (1024 * 2 ^ (10 + 10 + 10))); [|lia].
    unfold FileSize.format_1f, FileSize.fraction.
    rewrite (tenths_1024 size (10 + 10 + 10))
      by (try exact Hhi;
          change (2 ^ (10 + 10 + 10))%N with (1024 * 2 ^ (10 + 10))%N; lia).
    reflexivity.
Qed.

Lemma get_file_size_shows_1024_witness :
  FileSize.get_file_size (FileSize.one_file 1048575) "dist/frogllm-linux-amd64"
  = Some "1024.0 KB"%string.
Proof.
  apply (get_file_size_shows_1024 (FileSize.one_file 1048575)
           "dist/frogllm-linux-amd64" 1048575 1 eq_refl).
  - lia.
  - vm_compute. discriminate.
  - reflexivity.
Defined.

(** Sizes as CPython prints them, ties and sizes beyond [2^53] included. *)
Example get_file_size_values :
  List.map (fun size =>
              FileSize.get_file_size (FileSize.one_file size)
                "dist/frogllm-linux-amd64")
    [0; 1536; 1280; 1792; 1048524; 1099511627775; 9007199254740993;
     1152921504606846975]%N
  = [Some "0.0 B"; Some "1.5 KB"; Some "1.2 KB"; Some "1.8 KB";
     Some "1023.9 KB"; Some "1024.0 GB"; Some "8192.0 TB";
     Some "1048576.0 TB"]%string.
Proof. vm_compute. reflexivity. Qed.

Section Yields.

Import Tool.

Context (h : host).

Lemma yields_weaken {A} (m : tool A) (P Q : reply A -> list event -> Prop) :
  yields h m P -> (forall r d, P r d -> Q r d) -> yields h m Q.
Proof.
  intros Hm HPQ log. destruct (Hm log) as (r & d & E & HP). eauto.
Qed.

Lemma yields_ret {A} (a : A) (Q : reply A -> list event -> Prop) :
  Q (Value a) [] -> yields h (mret a) Q.
Proof. intros HQ log. exists (Value a), []. now rewrite app_nil_r. Qed.

Lemma yields_bind {A B} (m : tool A) (k : A -> tool B)
    (P : reply A -> list event -> Prop) (Q : reply B -> list event -> Prop) :
  yields h m P ->
  (forall a d, P (Value a) d -> yields h (k a) (fun r d' => Q r (d ++ d'))) ->
  (forall e d, P (Raise e) d -> Q (Raise e) d) ->
  yields h (m ≫= k) Q.
Proof.
  intros Hm Hk He log. destruct (Hm log) as ([a|e] & d & E & HP).
  - destruct (Hk a d HP (log ++ d)) as (r & d' & E' & HQ).
    exists r, (d ++ d'). unfold mbind, tool_bind. rewrite E, E'.
    now rewrite app_assoc.
  - exists (Raise e), d. unfold mbind, tool_bind. rewrite E. auto.
Qed.

Lemma yields_print (t : string) (Q : reply unit -> list event -> Prop) :
  Q (Value tt) [Printed t] -> yields h (print t) Q.
Proof. intros HQ log. now exists (Value tt), [Printed t]. Qed.

Lemma yields_exists (p : string) (Q : reply bool -> list event -> Prop) :
  (forall b, Q (Value b) [Probed p b]) -> yields h (exists_path p) Q.
Proof. intros HQ log. eexists _, _. split; [reflexivity | apply HQ]. Qed.

Lemma yields_run (c : call) (Q : reply outcome -> list event -> Prop) :
  (forall o, Q (Value o) [Ran c o]) -> yields h (run c) Q.
Proof. intros HQ log. eexists _, _. split; [reflexivity | apply HQ]. Qed.

Lemma yields_remove (p : string)
    (Q : reply (option string) -> list event -> Prop) :
  (forall e, Q (Value e) [Unlinked p e]) -> yields h (remove p) Q.
Proof. intros HQ log. eexists _, _. split; [reflexivity | apply HQ]. Qed.

Lemma yields_stat (p : string) (Q : reply N -> list event -> Prop) :
  (forall n, Q (Value n) [Sized p (inl n)]) ->
  (forall message, Q (Raise (Error message)) [Sized p (inr message)]) ->
  yields h (stat_size p) Q.
Proof.
  intros Hn He log. unfold stat_size.
  destruct (st_size h log p) as [n|message]; eexists _, _; eauto.
Qed.

Lemma yields_exit {A} (code : Z) (Q : reply A -> list event -> Prop) :
  Q (Raise (SystemExit code)) [] -> yields h (sys_exit code) Q.
Proof.
  intros HQ log. exists (Raise (SystemExit code)), [].
  now rewrite app_nil_r.
Qed.

Lemma yields_ask {A} (f : host -> A) (Q : reply A -> list event -> Prop) :
  Q (Value (f h)) [] -> yields h (ask f) Q.
Proof. intros HQ log. exists (Value (f h)), []. now rewrite app_nil_r. Qed.

Lemma yields_clock (f : host -> list event -> string)
    (Q : reply string -> list event -> Prop) :
  (forall t, Q (Value t) []) -> yields h (clock f) Q.
Proof.
  intros HQ log. exists (Value (f h log)), []. now rewrite app_nil_r.
Qed.

(** The steps of a computation, one primitive at a time. *)
Lemma step_print {B} (t : string) (k : unit -> tool B) Q :
  yields h (k tt) (fun r d => Q r (Printed t :: d)) ->
  yields h (print t ≫= k) Q.
Proof.
  intros Hk. eapply yields_bind.
  - apply (yields_print t (fun r d => r = Value tt /\ d = [Printed t])). auto.
  - intros [] d [_ ->]. exact Hk.
  - intros e d [[=] _].
Qed.

Lemma step_print_any {B} (t : string) (k : unit -> tool B) Q :
  (forall text, yields h (k tt) (fun r d => Q r (Printed text :: d))) ->
  yields h (print t ≫= k) Q.
Proof. intros Hk. apply step_print, Hk. Qed.

Lemma yields_print_any (t : string) (Q : reply unit -> list event -> Prop) :
  (forall text, Q (Value tt) [Printed text]) -> yields h (print t) Q.
Proof. intros HQ. apply yields_print, HQ. Qed.

Lemma step_exists {B} (p : string) (k : bool -> tool B) Q :
  (forall b, yields h (k b) (fun r d => Q r (Probed p b :: d))) ->
  yields h (exists_path p ≫= k) Q.
Proof.
  intros Hk. eapply yields_bind.
  - apply (yields_exists p
             (fun r d => exists b, r = Value b /\ d = [Probed p b])). eauto.
  - intros a d (b & [= ->] & ->). apply Hk.
  - intros e d (b & [=] & _).
Qed.

Lemma step_run {B} (c : call) (k : outcome -> tool B) Q :
  (forall o, yields h (k o) (fun r d => Q r (Ran c o :: d))) ->
  yields h (run c ≫= k) Q.
Proof.
  intros Hk. eapply yields_bind.
  - apply (yields_run c
             (fun r d => exists o, r = Value o /\ d = [Ran c o])). eauto.
  - intros a d (o & [= ->] & ->). apply Hk.
  - intros e d (o & [=] & _).
Qed.

Lemma step_remove {B} (p : string) (k : option string -> tool B) Q :
  (forall e, yields h (k e) (fun r d => Q r (Unlinked p e :: d))) ->
  yields h (remove p ≫= k) Q.
Proof.
  intros Hk. eapply yields_bind.
  - apply (yields_remove p
             (fun r d => exists e, r = Value e /\ d = [Unlinked p e])). eauto.
  - intros a d (o & [= ->] & ->). apply Hk.
  - intros e d (o & [=] & _).
Qed.

Lemma step_stat {B} (p : string) (k : N -> tool B) Q :
  (forall n, yields h (k n) (fun r d => Q r (Sized p (inl n) :: d))) ->
  (forall message, Q (Raise (Error message)) [Sized p (inr message)]) ->
  yields h (stat_size p ≫= k) Q.
Proof.
  intros Hk He. eapply yields_bind.
  - apply (yields_stat p
             (fun r d => exists s, d = [Sized p s]
                /\ r = match s with
                       | inl n => Value n
                       | inr message => Raise (Error message)
                       end)); eauto.
  - intros a d ([n|message] & -> & [=]). subst. apply Hk.
  - intros e d ([n|message] & -> & [=]). subst. apply He.
Qed.

Lemma yields_raise {A} (e : exn) (Q : reply A -> list event -> Prop) :
  Q (Raise e) [] -> yields h (raise e) Q.
Proof. intros HQ log. exists (Raise e), []. now rewrite app_nil_r. Qed.

Lemma step_raise {A B} (e : exn) (k : A -> tool B) Q :
  Q (Raise e) [] -> yields h (raise e ≫= k) Q.
Proof.
  intros HQ log. exists (Raise e), []. now rewrite app_nil_r.
Qed.

Lemma step_exit {A B} (code : Z) (k : A -> tool B) Q :
  Q (Raise (SystemExit code)) [] -> yields h (sys_exit code ≫= k) Q.
Proof.
  intros HQ log. exists (Raise (SystemExit code)), []. now rewrite app_nil_r.
Qed.

Lemma step_remove_tree {B} (p : string) (k : unit -> tool B) Q :
  yields h (k tt) (fun r d => Q r (Rmtree p None :: d)) ->
  (forall message, Q (Raise (Error message)) [Rmtree p (Some message)]) ->
  yields h (remove_tree p ≫= k) Q.
Proof.
  intros Hk He. eapply yields_bind.
  - intros log. unfold remove_tree. eexists _, _. split; [reflexivity|].
    instantiate (1 := fun r d => exists s, d = [Rmtree p s]
      /\ r = match s with
             | None => Value tt
             | Some message => Raise (Error message)
             end).
    cbv beta. eauto.
  - intros [] d ([message|] & -> & [=]). apply Hk.
  - intros e d ([message|] & -> & [=]). subst. apply He.
Qed.

Lemma step_make_dirs {B} (p : string) (k : unit -> tool B) Q :
  yields h (k tt) (fun r d => Q r (Mkdir p None :: d)) ->
  (forall message, Q (Raise (Error message)) [Mkdir p (Some message)]) ->
  yields h (make_dirs p ≫= k) Q.
Proof.
  intros Hk He. eapply yields_bind.
  - intros log. unfold make_dirs. eexists _, _. split; [reflexivity|].
    instantiate (1 := fun r d => exists s, d = [Mkdir p s]
      /\ r = match s with
             | None => Value tt
             | Some message => Raise (Error message)
             end).
    cbv beta. eauto.
  - intros [] d ([message|] & -> & [=]). apply Hk.
  - intros e d ([message|] & -> & [=]). subst. apply He.
Qed.

Lemma step_open_file {B} (p : string) (k : list byte -> tool B) Q :
  (forall bytes, yields h (k bytes) (fun r d => Q r (Opened p (inl bytes) :: d))) ->
  (forall message, Q (Raise (Error message)) [Opened p (inr message)]) ->
  yields h (open_file p ≫= k) Q.
Proof.
  intros Hk He. eapply yields_bind.
  - intros log. unfold open_file. eexists _, _. split; [reflexivity|].
    instantiate (1 := fun r d => exists s, d = [Opened p s]
      /\ r = match s with
             | inl bytes => Value bytes
             | inr message => Raise (Error message)
             end).
    cbv beta. eauto.
  - intros a d ([bytes|message] & -> & [=]). subst. apply Hk.
  - intros e d ([bytes|message] & -> & [=]). subst. apply He.
Qed.

Lemma step_ask {A B} (f : host -> A) (k : A -> tool B) Q :
  yields h (k (f h)) Q -> yields h (ask f ≫= k) Q.
Proof.
  intros Hk. eapply yields_bind.
  - apply (yields_ask f (fun r d => r = Value (f h) /\ d = [])). auto.
  - intros a d [[= ->] ->]. exact Hk.
  - intros e d [[=] _].
Qed.

Lemma step_clock {B} (f : host -> list event -> string)
    (k : string -> tool B) Q :
  (forall t, yields h (k t) Q) -> yields h (clock f ≫= k) Q.
Proof.
  intros Hk. eapply yields_bind.
  - apply (yields_clock f (fun r d => exists t, r = Value t /\ d = [])). eauto.
  - intros a d (t & [= ->] & ->). apply Hk.
  - intros e d (t & [=] & _).
Qed.

Lemma step_ret {A B} (a : A) (k : A -> tool B) Q :
  yields h (k a) Q -> yields h (mret a ≫= k) Q.
Proof.
  intros Hk. eapply yields_bind.
  - apply (yields_ret a (fun r d => r = Value a /\ d = [])). auto.
  - intros a' d [[= ->] ->]. exact Hk.
  - intros e d [[=] _].
Qed.

Lemma step_assoc {A B C} (m : tool A) (k : A -> tool B) (k' : B -> tool C) Q :
  yields h (m ≫= fun a => k a ≫= k') Q -> yields h ((m ≫= k) ≫= k') Q.
Proof.
  intros Hm log. destruct (Hm log) as (r & d & E & HQ). exists r, d.
  split; [|exact HQ]. rewrite <- E. unfold mbind, tool_bind.
  now destruct (m h log) as [[a|e] log'].
Qed.

(** [try] and [except Exception]: an exception with a text goes to the
    handler, anything else passes. *)
Lemma yields_try {A} (m : tool A) (handler : string -> tool A) Q :
  yields h m (fun r d =>
    match r with
    | Raise (Error message) =>
        yields h (handler message) (fun r' d' => Q r' (d ++ d'))
    | _ => Q r d
    end) ->
  yields h (try_except m handler) Q.
Proof.
  intros Hm log. destruct (Hm log) as (r & d & E & HQ).
  unfold try_except. rewrite E.
  destruct r as [a|[code|message]]; eauto.
  destruct (HQ (log ++ d)) as (r' & d' & E' & HQ').
  exists r', (d ++ d'). rewrite E'. now rewrite app_assoc.
Qed.

Lemma step_external {A B} (f : list event -> (A + string) * list event)
    (k : A -> tool B) Q :
  (forall a d, yields h (k a) (fun r d' => Q r (d ++ d'))) ->
  (forall message d, Q (Raise (Error message)) d) ->
  yields h (external f ≫= k) Q.
Proof.
  intros Hk He. eapply yields_bind.
  - intros log. unfold external. destruct (f log) as [ending d].
    eexists _, _. split; [reflexivity|].
    instantiate (1 := fun r d => match r with
                                 | Raise (SystemExit _) => False
                                 | _ => True
                                 end).
    now destruct ending.
  - intros a d _. apply Hk.
  - intros [code|message] d H; [contradiction | apply He].
Qed.

(** A script of the earlier kind leaves nothing in the trace but what it
    printed and the processes it started. *)
Lemma step_script {A B} shell (m : Script.script A) (k : A -> tool B) Q :
  (forall a d, argv_only d -> yields h (k a) (fun r d' => Q r (d ++ d'))) ->
  yields h (script shell m ≫= k) Q.
Proof.
  intros Hk. eapply yields_bind.
  - intros log. unfold script.
    destruct (m _ []) as [a did]. eexists _, _. split; [reflexivity|].
    instantiate (1 := fun r d => exists a, r = Value a /\ argv_only d).
    exists a. split; [reflexivity|]. unfold argv_only.
    apply List.Forall_forall. intros e [[line|argv] [<- _]]%in_map_iff; eauto.
  - intros a d (a' & [= ->] & Hd). now apply Hk.
  - intros e d (a' & [=] & _).
Qed.

End Yields.

Section Views.

Import Tool.

Lemma ran_app a b : ran (a ++ b) = ran a ++ ran b.
Proof.
  induction a as [|[] a IH]; cbn [ran app]; now rewrite ?IH.
Qed.

Lemma lines_app a b : lines (a ++ b) = lines a ++ lines b.
Proof.
  induction a as [|e a IH]; [reflexivity|].
  destruct e; cbn [lines app]; rewrite IH; try reflexivity.
  now destruct (program c).
Qed.

Lemma commands_app a b : commands (a ++ b) = commands a ++ commands b.
Proof.
  induction a as [|e a IH]; [reflexivity|].
  destruct e; cbn [commands app]; rewrite IH; try reflexivity.
  now destruct (program c).
Qed.

Lemma probes_app p a b : probes p (a ++ b) = probes p a ++ probes p b.
Proof.
  induction a as [|e a IH]; [reflexivity|].
  destruct e; cbn [probes app]; rewrite IH; try reflexivity.
  now destruct (String.eqb path p).
Qed.

Lemma sized_app a b : sized (a ++ b) = sized a ++ sized b.
Proof.
  induction a as [|[] a IH]; cbn [sized app]; now rewrite ?IH.
Qed.

Lemma opened_app a b : opened (a ++ b) = opened a ++ opened b.
Proof.
  induction a as [|[] a IH]; cbn [opened app]; now rewrite ?IH.
Qed.

Lemma touched_app a b : touched (a ++ b) = touched a ++ touched b.
Proof.
  induction a as [|[] a IH]; cbn [touched app]; now rewrite ?IH.
Qed.

Lemma removed_app a b : removed (a ++ b) = removed a ++ removed b.
Proof.
  induction a as [|[] a IH]; cbn [removed app]; now rewrite ?IH.
Qed.

Lemma printed_app a b : printed (a ++ b) = printed a ++ printed b.
Proof.
  induction a as [|[] a IH]; cbn [printed app]; now rewrite ?IH.
Qed.

Lemma argv_only_app a b : argv_only a -> argv_only b -> argv_only (a ++ b).
Proof. apply Forall_app_2. Qed.

Lemma argv_only_lines d : argv_only d -> lines d = [].
Proof.
  induction 1 as [|e d He _ IH]; [reflexivity|].
  destruct e; try contradiction; [exact IH|].
  destruct He as (shell & argv & ->). exact IH.
Qed.

Lemma argv_only_commands d : argv_only d -> commands d = [].
Proof.
  induction 1 as [|e d He _ IH]; [reflexivity|].
  destruct e; try contradiction; [exact IH|].
  destruct He as (shell & argv & ->). exact IH.
Qed.

Lemma argv_only_probes p d : argv_only d -> probes p d = [].
Proof.
  induction 1 as [|e d He _ IH]; [reflexivity|].
  destruct e; try contradiction; exact IH.
Qed.

Lemma argv_only_sized d : argv_only d -> sized d = [].
Proof.
  induction 1 as [|e d He _ IH]; [reflexivity|].
  destruct e; try contradiction; exact IH.
Qed.

Lemma argv_only_opened d : argv_only d -> opened d = [].
Proof.
  induction 1 as [|e d He _ IH]; [reflexivity|].
  destruct e; try contradiction; exact IH.
Qed.

Lemma argv_only_removed d : argv_only d -> removed d = [].
Proof.
  induction 1 as [|e d He _ IH]; [reflexivity|].
  destruct e; try contradiction; exact IH.
Qed.

End Views.

(** One step of a computation; [say] deals with a [print] that is followed
    by more, [said] with one that is not. *)
Ltac tool_step_with say said :=
  cbv beta;
  lazymatch goal with
  | |- Tool.yields _ ((_ ≫= _) ≫= _) _ => apply step_assoc
  | |- Tool.yields _ (Tool.print _ ≫= _) _ => say
  | |- Tool.yields _ (Tool.exists_path _ ≫= _) _ =>
      apply step_exists; intros [|]
  | |- Tool.yields _ (Tool.run _ ≫= _) _ =>
      apply step_run; intros [?rc ?out ?err|?message]
  | |- Tool.yields _ (Tool.remove _ ≫= _) _ =>
      apply step_remove; intros [?message|]
  | |- Tool.yields _ (Tool.stat_size _ ≫= _) _ =>
      apply step_stat; [intros ?size | intros ?message]
  | |- Tool.yields _ (Tool.remove_tree _ ≫= _) _ =>
      apply step_remove_tree; [|intros ?message]
  | |- Tool.yields _ (Tool.make_dirs _ ≫= _) _ =>
      apply step_make_dirs; [|intros ?message]
  | |- Tool.yields _ (Tool.open_file _ ≫= _) _ =>
      apply step_open_file; [intros ?bytes|intros ?message]
  | |- Tool.yields _ (Tool.raise _) _ => apply yields_raise
  | |- Tool.yields _ (Tool.raise _ ≫= _) _ => apply step_raise
  | |- Tool.yields _ (Tool.sys_exit _ ≫= _) _ => apply step_exit
  | |- Tool.yields _ (Tool.try_except _ _) _ => apply yields_try
  | |- Tool.yields _ (Tool.external _ ≫= _) _ =>
      apply step_external; [intros ?a ?d|intros ?message ?d]
  | |- Tool.yields _ (Tool.ask _ ≫= _) _ => apply step_ask
  | |- Tool.yields _ (Tool.clock _ ≫= _) _ => apply step_clock; intros ?time
  | |- Tool.yields _ (Tool.script _ _ ≫= _) _ =>
      apply step_script; intros ?a ?d ?Hd
  | |- Tool.yields _ (mret _ ≫= _) _ => apply step_ret
  | |- Tool.yields _ (Tool.print _) _ => said
  | |- Tool.yields _ (mret _) _ => apply yields_ret
  | |- Tool.yields _ (Tool.sys_exit _) _ => apply yields_exit
  | |- Tool.yields _ ?m _ =>
      match m with
      | context [Z.eqb ?rc 0] =>
          is_var rc; let E := fresh "Hrc" in destruct (Z.eqb rc 0) eqn:E
      | context [ReleaseSteps.truthy ?s] =>
          let E := fresh "Hs" in destruct (ReleaseSteps.truthy s) eqn:E
      | _ => progress cbn beta iota delta [negb fst snd]
      end
  end.

(** A step that keeps what is printed, and one that forgets it. *)
Ltac tool_step_loud :=
  tool_step_with ltac:(apply step_print) ltac:(apply yields_print).

Ltac tool_step :=
  tool_step_with ltac:(apply step_print_any; intros ?text)
                 ltac:(apply yields_print_any; intros ?text).


Lemma yields_reply h {A} (m : Tool.tool A) Q :
  Tool.yields h m Q -> forall log, exists r d, m h log = (r, log ++ d) /\ Q r d.
Proof. intros Hm. exact Hm. Qed.

Section OutputName.

Import Tool BuildSteps.

Lemma target_os_ext system platform :
  (target_os system platform).2
  = if Py.startswith (lower system) "windows" then ".exe"%string
    else ""%string.
Proof.
  unfold target_os.
  repeat match goal with |- context [if ?b then _ else _] => destruct b end;
    reflexivity.
Qed.

Lemma output_name_cases h :
  output_name h = "frogllm"%string \/ output_name h = "frogllm.exe"%string.
Proof.
  unfold output_name. rewrite target_os_ext.
  destruct (Py.startswith _ _); auto.
Qed.

Lemma go_mod_output h : String.eqb "go.mod" (output_name h) = false.
Proof. now destruct (output_name_cases h) as [-> | ->]. Qed.

Lemma output_go_mod h : String.eqb (output_name h) "go.mod" = false.
Proof. now destruct (output_name_cases h) as [-> | ->]. Qed.

Lemma frogllm_go_output h : String.eqb "frogllm.go" (output_name h) = false.
Proof. now destruct (output_name_cases h) as [-> | ->]. Qed.

Lemma go_install_output h : String.eqb go_install (output_name h) = false.
Proof. now destruct (output_name_cases h) as [-> | ->]. Qed.

End OutputName.

Ltac string_eval :=
  repeat match goal with
  | |- context [String.eqb ?a ?b] =>
      let v := eval vm_compute in (String.eqb a b) in
      lazymatch v with
      | true => change (String.eqb a b) with true
      | false => change (String.eqb a b) with false
      end
  end.

Ltac trace_simpl :=
  repeat (progress
            (cbn [Tool.ran Tool.lines Tool.commands Tool.probes Tool.removed
                  Tool.printed Tool.sized Tool.opened Tool.touched app Tool.program Tool.cwd Tool.env Tool.shell
                  fst snd];
             rewrite ?String.eqb_refl, ?go_mod_output, ?output_go_mod,
               ?go_install_output, ?frogllm_go_output;
             string_eval; cbv iota;
             rewrite ?ran_app, ?lines_app, ?commands_app, ?probes_app,
               ?removed_app, ?printed_app, ?sized_app, ?opened_app, ?touched_app)).





Ltac argv_only_simpl :=
  repeat match goal with
  | H : Tool.argv_only ?d |- context [Tool.lines ?d] =>
      rewrite (argv_only_lines d H)
  | H : Tool.argv_only ?d |- context [Tool.commands ?d] =>
      rewrite (argv_only_commands d H)
  | H : Tool.argv_only ?d |- context [Tool.probes ?p ?d] =>
      rewrite (argv_only_probes p d H)
  | H : Tool.argv_only ?d |- context [Tool.removed ?d] =>
      rewrite (argv_only_removed d H)
  end;
  cbn [app].

Section BuildGo.

Import Tool BuildSteps.

(** What [build_go] leaves behind, one way through it after the other;
    scripts of the earlier kind are kept as the stretches of trace they
    leave. *)
Lemma build_go_yields (h : host) :
  yields h build_go (fun r d =>
    (r = Value false /\ probes "go.mod" d = [false] /\ ran d = []
     /\ removed d = [] /\ commands d = []
     /\ probes (output_name h) d = [])
    \/ (probes "go.mod" d = [true]
        /\ exists go version commit time o found after,
             let line :=
               build_command go version commit time (output_name h) in
             (go = "go"%string \/ go = go_install)
             /\ commands d = [(line, o)]
             /\ In (Call (Line line) None
                      [("GOOS"%string,
                        (target_os (platform_system h) (sys_platform h)).1);
                       ("GOARCH"%string, target_arch (platform_machine h))]
                      true, o)
                   (ran d)
             /\ probes (output_name h) d = found :: after
             /\ removed d = (if found : bool then [output_name h] else [])
             /\ ((r = Value true /\ succeeded o = true /\ after = [true])
                 \/ ((exists message, r = Raise (Error message))
                     /\ succeeded o = true /\ after = [true])
                 \/ (r = Value false /\ succeeded o = true
                     /\ after = [false])
                 \/ (r = Value false /\ succeeded o = false
                     /\ after = [])))).
Proof.
  unfold build_go, print_step, run_command, go_cmd.
  repeat tool_step.
  2: { left. trace_simpl. repeat split. }
  destruct (target_os (platform_system h) (sys_platform h))
    as [goos ext] eqn:Hos.
  assert (("frogllm" +:+ ext)%string = output_name h) as ->
    by (unfold output_name; now rewrite Hos).
  repeat tool_step.
  all: right; trace_simpl; argv_only_simpl; (split; [reflexivity|]).
  all: do 7 eexists; cbv zeta.
  all: split; [|split; [reflexivity|]].
  all: try ((left; reflexivity) || (right; reflexivity)).
  all: split; [rewrite !in_app_iff; right; right; left; reflexivity|].
  all: split; [reflexivity|].
  all: split; [reflexivity|].
  all: cbn [succeeded]; rewrite ?Hrc.
  all: first [ left; solve [repeat split]
             | right; left; solve [split; [eexists; reflexivity|]; repeat split]
             | right; right; left; solve [repeat split]
             | right; right; right; solve [repeat split] ].
Qed.

End BuildGo.



(** X17: [build_go] removes at most one file, the binary it is about to
    build, and tries to exactly when it has found that binary before the
    build. *)
Theorem build_go_removal (h : Tool.host) (log : list Tool.event) :
  exists r d,
    BuildSteps.build_go h log = (r, log ++ d)
    /\ (Tool.removed d = [] \/ Tool.removed d = [BuildSteps.output_name h])
    /\ (Tool.removed d <> []
        <-> head (Tool.probes (BuildSteps.output_name h) d) = Some true).
Proof.
  destruct (build_go_yields h log) as (r & d & E & H).
  exists r, d. split; [exact E|].
  destruct H as [(_ & _ & _ & -> & _ & ->)
                |(_ & go & version & commit & time & o & found & after
                  & _ & _ & _ & -> & -> & _)].
  - split; [auto|]. split; [congruence | discriminate].
  - destruct found; cbn [head]; (split; [auto|]); split; congruence.
Qed.

Section BuildMain.

Import Tool BuildSteps.

(** What [main] relies on of [check_dependencies]: it starts with
    [npm --version], hands no command line to the shell and looks for no
    path but the private Go toolchain; a non-zero exit of npm ends it with
    [True] at once, an npm that cannot be started with [False]. *)
Lemma check_dependencies_yields (h : host) :
  yields h check_dependencies (fun r d =>
    match r with
    | Value b =>
        exists o rest,
          ran d = (argv_call true ["npm"; "--version"]%string, o) :: rest
          /\ commands d = []
          /\ (forall p, String.eqb go_install p = false -> probes p d = [])
          /\ match o with
             | Exited rc _ _ => rc <> 0%Z -> b = true /\ rest = []
             | Failed _ => b = false /\ rest = []
             end
    | Raise _ => False
    end).
Proof.
  unfold check_dependencies, print_step, go_cmd.
  repeat tool_step.
  all: do 2 eexists; trace_simpl.
  all: split; [reflexivity|]; split; [reflexivity|].
  all: split; [try (intros p ->); reflexivity|].
  all: try (intros Hne; apply Z.eqb_neq in Hne; congruence).
  all: auto.
Qed.

(** What [main] relies on of [build_ui]. *)
Lemma build_ui_yields (h : host) :
  yields h build_ui (fun r d =>
    match r with
    | Value b =>
        probes "ui" d <> []
        /\ (b = true ->
            Forall (fun co => succeeded co.2 = true) (commands d)
            /\ exists before o, commands d = before ++ [(npm_run_build, o)])
    | Raise _ => False
    end).
Proof.
  unfold build_ui, print_step, run_command.
  repeat tool_step.
  all: trace_simpl; (split; [discriminate|]); try discriminate; intros _.
  all: split;
    [repeat (apply List.Forall_cons || apply List.Forall_nil); assumption|].
  - now exists [], (Exited rc out err).
  - now exists [], (Exited rc out err).
  - now exists [(npm_install, Exited rc out err)], (Exited rc0 out0 err0).
  - now exists [(npm_install, Exited rc out err)], (Exited rc0 out0 err0).
Qed.

(** What [main] relies on of [build_go]. *)
Lemma build_go_summary (h : host) :
  yields h build_go (fun r d =>
    match r with
    | Value true =>
        last (probes (output_name h) d) = Some true
        /\ exists line o, commands d = [(line, o)] /\ succeeded o = true
    | Value false => True
    | Raise e => exists message, e = Error message
    end).
Proof.
  eapply yields_weaken; [apply build_go_yields|].
  intros r d [(-> & _)
             |(_ & go & version & commit & time & o & found & after
               & _ & Hcmd & _ & Hp & _ & H)]; [exact I|].
  destruct H as [(-> & Ho & ->)|[([m ->] & Ho & ->)
                |[(-> & Ho & ->)|(-> & Ho & ->)]]]; eauto.
  rewrite Hp. split; [reflexivity | eauto].
Qed.

(** The name [main] announces is the name [build_go] builds. *)
Lemma output_name_main (h : host) :
  (if Py.startswith (lower (platform_system h)) "windows"
   then "frogllm.exe" else "frogllm")%string
  = output_name h.
Proof.
  unfold output_name. rewrite target_os_ext.
  now destruct (Py.startswith _ _).
Qed.

(** The script ends as [main] does, but for an exception of [main], which
    it reports before it leaves with exit code 1. *)
Lemma entry_yields (h : host) (Q : reply unit -> list event -> Prop) :
  yields h main (fun r d =>
    match r with
    | Raise (Error _) =>
        forall text, Q (Raise (SystemExit 1)) (d ++ [Printed text])
    | _ => Q r d
    end) ->
  yields h entry Q.
Proof.
  intros Hm log. destruct (Hm log) as (r & d & E & HQ).
  unfold entry. rewrite E.
  destruct r as [[]|[code|message]]; eauto.
  eexists _, _. split; [|apply HQ].
  unfold mbind, tool_bind, print, sys_exit. now rewrite <- app_assoc.
Qed.

End BuildMain.

(** Every way through the script, with what its three steps leave
    behind. *)
Ltac main_step :=
  cbv beta;
  lazymatch goal with
  | |- Tool.yields _ (BuildSteps.check_dependencies ≫= _) _ =>
      eapply yields_bind;
      [apply check_dependencies_yields
      |let o := fresh "npm" in
       let rest := fresh "rest" in
       let Hran := fresh "Hran" in
       let Hcmd := fresh "Hcmd" in
       let Hprobe := fresh "Hprobe" in
       let Hnpm := fresh "Hnpm" in
       intros [|] ?d (o & rest & Hran & Hcmd & Hprobe & Hnpm)
      |intros ? ? []]
  | |- Tool.yields _ (BuildSteps.build_ui ≫= _) _ =>
      eapply yields_bind;
      [apply build_ui_yields
      |let Hui := fresh "Hui" in
       let Hbuilt := fresh "Hbuilt" in
       intros [|] ?d [Hui Hbuilt]; [specialize (Hbuilt eq_refl)|clear Hbuilt]
      |intros ? ? []]
  | |- Tool.yields _ (BuildSteps.build_go ≫= _) _ =>
      eapply yields_bind;
      [apply build_go_summary
      |let Hgo := fresh "Hgo" in intros [|] ?d Hgo
      |intros ? ?d [? ->]; cbv beta iota; intros ?text]
  | _ => tool_step_loud
  end.

Ltac main_paths :=
  intros h; apply yields_reply, entry_yields;
  unfold BuildSteps.main, BuildSteps.print_banner;
  repeat main_step; cbv beta iota.



(** X20: when [npm --version] runs to its end with a non-zero exit code,
    the script does not stop for missing dependencies but goes on to the
    UI build; when npm cannot be started, it leaves with exit code 1
    before the UI build. *)
Theorem script_npm (h : Tool.host) (log : list Tool.event) :
  exists r d,
    BuildSteps.entry h log = (r, log ++ d)
    /\ forall o,
         head (Tool.ran d)
         = Some (Tool.argv_call true ["npm"; "--version"]%string, o) ->
         match o with
         | Tool.Exited rc _ _ => rc <> 0%Z -> Tool.probes "ui" d <> []
         | Tool.Failed _ =>
             r = Tool.Raise (Tool.SystemExit 1) /\ Tool.probes "ui" d = []
         end.
Proof.
  revert h log. main_paths.
  all: intros o; trace_simpl; rewrite ?Hran; cbn [app head];
    try discriminate.
  all: intros [= <-]; destruct npm as [rc out err|message];
    [intros Hrc; specialize (Hnpm Hrc)|];
    destruct Hnpm as [Hb _]; try discriminate Hb.
  all: rewrite (Hprobe "ui"%string eq_refl); cbn [app]; auto.
  all: rewrite ?app_nil_r; try exact Hui.
  all: intros Hnil; apply app_eq_nil in Hnil as [Hnil _]; contradiction.
Qed.

(** X21: when the script ends normally, the binary it tells the user to
    run is the one [build_go] built: the name it prints is the name that
    was last looked for, and found. *)
Theorem script_announces (h : Tool.host) (log : list Tool.event) :
  exists r d,
    BuildSteps.entry h log = (r, log ++ d)
    /\ (r = Tool.Value tt ->
        In ("🚀 Ready to run: ./" +:+ BuildSteps.output_name h)%string
           (Tool.printed d)
        /\ last (Tool.probes (BuildSteps.output_name h) d) = Some true).
Proof.
  revert h log. main_paths.
  all: intros Heq; try discriminate Heq.
  all: rewrite output_name_main; trace_simpl.
  all: destruct Hgo as [Hlast _].
  all: rewrite ?app_nil_r, !last_app, Hlast.
  all: split; [|reflexivity].
  all: cbn [In]; rewrite ?in_app_iff; cbn [In].
  all: repeat match goal with
       | |- _ \/ _ => (left; reflexivity) || right
       end.
Qed.

Section Target.

Import BuildSteps.

Lemma lower_char_idem c : lower_char (lower_char c) = lower_char c.
Proof.
  destruct c as [[] [] [] [] [] [] [] []]; reflexivity.
Qed.

Lemma lower_idem s : lower (lower s) = lower s.
Proof.
  induction s as [|c s IH]; [reflexivity|].
  cbn [lower]. now rewrite lower_char_idem, IH.
Qed.

Lemma among_In s choices : among s choices = true -> In s choices.
Proof.
  unfold among. rewrite existsb_exists.
  intros (x & Hin & Heq). apply String.eqb_eq in Heq. now subst.
Qed.

End Target.

(** X22: whatever [platform.machine()] says, [build_go] sets [GOARCH] to
    one of [amd64], [arm64], [arm] and [386]; the name is compared without
    regard to the case of its ASCII letters, and every name that begins
    with [armv6] or [armv7] gives [arm]. *)
Theorem target_arch_known (machine : string) :
  In (BuildSteps.target_arch machine) ["amd64"; "arm64"; "arm"; "386"]%string
  /\ BuildSteps.target_arch (BuildSteps.lower machine)
     = BuildSteps.target_arch machine
  /\ (Py.startswith (BuildSteps.lower machine) "armv6"
      || Py.startswith (BuildSteps.lower machine) "armv7" = true ->
      BuildSteps.target_arch machine = "arm"%string).
Proof.
  split; [|split].
  - unfold BuildSteps.target_arch.
    repeat match goal with
    | |- context [if ?b then _ else _] => destruct b
    end; cbn; auto 6.
  - unfold BuildSteps.target_arch. now rewrite lower_idem.
  - unfold BuildSteps.target_arch.
    destruct (BuildSteps.among _ ["x86_64"; "amd64"]%string) eqn:H1.
    { apply among_In in H1.
      destruct H1 as [<-|[<-|[]]]; discriminate. }
    destruct (BuildSteps.among _ ["arm64"; "aarch64"]%string) eqn:H2.
    { apply among_In in H2.
      destruct H2 as [<-|[<-|[]]]; discriminate. }
    destruct (Py.startswith _ "armv7");
      [intros _; now rewrite orb_true_r|].
    destruct (Py.startswith _ "armv6"); [intros _|discriminate].
    rewrite !orb_true_r, orb_false_r.
    destruct (BuildSteps.among _ ["armv7l"; "armv7"]%string); reflexivity.
Qed.

(** On a source tree that has never been built and a machine where every
    command succeeds, the script installs, builds the UI and builds the
    binary, and ends normally. *)
Example script_fresh_tree :
  BuildSteps.exit_code (BuildSteps.entry BuildSteps.fresh_tree []).1 = 0%Z
  /\ List.length (Tool.lines (BuildSteps.entry BuildSteps.fresh_tree []).2)
     = 3%nat
  /\ Tool.probes "frogllm" (BuildSteps.entry BuildSteps.fresh_tree []).2
     = [false; true].
Proof. vm_compute. auto. Qed.

Section ReleaseCommand.

Import Tool ReleaseSteps.

(** What [run_command] of release.py leaves behind: one process, started
    without the shell, and nothing else but printing. *)
Lemma release_run_command_yields (h : host) cmd cwd env :
  yields h (run_command cmd cwd env) (fun r d =>
    exists o,
      ran d = [(Call (Argv cmd) cwd env false, o)]
      /\ (forall p, probes p d = [])
      /\ sized d = [] /\ opened d = [] /\ touched d = []
      /\ r = match o with
             | Exited rc stdout stderr =>
                 Value (Z.eqb rc 0, if Z.eqb rc 0 then stdout else stderr)
             | Failed message => Raise (Error message)
             end).
Proof.
  unfold run_command, print_colored.
  repeat tool_step.
  all: eexists; trace_simpl; (split; [reflexivity|]); repeat split.
  all: cbv iota; now rewrite ?Hrc.
Qed.

End ReleaseCommand.

(** A step through [run_command] of release.py. *)
Ltac release_step :=
  cbv beta;
  lazymatch goal with
  | |- Tool.yields _ (ReleaseSteps.run_command _ _ _ ≫= _) _ =>
      let o := fresh "o" in
      let Hran := fresh "Hran" in
      let Hprobes := fresh "Hprobes" in
      let Hsized := fresh "Hsized" in
      let Hopened := fresh "Hopened" in
      let Htouched := fresh "Htouched" in
      let Hr := fresh "Hr" in
      eapply yields_bind;
      [apply release_run_command_yields
      |intros [? ?] ?d (o & Hran & Hprobes & Hsized & Hopened & Htouched & Hr);
       destruct o as [?rc ?out ?err|?message];
       [injection Hr as -> ->|discriminate Hr];
       let Hrc := fresh "Hrc" in
       match type of Hran with
       | context [Tool.Exited ?rc _ _] => destruct (Z.eqb rc 0) eqn:Hrc
       end
      |intros ? ?d (o & Hran & Hprobes & Hsized & Hopened & Htouched & Hr);
       destruct o as [?rc ?out ?err|?message];
       [discriminate Hr|injection Hr as ->]]
  | _ => tool_step
  end.

Ltac segments_simpl :=
  repeat match goal with
  | H : Tool.ran ?d = _ |- context [Tool.ran ?d] => rewrite H
  | H : forall p, Tool.probes p ?d = [] |- context [Tool.probes ?p ?d] =>
      rewrite (H p)
  | H : Tool.sized ?d = _ |- context [Tool.sized ?d] => rewrite H
  | H : Tool.opened ?d = _ |- context [Tool.opened ?d] => rewrite H
  | H : Tool.touched ?d = _ |- context [Tool.touched ?d] => rewrite H
  end;
  cbn [app].

Ltac check_prerequisites_paths :=
  intros h; apply yields_reply;
  unfold ReleaseSteps.check_prerequisites, ReleaseSteps.print_header,
    ReleaseSteps.print_colored;
  repeat release_step; trace_simpl; segments_simpl.


(** X24: [check_prerequisites] asks in a fixed order, [go version], then
    [git --version], then [.git], then [go.mod], each time without the
    shell and with the inherited environment, and stops at the first check
    that fails: nothing is started or looked for after it. *)
Theorem check_prerequisites_order (h : Tool.host) (log : list Tool.event) :
  exists r d,
    ReleaseSteps.check_prerequisites h log = (r, log ++ d)
    /\ (List.map fst (Tool.ran d)
        = [Tool.argv_call false ["go"; "version"]%string]
        \/ List.map fst (Tool.ran d)
           = [Tool.argv_call false ["go"; "version"]%string;
              Tool.argv_call false ["git"; "--version"]%string])
    /\ (forall c o, In (c, o) (Tool.ran d) -> Tool.succeeded o = false ->
        last (Tool.ran d) = Some (c, o)
        /\ Tool.probes ".git" d = [] /\ Tool.probes "go.mod" d = [])
    /\ (Tool.probes ".git" d <> [] -> List.length (Tool.ran d) = 2%nat)
    /\ (Tool.probes "go.mod" d <> [] -> Tool.probes ".git" d = [true]).
Proof.
  revert h log. check_prerequisites_paths.
  all: cbn [List.map fst last List.length].
  all: split; [(left; reflexivity) || (right; reflexivity)|].
  all: split;
    [intros c o Hin Ho;
     repeat (destruct Hin as [Hin|Hin];
             [injection Hin as <- <-; cbn [Tool.succeeded] in Ho;
              try congruence|]);
     try contradiction; auto
    |].
  all: split; intros H; congruence || reflexivity.
Qed.

Section BuildBinaries.

Import Tool ReleaseSteps.

Lemma recorded_app_l d d' b : recorded d' b -> recorded (d ++ d') b.
Proof.
  intros (Hp & bytes & content & Hs & Hsize & Ho & Hd).
  split; [exact Hp|]. exists bytes, content.
  rewrite sized_app, opened_app, !in_app_iff. auto.
Qed.

Lemma calculate_sha256_digest content :
  Sha256.hexdigest (Release.feed content Sha256.new)
  = Sha256.sha256_hex content.
Proof.
  rewrite feed_update by apply new_well_formed.
  apply hexdigest_update_new.
Qed.

Lemma found_skip d d' t :
  probes (output_path t) d = [] -> found (d ++ d') t = found d' t.
Proof. intros H. unfold found. now rewrite probes_app, H. Qed.

Lemma found_here d d' t b :
  probes (output_path t) d = [b] -> probes (output_path t) d' = [] ->
  found (d ++ d') t = b.
Proof.
  intros H H'. unfold found. rewrite probes_app, H, H'. now destruct b.
Qed.

Lemma found_never d t : probes (output_path t) d = [] -> found d t = false.
Proof. intros H. unfold found. now rewrite H. Qed.

Lemma filter_found_skip d d' targets :
  Forall (fun t => probes (output_path t) d = []) targets ->
  List.filter (found (d ++ d')) targets = List.filter (found d') targets.
Proof.
  induction 1 as [|t targets Ht _ IH]; [reflexivity|].
  cbn [List.filter]. now rewrite IH, (found_skip d d' t Ht).
Qed.

Lemma recorded_app_r d d' b : recorded d b -> recorded (d ++ d') b.
Proof.
  intros (Hp & bytes & content & Hs & Hsize & Ho & Hd).
  split; [exact Hp|]. exists bytes, content.
  rewrite sized_app, opened_app, !in_app_iff. auto.
Qed.

(** One round of the loop followed by the rounds for the other targets:
    [before] is the trace of the round for [t], which looked for the
    binary of [t] with the answers [probe] and for nothing else, and
    [kept] the entries it added. *)
Lemma build_round (flags : string) (t : target) (rest : list target)
    (before d : list event) (o : outcome) (probe : list bool)
    (kept new : list binary) :
  ~ In (output_path t) (List.map output_path rest) ->
  ran before = [(build_call flags t, o)] ->
  (forall p, probes p before
             = if String.eqb (output_path t) p then probe else []) ->
  List.map target_of kept
  = (if found before t then [t] else []) ->
  Forall (recorded before) kept ->
  List.map target_of new = List.filter (found d) rest ->
  Forall (recorded d) new ->
  List.map fst (ran d) = List.map (build_call flags) rest ->
  (forall p, ~ In p (List.map output_path rest) -> probes p d = []) ->
  List.map target_of (kept ++ new)
  = List.filter (found (before ++ d)) (t :: rest)
  /\ Forall (recorded (before ++ d)) (kept ++ new)
  /\ List.map fst (ran (before ++ d))
     = List.map (build_call flags) (t :: rest)
  /\ (forall p, ~ In p (List.map output_path (t :: rest)) ->
      probes p (before ++ d) = []).
Proof.
  intros Hfresh Hran Hprobe Hkept Hrec Hnew Hrecnew Hrest Hother.
  assert (Hrest_probe :
    Forall (fun t' => probes (output_path t') before = []) rest).
  { apply List.Forall_forall. intros t' Hin. rewrite Hprobe.
    destruct (String.eqb_spec (output_path t) (output_path t')) as [E|];
      [|reflexivity].
    exfalso. apply Hfresh. rewrite E. now apply in_map. }
  split; [|split; [|split]].
  - rewrite map_app, Hkept, Hnew. cbn [List.filter].
    rewrite (filter_found_skip before d rest Hrest_probe).
    assert (found (before ++ d) t = found before t) as ->.
    { unfold found. rewrite probes_app, (Hother _ Hfresh).
      now rewrite app_nil_r. }
    now destruct (found before t).
  - apply Forall_app. split.
    + eapply Forall_impl; [exact Hrec|]. intros b. apply recorded_app_r.
    + eapply Forall_impl; [exact Hrecnew|]. intros b. apply recorded_app_l.
  - rewrite ran_app, map_app, Hran, Hrest. reflexivity.
  - intros p Hp. cbn [List.map In] in Hp.
    rewrite probes_app, Hprobe, Hother by tauto.
    destruct (String.eqb_spec (output_path t) p); [tauto | reflexivity].
Qed.

(** The loop of [build_binaries]: every target is tried, in order; the
    entries added are those of the targets whose binary was found, each as
    the trace records its file; no other path is looked for. *)
Lemma build_each_yields (h : host) (flags : string) (targets : list target) :
  forall built,
  List.NoDup (List.map output_path targets) ->
  yields h (build_each flags targets built) (fun r d =>
    match r with
    | Value binaries =>
        exists new,
          binaries = built ++ new
          /\ List.map target_of new = List.filter (found d) targets
          /\ Forall (recorded d) new
          /\ List.map fst (ran d) = List.map (build_call flags) targets
          /\ (forall p, ~ In p (List.map output_path targets) ->
              probes p d = [])
    | Raise e => exists message, e = Error message
    end).
Proof.
  induction targets as [|t rest IH]; intros built Hdup.
  - cbn [build_each]. apply yields_ret. exists []. rewrite app_nil_r.
    repeat split; auto.
  - cbn [List.map] in Hdup. inversion Hdup as [|? ? Hfresh Hdup']; subst.
    cbn [build_each]. unfold print_colored, get_file_size, calculate_sha256.
    repeat release_step.
    all: try (eexists; reflexivity).
    all: (eapply yields_weaken; [apply (IH _ Hdup')|]);
      intros [binaries|e] d0 H; [|exact H];
      destruct H as (new & -> & Hnew & Hrecnew & Hrest & Hother).
    + set (b := Binary t (output_path t) _ _).
      set (before := Printed text :: d
                     ++ [Probed (output_path t) true;
                         Sized (output_path t) (inl size0);
                         Opened (output_path t) (inl bytes);
                         Printed text0]).
      replace (Printed text :: d ++ _) with (before ++ d0)
        by (unfold before; cbn [app]; rewrite <- app_assoc; reflexivity).
      exists ([b] ++ new). split; [now rewrite <- app_assoc|].
      assert (Hp : forall p, probes p before
                = if String.eqb (output_path t) p then [true] else []).
      { intros p. unfold before. trace_simpl. rewrite (Hprobes p).
        cbn [app]. now destruct (String.eqb _ _). }
      apply (build_round flags t rest before d0 (Exited rc out err)
               [true] [b] new); auto.
      * unfold before. trace_simpl. now rewrite Hran.
      * unfold found. rewrite Hp, String.eqb_refl. reflexivity.
      * apply List.Forall_cons; [|apply List.Forall_nil].
        split; [reflexivity|]. exists size0, bytes. unfold before, b.
        trace_simpl. rewrite Hsized, Hopened. cbn [app In path size sha256].
        rewrite calculate_sha256_digest. auto.
    + set (before := Printed text :: d
                     ++ [Probed (output_path t) false; Printed text0]).
      replace (Printed text :: d ++ _) with (before ++ d0)
        by (unfold before; cbn [app]; rewrite <- app_assoc; reflexivity).
      exists ([] ++ new). split; [reflexivity|].
      assert (Hp : forall p, probes p before
                = if String.eqb (output_path t) p then [false] else []).
      { intros p. unfold before. trace_simpl. rewrite (Hprobes p).
        cbn [app]. now destruct (String.eqb _ _). }
      apply (build_round flags t rest before d0 (Exited rc out err)
               [false] [] new); auto.
      * unfold before. trace_simpl. now rewrite Hran.
      * unfold found. rewrite Hp, String.eqb_refl. reflexivity.
    + set (before := Printed text :: d ++ [Printed text0]).
      replace (Printed text :: d ++ _) with (before ++ d0)
        by (unfold before; cbn [app]; rewrite <- app_assoc; reflexivity).
      exists ([] ++ new). split; [reflexivity|].
      assert (Hp : forall p, probes p before
                = if String.eqb (output_path t) p then [] else []).
      { intros p. unfold before. trace_simpl. rewrite (Hprobes p).
        cbn [app]. now destruct (String.eqb _ _). }
      apply (build_round flags t rest before d0 (Exited rc out err)
               [] [] new); auto.
      * unfold before. trace_simpl. now rewrite Hran.
      * unfold found. rewrite Hp, String.eqb_refl. reflexivity.
Qed.

End BuildBinaries.

Section BuildBinariesWhole.

Import Tool ReleaseSteps.

Lemma build_targets_distinct : List.NoDup (List.map output_path BUILD_TARGETS).
Proof.
  repeat (apply List.NoDup_cons; [cbn; intuition discriminate|]).
  apply List.NoDup_nil.
Qed.

(** [get_git_commit] of release.py on the machine of the trace: one
    process, started without the shell. *)
Lemma release_commit_yields (h : host) :
  yields h (script false ReleaseInfo.get_git_commit) (fun r d =>
    exists commit o,
      r = Value commit
      /\ d = [Ran (argv_call false ["git"; "rev-parse"; "HEAD"]%string) o]).
Proof.
  intros log. unfold script, ReleaseInfo.get_git_commit, Script.run.
  unfold mbind, mret, Script.script_bind, Script.script_ret.
  cbn [Script.subprocess_run].
  destruct (spawn h log _) as [rc out err|message]; cbn [seen].
  - destruct (Z.eqb rc 0); eexists _, _; (split; [reflexivity|]);
      cbn [List.map]; eauto.
  - eexists _, _. split; [reflexivity|]. cbn [List.map]. eauto.
Qed.

Lemma recorded_cons e d b : recorded d b -> recorded (e :: d) b.
Proof. apply (recorded_app_l [e]). Qed.

Lemma found_app_r d d' t :
  probes (output_path t) d' = [] -> found (d ++ d') t = found d t.
Proof. intros H. unfold found. now rewrite probes_app, H, app_nil_r. Qed.

Lemma filter_found_cons e d targets :
  match e with
  | Probed p _ => ~ In p (List.map output_path targets)
  | _ => True
  end ->
  List.filter (found (e :: d)) targets = List.filter (found d) targets.
Proof.
  intros He. apply (filter_found_skip [e] d targets).
  apply List.Forall_forall. intros t Hin.
  destruct e as [| |q answer| | | | |]; try reflexivity. cbn [probes].
  destruct (String.eqb_spec q (output_path t)) as [->|]; [|reflexivity].
  exfalso. apply He. now apply in_map.
Qed.

Lemma filter_found_app_r d d' targets :
  (forall p, probes p d' = []) ->
  List.filter (found (d ++ d')) targets = List.filter (found d) targets.
Proof.
  intros H. induction targets as [|t targets IH]; [reflexivity|].
  cbn [List.filter]. now rewrite IH, (found_app_r d d' t (H _)).
Qed.

End BuildBinariesWhole.

Ltac build_binaries_step :=
  cbv beta;
  lazymatch goal with
  | |- Tool.yields _
         (Tool.script false ReleaseInfo.get_git_commit ≫= _) _ =>
      eapply yields_bind;
      [apply release_commit_yields
      |intros ?commit ?d (? & ?o & [= <-] & ->)
      |intros ? ?d (? & ? & [=] & _)]
  | |- Tool.yields _ (ReleaseSteps.build_each _ _ _ ≫= _) _ =>
      let new := fresh "new" in
      let Hb := fresh "Hb" in
      let Hmap := fresh "Hmap" in
      let Hrec := fresh "Hrec" in
      let Hran := fresh "Hran" in
      let Hother := fresh "Hother" in
      eapply yields_bind;
      [apply build_each_yields, build_targets_distinct
      |intros ?binaries ?d (new & Hb & Hmap & Hrec & Hran & Hother);
       cbn [app] in Hb; subst
      |intros ? ?d [? ->]; eexists; reflexivity]
  | _ => tool_step
  end.

Section BuildBinariesResult.

Import Tool ReleaseSteps.

(** What [build_binaries] leaves behind. *)
Lemma build_binaries_yields (h : host) (version : string) :
  yields h (build_binaries version) (fun r d =>
    match r with
    | Value binaries =>
        List.map target_of binaries = List.filter (found d) BUILD_TARGETS
        /\ Forall (recorded d) binaries
        /\ (exists build_time commit,
             List.map fst (ran d)
             = argv_call false ["git"; "rev-parse"; "HEAD"]%string
               :: List.map (build_call (ldflags version build_time commit))
                    BUILD_TARGETS)
        /\ In BUILD_DIR (touched d)
    | Raise e => exists message, e = Error message
    end).
Proof.
  unfold build_binaries, print_header, print_colored.
  repeat build_binaries_step.
  all: try (eexists; reflexivity).
  all: split; [|split; [|split]].
  all: try (cbn [touched In]; auto; fail).
  all: try (rewrite Hmap; cbn [app];
            rewrite !filter_found_cons
              by (exact I || (cbn; intuition discriminate));
            now rewrite filter_found_app_r).
  all: try (do 2 eexists; trace_simpl; rewrite ?app_nil_r;
            cbn [List.map fst]; rewrite Hran; reflexivity).
  all: (eapply Forall_impl; [exact Hrec|]); intros b Hb.
  all: repeat apply recorded_cons.
  all: apply recorded_app_r, Hb.
Qed.

End BuildBinariesResult.

(** X25: when [build_binaries] returns, it has tried every target of
    [BUILD_TARGETS] once and in order, whatever failed in between: after
    [git rev-parse HEAD] the processes it started are the [go build] of
    each target, without the shell, with the same linker flags, with
    [GOOS], [GOARCH] and [CGO_ENABLED=0] set and [dist/<filename>] as
    output.  It leaves early only by an exception, never through
    [sys.exit]. *)
Theorem build_binaries_attempts
    (h : Tool.host) (version : string) (log : list Tool.event) :
  exists r d,
    ReleaseSteps.build_binaries version h log = (r, log ++ d)
    /\ ((exists binaries build_time commit,
           r = Tool.Value binaries
           /\ List.map fst (Tool.ran d)
              = Tool.argv_call false ["git"; "rev-parse"; "HEAD"]%string
                :: List.map
                     (ReleaseSteps.build_call
                        (ReleaseSteps.ldflags version build_time commit))
                     ReleaseSteps.BUILD_TARGETS)
        \/ exists message, r = Tool.Raise (Tool.Error message)).
Proof.
  destruct (build_binaries_yields h version log) as (r & d & E & H).
  exists r, d. split; [exact E|].
  destruct r as [binaries|e].
  - destruct H as (_ & _ & (build_time & commit & Hran) & _). left. eauto.
  - destruct H as [message ->]. right. eauto.
Qed.

(** X26: the list [build_binaries] returns holds, in the order of
    [BUILD_TARGETS], exactly the targets whose binary was found after its
    build, so at most five entries; each entry has the path
    [dist/<filename>] of its target, the size that was reported for that
    path, in units, and the SHA-256 digest of the bytes that were read
    from it. *)
Theorem build_binaries_results
    (h : Tool.host) (version : string) (log : list Tool.event) :
  exists r d,
    ReleaseSteps.build_binaries version h log = (r, log ++ d)
    /\ forall binaries,
         r = Tool.Value binaries ->
         List.map ReleaseSteps.target_of binaries
         = List.filter (ReleaseSteps.found d) ReleaseSteps.BUILD_TARGETS
         /\ Forall (ReleaseSteps.recorded d) binaries
         /\ (List.length binaries <= 5)%nat.
Proof.
  destruct (build_binaries_yields h version log) as (r & d & E & H).
  exists r, d. split; [exact E|].
  intros binaries ->. destruct H as (Hmap & Hrec & _ & _).
  split; [exact Hmap|]. split; [exact Hrec|].
  rewrite <- (length_map ReleaseSteps.target_of), Hmap.
  apply (filter_length_le _ ReleaseSteps.BUILD_TARGETS).
Qed.

(** With every build succeeding and every binary holding the text abc,
    all five targets are returned, each with the digest of abc. *)
Example build_binaries_all :
  match (ReleaseSteps.build_binaries "v1.0.0" ReleaseSteps.abc_host []).1 with
  | Tool.Value binaries =>
      List.map ReleaseSteps.target_of binaries = ReleaseSteps.BUILD_TARGETS
      /\ Forall (fun b => ReleaseSteps.sha256 b
                = "ba7816bf8f01cfea414140de5dae2223b00361a396177a9cb410ff61f20015ad"%string
                /\ ReleaseSteps.size b = "1.5 KB"%string) binaries
  | Tool.Raise _ => False
  end.
Proof.
  vm_compute. split; [reflexivity|].
  repeat (apply List.Forall_cons; [split; reflexivity|]).
  apply List.Forall_nil.
Qed.

Section ReleaseMain.

Import Tool ReleaseSteps.

Lemma ran_says texts : ran (List.map Printed texts) = [].
Proof. induction texts; auto. Qed.

Lemma probes_says p texts : probes p (List.map Printed texts) = [].
Proof. induction texts; auto. Qed.

Lemma touched_says texts : touched (List.map Printed texts) = [].
Proof. induction texts; auto. Qed.

(** [validate_version] on the machine of the trace: it prints at most, and
    its verdict is [valid]. *)
Lemma validate_version_yields (h : host) (shell : bool) (v : string) :
  yields h (script shell (Release.validate_version v)) (fun r d =>
    r = Value (valid v) /\ exists texts, d = List.map Printed texts).
Proof.
  intros log. unfold script.
  set (now := {| Script.subprocess_run := _ |}).
  pose proof (validate_version_result now v) as Hres.
  pose proof (validate_version_output now v) as Hout.
  unfold Script.result, Script.output, Script.exec in Hres, Hout.
  destruct (Release.validate_version v now []) as [a did].
  cbn [fst snd] in Hres, Hout. subst a did.
  eexists _, _. split; [reflexivity|]. split; [reflexivity|].
  destruct (negb _);
    [now exists [(Release.RED +:+ Release.msg_prefix +:+ Release.NC)%string]|].
  destruct (Nat.ltb _ _);
    [now exists [(Release.RED +:+ Release.msg_semver +:+ Release.NC)%string]
    |now exists []].
Qed.

(** What [main] relies on of [check_prerequisites]. *)
Lemma check_prerequisites_summary (h : host) :
  yields h check_prerequisites (fun r d =>
    touched d = [] /\ ran d <> []
    /\ Forall (fun co => co.1 = go_version \/ co.1 = git_version) (ran d)
    /\ (forall p, p <> ".git"%string -> p <> "go.mod"%string ->
        probes p d = [])
    /\ match r with
       | Value true =>
           List.map (fun co => succeeded co.2) (ran d) = [true; true]
           /\ probes ".git" d = [true] /\ probes "go.mod" d = [true]
       | Value false => True
       | Raise e => exists message, e = Error message
       end).
Proof.
  unfold check_prerequisites, print_header, print_colored.
  repeat release_step; trace_simpl; segments_simpl.
  all: split; [reflexivity|]; split; [discriminate|].
  all: split;
    [repeat (apply List.Forall_cons; [(left; reflexivity) || (right; reflexivity)|]);
     apply List.Forall_nil|].
  all: split;
    [intros p H1 H2; trace_simpl; segments_simpl;
     repeat match goal with
     | |- context [String.eqb ?a p] =>
         destruct (String.eqb_spec a p); [congruence|]
     end; reflexivity|].
  all: cbn [List.map Tool.succeeded snd]; rewrite ?Hrc, ?Hrc0; eauto.
Qed.

End ReleaseMain.

(** Every way through [main] of release.py. *)
Ltac release_main_step :=
  cbv beta iota;
  lazymatch goal with
  | |- Tool.yields _ (Tool.script _ (Release.validate_version _) ≫= _) _ =>
      eapply yields_bind;
      [apply validate_version_yields
      |intros ? ?d [[= ->] [?texts ->]];
       let Hvalid := fresh "Hvalid" in
       destruct (ReleaseSteps.valid _) eqn:Hvalid
      |intros ? ?d [[=] _]]
  | |- Tool.yields _ (ReleaseSteps.check_prerequisites ≫= _) _ =>
      let Htouched := fresh "Htouched" in
      let Hne := fresh "Hne" in
      let Hcalls := fresh "Hcalls" in
      let Hquiet := fresh "Hquiet" in
      let Hok := fresh "Hok" in
      eapply yields_bind;
      [apply check_prerequisites_summary
      |intros [|] ?d (Htouched & Hne & Hcalls & Hquiet & Hok)
      |intros ? ?d (Htouched & Hne & Hcalls & Hquiet & ? & ->)]
  | |- Tool.yields _ (ReleaseSteps.build_binaries _ ≫= _) _ =>
      let Hbuilt := fresh "Hbuilt" in
      eapply yields_bind;
      [apply build_binaries_yields
      |intros [|? ?] ?d (_ & _ & _ & Hbuilt)
      |intros ? ?d [? ->]]
  | |- Tool.yields _ (match ReleaseSteps.token ?a with _ => _ end ≫= _) _ =>
      destruct (ReleaseSteps.token a) as [[|? ?]|];
      try destruct (ReleaseSteps.token_file a)
  | |- Tool.yields _ (if ReleaseSteps.build_only ?a then _ else _) _ =>
      destruct (ReleaseSteps.build_only a)
  | |- Tool.yields _ (if ?b then _ else _) _ =>
      first [is_var b; destruct b | tool_step]
  | _ => tool_step
  end.

Ltac release_main_paths :=
  intros h; apply yields_reply;
  unfold ReleaseSteps.main, ReleaseSteps.print_colored;
  repeat release_main_step; cbv beta iota.

Ltac release_main_views :=
  trace_simpl;
  rewrite ?ran_says, ?probes_says, ?touched_says;
  repeat match goal with
  | H : Tool.touched ?d = [] |- context [Tool.touched ?d] => rewrite H
  end;
  cbn [app]; rewrite ?app_nil_r.

Section ReleaseMainFacts.

Import Tool ReleaseSteps.

Lemma firstn_two {A} (f : A -> bool) (l rest : list A) :
  List.map f l = [true; true] -> List.map f (firstn 2 (l ++ rest)) = [true; true].
Proof.
  destruct l as [|x [|y [|z l]]]; try discriminate. intros H. exact H.
Qed.

End ReleaseMainFacts.

(** X27: [main] of release.py starts a process exactly when the version is
    well formed; with a malformed version it leaves with exit code 1 and
    has neither looked for a path nor removed or made a directory.  It
    removes or makes a directory only after all four prerequisite checks
    have passed. *)
Theorem release_main_gates
    (h : Tool.host) (a : ReleaseSteps.args)
    (create_github_release : ReleaseSteps.publisher)
    (log : list Tool.event) :
  exists r d,
    ReleaseSteps.main a create_github_release h log = (r, log ++ d)
    /\ (Tool.ran d = []
        <-> ReleaseSteps.valid (ReleaseSteps.version a) = false)
    /\ (Tool.ran d = [] ->
        r = Tool.Raise (Tool.SystemExit 1) /\ Tool.touched d = []
        /\ forall p, Tool.probes p d = [])
    /\ (Tool.touched d <> [] ->
        List.map (fun co => Tool.succeeded co.2) (firstn 2 (Tool.ran d))
        = [true; true]
        /\ head (Tool.probes ".git" d) = Some true
        /\ head (Tool.probes "go.mod" d) = Some true).
Proof.
  revert h log. release_main_paths.
  all: split; [|split].
  all: release_main_views.
  (* a process is started exactly with a well-formed version *)
  all: try tauto.
  all: try (split; [intros H; try discriminate;
                    apply app_eq_nil in H as [H _]; contradiction
                   |intros H; try discriminate H; reflexivity]).
  all: try (split; [intros H; contradiction | discriminate]).
  (* nothing happens without one *)
  all: try (intros H; try (apply app_eq_nil in H as [H _]); contradiction).
  all: try (intros _; split; [reflexivity|]; split; [reflexivity|];
            intros p; trace_simpl; now rewrite probes_says).
  (* directories are touched after the checks *)
  all: try (intros H; congruence).
  all: destruct Hok as (Hran & Hgit & Hmod); rewrite Hgit, Hmod.
  all: intros _; split; [apply firstn_two, Hran | split; reflexivity].
Qed.

